(** * Pinky compiler: the WASM back-end and the lexer, embedded in Rocq

    The development follows the TypeScript sources:
    - the compiler, [compiler.ts], kept under
      [src/.github/workflows/release.yml]  ([compile], [_compile],
      [mainFuncBody], [compileStatements], [compileStatement],
      [compileExpression]);
    - the lexer, [src/src/lexer.ts]  ([tokenize] and its helpers).

    The modules [compiler/wasm], [compiler/state] and [compiler/functions]
    are imported by the compiler but are not part of the sources at hand;
    what the compiler needs from them is modelled from the specification
    and marked as such. *)

From Stdlib Require Import ZArith NArith List String Ascii Bool Lia.
From stdpp Require Import base option list gmap strings pretty.
Import ListNotations.
Local Open Scope Z_scope.
Local Open Scope list_scope.

Set Warnings "-register-all,-at-level-200-changed".

(** ** Bytes *)

(** A JavaScript [number[]] of byte values; every element the compiler
    emits lies in [0, 255]. *)
Abbreviation bytes := (list Z).

(** ** The binary encoder ([compiler/wasm]) *)

Module Wasm.

(** Modelled from the spec: [unsignedLEB] of compiler/wasm.ts, which is
    not in the sources (spec 4.A: "uleb128(n): variable-length integer
    encoding per DWARF rules").  Seven bits per byte, least significant
    group first, bit 7 set on every byte but the last. *)
Fixpoint unsignedLEB_go (fuel : nat) (n : N) : bytes :=
  match fuel with
  | O => []
  | S fuel' =>
      let byte := Z.of_N (N.land n 127) in
      let rest := N.shiftr n 7 in
      if (rest =? 0)%N then [byte]
      else Z.lor byte 128 :: unsignedLEB_go fuel' rest
  end.

Definition unsignedLEB (n : N) : bytes :=
  unsignedLEB_go (S (N.to_nat (N.log2 n))) n.

(** Modelled from the spec: [signedLEB] of compiler/wasm.ts (spec 4.A,
    "sleb128(n)" per DWARF rules): seven bits per byte, the last byte is
    the one whose bit 6 agrees with the sign of what remains. *)
Fixpoint signedLEB_go (fuel : nat) (n : Z) : bytes :=
  match fuel with
  | O => []
  | S fuel' =>
      let byte := Z.land n 127 in
      let rest := Z.shiftr n 7 in
      if ((rest =? 0) && (Z.land byte 64 =? 0))
         || ((rest =? -1) && negb (Z.land byte 64 =? 0))
      then [byte]
      else Z.lor byte 128 :: signedLEB_go fuel' rest
  end.

Definition signedLEB (n : Z) : bytes :=
  signedLEB_go (S (S (Z.to_nat (Z.log2 (Z.abs n))))) n.

(** Modelled from the spec: [valType] of compiler/wasm.ts; the value
    type codes of WASM 1.0. *)
Inductive valtype := I32 | F64.

Definition valType (t : valtype) : Z :=
  match t with I32 => 0x7F | F64 => 0x7C end.

(** The empty block type, the default of [if_.start()]. *)
Definition emptyBlockType : Z := 0x40.

(** A JavaScript number is an IEEE-754 double; a literal is kept as its
    64-bit pattern. *)
Definition f64bits := Z.

Definition f64_le_bytes (x : f64bits) : bytes :=
  map (fun i => Z.land (Z.shiftr x (8 * Z.of_nat i)) 255) (seq 0 8).

(** Unary minus on a double flips the sign bit. *)
Definition f64_negate (x : f64bits) : f64bits := Z.lxor x (2 ^ 63).

(** Modelled from the spec: the opcode helpers of compiler/wasm.ts
    (spec 4.A and the opcode table of 6.3). *)
Module i32.
Definition const (n : Z) : bytes := 0x41 :: signedLEB n.
Definition add : bytes := [0x6A].
Definition eqz : bytes := [0x45].
Definition ge_u : bytes := [0x4F].
Definition or : bytes := [0x72].
End i32.

Module f64.
Definition const (x : f64bits) : bytes := 0x44 :: f64_le_bytes x.
Definition add : bytes := [0xA0].
Definition neg : bytes := [0x9A].
Definition eq : bytes := [0x61].
Definition lt : bytes := [0x63].
Definition gt : bytes := [0x64].
End f64.

Module local.
Definition get (i : nat) : bytes := 0x20 :: unsignedLEB (N.of_nat i).
Definition set (i : nat) : bytes := 0x21 :: unsignedLEB (N.of_nat i).
End local.

Module fn.
Definition call (i : nat) : bytes := 0x10 :: unsignedLEB (N.of_nat i).
Definition return_ : bytes := [0x0F].
End fn.

Module control.
Definition end_ : bytes := [0x0B].
End control.

Module block.
Definition start : bytes := [0x02; emptyBlockType].
Definition end_ : bytes := [0x0B].
End block.

Module loop.
Definition start : bytes := [0x03; emptyBlockType].
Definition br (depth : nat) : bytes := 0x0C :: unsignedLEB (N.of_nat depth).
Definition br_if (depth : nat) : bytes := 0x0D :: unsignedLEB (N.of_nat depth).
Definition end_ : bytes := [0x0B].
End loop.

Module if_.
Definition start (blockType : Z) : bytes := [0x04; blockType].
Definition else_ : bytes := [0x05].
Definition end_ : bytes := [0x0B].
End if_.

Module misc.
Definition drop : bytes := [0x1A].
Definition unreachable : bytes := [0x00].
End misc.

(** Modelled from the spec: [nativeBinOps] of compiler/wasm.ts.  The
    operators with an f64 opcode map to it; the four operators lowered by
    hand map to [null]; any other key is absent ([undefined]). *)
Inductive nativeOp := OpCode (op : Z) | OpNull | OpUndefined.

Definition nativeBinOps (operator : string) : nativeOp :=
  if String.eqb operator "+" then OpCode 0xA0
  else if String.eqb operator "-" then OpCode 0xA1
  else if String.eqb operator "*" then OpCode 0xA2
  else if String.eqb operator "/" then OpCode 0xA3
  else if String.eqb operator "==" then OpCode 0x61
  else if String.eqb operator "~=" then OpCode 0x62
  else if String.eqb operator "<" then OpCode 0x63
  else if String.eqb operator ">" then OpCode 0x64
  else if String.eqb operator "<=" then OpCode 0x65
  else if String.eqb operator ">=" then OpCode 0x66
  else if String.eqb operator "%" then OpNull
  else if String.eqb operator "^" then OpNull
  else if String.eqb operator "and" then OpNull
  else if String.eqb operator "or" then OpNull
  else OpUndefined.

(** Modelled from the spec: [encodeString] ("uleb128(byte_length(s))
    then raw UTF-8"), here on the already encoded bytes. *)
Definition encodeBytes (utf8 : bytes) : bytes :=
  unsignedLEB (N.of_nat (length utf8)) ++ utf8.

(** Modelled from the spec: [emitSection] ("[id, uleb128(len(payload)),
    payload...]"). *)
Definition emitSection (id : Z) (payload : bytes) : bytes :=
  id :: unsignedLEB (N.of_nat (length payload)) ++ payload.

End Wasm.

(** ** JavaScript strings *)

(** A JavaScript string is a sequence of UTF-16 code units.  Identifiers
    and operator names, which the lexer restricts to ASCII, are kept as
    [string]; the values of string literals and the lexer's input are
    [jsstring]. *)
Abbreviation jsstring := (list N).

Definition js (s : string) : jsstring :=
  map N_of_ascii (list_ascii_of_string s).

Module Utf8.

Definition is_high_surrogate (u : N) : bool := ((0xD800 <=? u) && (u <=? 0xDBFF))%N.
Definition is_low_surrogate (u : N) : bool := ((0xDC00 <=? u) && (u <=? 0xDFFF))%N.

(** The UTF-8 bytes of one Unicode scalar value. *)
Definition encode_scalar (c : N) : bytes :=
  let z := Z.of_N c in
  if z <? 0x80 then [z]
  else if z <? 0x800 then
    [Z.lor 0xC0 (Z.shiftr z 6); Z.lor 0x80 (Z.land z 0x3F)]
  else if z <? 0x10000 then
    [Z.lor 0xE0 (Z.shiftr z 12); Z.lor 0x80 (Z.land (Z.shiftr z 6) 0x3F);
     Z.lor 0x80 (Z.land z 0x3F)]
  else
    [Z.lor 0xF0 (Z.shiftr z 18); Z.lor 0x80 (Z.land (Z.shiftr z 12) 0x3F);
     Z.lor 0x80 (Z.land (Z.shiftr z 6) 0x3F); Z.lor 0x80 (Z.land z 0x3F)].

(** [new TextEncoder().encode(s)]: surrogate pairs are combined, a lone
    surrogate becomes U+FFFD. *)
Fixpoint encode (s : jsstring) : bytes :=
  match s with
  | [] => []
  | u :: rest =>
      if is_high_surrogate u then
        match rest with
        | v :: rest' =>
            if is_low_surrogate v
            then encode_scalar (0x10000 + (u - 0xD800) * 0x400 + (v - 0xDC00))%N
                   ++ encode rest'
            else encode_scalar 0xFFFD ++ encode rest
        | [] => encode_scalar 0xFFFD
        end
      else if is_low_surrogate u then encode_scalar 0xFFFD ++ encode rest
      else encode_scalar u ++ encode rest
  end.

End Utf8.

(** ** The syntax tree ([syntax.ts], as the compiler reads it) *)

Record Loc := { line : nat; column : nat }.

(** An [Identifier] node where only its name and [loc.start] are read. *)
Record Ident := { name : string; loc : Loc }.

(** Operators are the strings the switch statements compare against.  The
    [Other...] constructors stand for a node whose [type] none of the
    [case] labels matches (the [default:] branches). *)
Inductive Expression :=
| StringLiteral (value : jsstring)
| NumberLiteral (value : Wasm.f64bits)
| BooleanLiteral (value : bool)
| Identifier (id : Ident)
| GroupingExpression (expression : Expression)
| BinaryExpression (left : Expression) (operator : string) (right : Expression)
| UnaryExpression (operator : string) (argument : Expression)
| FunctionCallExpression (callee : Ident) (args : list Expression) (at_ : Loc)
| OtherExpression (type : string).

Inductive Statement :=
| PrintlnStatement (expression : Expression)
| PrintStatement (expression : Expression)
| LocalAssignStatement (identifier : Ident) (expression : Expression)
| AssignStatement (identifier : Ident) (expression : Expression)
| IfStatement (condition : Expression) (thenBranch : list Statement)
    (elifBranches : list (Expression * list Statement))
    (elseBranch : option (list Statement))
| WhileStatement (condition : Expression) (body : list Statement)
| ForStatement (isLocal : bool) (identifier : Ident) (init : Expression)
    (condition : Expression) (increment : option Expression)
    (body : list Statement)
| FunctionDeclStatement (fname : Ident) (params : list Ident)
    (body : list Statement)
| ReturnStatement (expression : Expression)
| ExpressionStatement (expression : Expression)
| OtherStatement (type : string).

(** What [compile] can be handed: [null], a node that is not a
    ["Program"], or a program. *)
Inductive AST :=
| AstNull
| AstNotProgram (type : string)
| Program (body : list Statement).

(** ** Compiler state ([compiler/state] and [compiler/functions]) *)

(** Modelled from the spec: the string table of compiler/state.ts (spec
    4.B): "intern(s): if s has been seen, return its prior offset;
    otherwise append s's UTF-8 bytes and return the starting offset". *)
Module StringTable.

Record t := mk { offsets : gmap jsstring nat; data : bytes }.

Definition empty : t := {| offsets := ∅; data := [] |}.

Definition getOffset (s : jsstring) (tbl : t) : nat * t :=
  match offsets tbl !! s with
  | Some off => (off, tbl)
  | None =>
      (length (data tbl),
       {| offsets := <[s := length (data tbl)]> (offsets tbl);
          data := data tbl ++ Utf8.encode s |})
  end.

Definition getBytes (tbl : t) : bytes := data tbl.

End StringTable.

(** Modelled from the spec: the function catalogue of
    compiler/functions.ts (spec 3 and 4.C).  A signature is
    [(params, results)]. *)
Record fntype := { fparams : list Wasm.valtype; fresults : list Wasm.valtype }.

Record fnrec := { fn_name : string; fn_type : fntype }.

#[global] Instance valtype_eq_dec : EqDecision Wasm.valtype.
Proof. solve_decision. Defined.

#[global] Instance fntype_eq_dec : EqDecision fntype.
Proof. solve_decision. Defined.

Definition sig (ps rs : list Wasm.valtype) : fntype :=
  {| fparams := ps; fresults := rs |}.

(** Modelled from the spec: the imports [env.print] and [env.println],
    both [(i32) -> ()] (spec 6.2). *)
Definition importFunctions : list fnrec :=
  [ {| fn_name := "print"; fn_type := sig [Wasm.I32] [] |};
    {| fn_name := "println"; fn_type := sig [Wasm.I32] [] |} ].

(** Modelled from the spec: the functions defined in every module, that
    is [main] (exported right after the imports) and the runtime helpers
    with the signatures of the table of spec 4.C, in the table's order. *)
Definition definedFunctions : list fnrec :=
  [ {| fn_name := "main"; fn_type := sig [] [] |};
    {| fn_name := "box_nil"; fn_type := sig [] [Wasm.I32] |};
    {| fn_name := "box_bool"; fn_type := sig [Wasm.I32] [Wasm.I32] |};
    {| fn_name := "box_number"; fn_type := sig [Wasm.F64] [Wasm.I32] |};
    {| fn_name := "box_string"; fn_type := sig [Wasm.I32; Wasm.I32] [Wasm.I32] |};
    {| fn_name := "unbox_number"; fn_type := sig [Wasm.I32] [Wasm.F64] |};
    {| fn_name := "is_string"; fn_type := sig [Wasm.I32] [Wasm.I32] |};
    {| fn_name := "is_bool"; fn_type := sig [Wasm.I32] [Wasm.I32] |};
    {| fn_name := "is_number"; fn_type := sig [Wasm.I32] [Wasm.I32] |};
    {| fn_name := "is_nil"; fn_type := sig [Wasm.I32] [Wasm.I32] |};
    {| fn_name := "is_truthy"; fn_type := sig [Wasm.I32] [Wasm.I32] |};
    {| fn_name := "to_number"; fn_type := sig [Wasm.I32] [Wasm.I32] |};
    {| fn_name := "concat"; fn_type := sig [Wasm.I32; Wasm.I32] [Wasm.I32] |};
    {| fn_name := "mod"; fn_type := sig [Wasm.F64; Wasm.F64] [Wasm.F64] |};
    {| fn_name := "math_pow"; fn_type := sig [Wasm.F64; Wasm.F64] [Wasm.F64] |} ].

(** [functionBodies] of compiler/functions.ts: the compiler reads it as
    a plain JavaScript object, with [functionBodies[name]] and
    [Object.keys(functionBodies)], and the values stored in it are arrays
    of bytes.  A plain object has its own properties and a prototype,
    [Object.prototype] until it is replaced. *)
Module JsObject.

Record t := mk {
  own : gmap string bytes;      (* the own properties *)
  proto : option bytes;         (* the array the prototype was set to, if it was *)
}.

(** [{}] *)
Definition empty : t := mk ∅ None.

(** An object with the given own properties. *)
Definition of_map (m : gmap string bytes) : t := mk m None.

(** [o[k] = v], with an array [v].  [__proto__] names an accessor of
    [Object.prototype]: unless the object has an own property of that
    name, the assignment replaces the prototype by [v] and adds no own
    property.  Under every other name it sets an own property. *)
Definition set (k : string) (v : bytes) (o : t) : t :=
  if String.eqb k "__proto__" && negb (bool_decide (is_Some (own o !! k)))
  then mk (own o) (Some v)
  else mk (<[k := v]> (own o)) (proto o).

(** [o[k]], when it is an array of bytes: an own property, or under
    [__proto__] the array the prototype was set to. *)
Definition get (k : string) (o : t) : option bytes :=
  match own o !! k with
  | Some v => Some v
  | None => if String.eqb k "__proto__" then proto o else None
  end.

(** [Object.keys(o)]: the names of the own properties (their order plays
    no role in the compiler, which only counts them). *)
Definition keys (o : t) : list string := (map_to_list (own o)).*1.

(** The string-keyed properties of [Object.prototype] and of
    [Array.prototype] (ECMAScript 2023), all of them functions but
    [__proto__], which reads as the prototype. *)
Definition objectPrototype : list string :=
  [ "constructor"; "__defineGetter__"; "__defineSetter__"; "hasOwnProperty";
    "__lookupGetter__"; "__lookupSetter__"; "isPrototypeOf";
    "propertyIsEnumerable"; "toString"; "valueOf"; "__proto__";
    "toLocaleString" ]%string.

Definition arrayPrototype : list string :=
  [ "at"; "concat"; "constructor"; "copyWithin"; "entries"; "every"; "fill";
    "filter"; "find"; "findIndex"; "findLast"; "findLastIndex"; "flat";
    "flatMap"; "forEach"; "includes"; "indexOf"; "join"; "keys";
    "lastIndexOf"; "map"; "pop"; "push"; "reduce"; "reduceRight"; "reverse";
    "shift"; "slice"; "some"; "sort"; "splice"; "toLocaleString";
    "toReversed"; "toSorted"; "toSpliced"; "toString"; "unshift"; "values";
    "with" ]%string.

(** What [o[k]] is when it is no array of bytes: [undefined], or a value
    inherited from the prototype, which is falsy (the number 0) or truthy
    (another number, a function, an object). *)
Inductive other := Undefined | Falsy | Truthy.

Definition inherited (k : string) (o : t) : other :=
  match proto o with
  | Some array =>
      if String.eqb k "length" then
        if (length array =? 0)%nat then Falsy else Truthy
      else
        match list_find (fun i : nat => pretty i = k) (seq 0 (length array)) with
        | Some (i, _) => if (nth i array 0 =? 0)%Z then Falsy else Truthy
        | None =>
            if bool_decide (k ∈ arrayPrototype ++ objectPrototype)
            then Truthy else Undefined
        end
  | None => if bool_decide (k ∈ objectPrototype) then Truthy else Undefined
  end.

End JsObject.

#[global] Instance JsObject_lookup : Lookup string bytes JsObject.t := JsObject.get.
#[global] Instance JsObject_insert : Insert string bytes JsObject.t := JsObject.set.
#[global] Instance JsObject_empty : Empty JsObject.t := JsObject.empty.

(** The module-level mutable state of the compiler, one record.  The
    string table is the object [compile] creates and passes along. *)
Record cstate := mkState {
  scopes : list (gmap string nat);       (* innermost scope first *)
  localVarsIndex : nat;
  userDefinedFunctions : list fnrec;
  functionBodies : JsObject.t;
  strings : StringTable.t;
}.

Definition with_scopes (sc : list (gmap string nat)) (st : cstate) : cstate :=
  mkState sc (localVarsIndex st) (userDefinedFunctions st) (functionBodies st) (strings st).
Definition with_index (i : nat) (st : cstate) : cstate :=
  mkState (scopes st) i (userDefinedFunctions st) (functionBodies st) (strings st).
Definition with_userfns (fs : list fnrec) (st : cstate) : cstate :=
  mkState (scopes st) (localVarsIndex st) fs (functionBodies st) (strings st).
Definition with_bodies (b : JsObject.t) (st : cstate) : cstate :=
  mkState (scopes st) (localVarsIndex st) (userDefinedFunctions st) b (strings st).
Definition with_strings (t : StringTable.t) (st : cstate) : cstate :=
  mkState (scopes st) (localVarsIndex st) (userDefinedFunctions st) (functionBodies st) t.

(** ** Exceptions and state: the monad the compiler runs in *)

Record CompilerError := mkCompilerError {
  message : string;
  err_line : nat;
  err_column : nat;
  tokenLength : nat;
}.

(** A call returns, throws a [CompilerError], or throws a plain [Error];
    the state survives either way, as module-level state does. *)
Inductive outcome (A : Type) :=
| Ok (a : A)
| CompErr (e : CompilerError)
| Throw (msg : string).
Arguments Ok {A} a.
Arguments CompErr {A} e.
Arguments Throw {A} msg.

Definition M (A : Type) : Type := cstate -> outcome A * cstate.

Definition ret {A} (a : A) : M A := fun st => (Ok a, st).
Definition bind {A B} (m : M A) (k : A -> M B) : M B :=
  fun st =>
    match m st with
    | (Ok a, st') => k a st'
    | (CompErr e, st') => (CompErr e, st')
    | (Throw msg, st') => (Throw msg, st')
    end.
Definition throwCompilerError {A} (e : CompilerError) : M A :=
  fun st => (CompErr e, st).
Definition throwError {A} (msg : string) : M A :=
  fun st => (Throw msg, st).
Definition gets {A} (f : cstate -> A) : M A := fun st => (Ok (f st), st).
Definition modify (f : cstate -> cstate) : M unit := fun st => (Ok tt, f st).

Notation "'let*' x ':=' m 'in' k" := (bind m (fun x => k))
  (at level 200, x pattern, m at level 100, k at level 200, right associativity).
Notation "m ';;' k" := (bind m (fun _ => k))
  (at level 100, k at level 200, right associativity).

(** [xs.flatMap(f)] with an effectful [f], left to right. *)
Section FlatMap.
Context {A : Type} (f : A -> M bytes).

Fixpoint flatMapM (xs : list A) : M bytes :=
  match xs with
  | [] => ret []
  | x :: xs' =>
      let* b := f x in
      let* bs := flatMapM xs' in
      ret (b ++ bs)
  end.
End FlatMap.

(** ** Scopes and slots ([compiler/state]) *)

(** Modelled from the spec: [enterScope], [exitScope], [clearScopes],
    [declareVar], [getVar] and [consumeScratchIndex] of compiler/state.ts
    (spec 3 and 4.D).  The scope stack carries its innermost scope first;
    a cleared stack holds the one scope the program body declares in. *)
Definition enterScope : M unit :=
  modify (fun st => with_scopes (∅ :: scopes st) st).

Definition exitScope : M unit :=
  modify (fun st => with_scopes (tail (scopes st)) st).

Definition clearScopes : M unit :=
  modify (with_scopes [∅]).

Definition setScopes (sc : list (gmap string nat)) : M unit :=
  modify (with_scopes sc).

Definition getLocalVarsIndex : M nat := gets localVarsIndex.

Definition setLocalVarsIndex (i : nat) : M unit := modify (with_index i).

Fixpoint lookupVar (x : string) (sc : list (gmap string nat)) : option nat :=
  match sc with
  | [] => None
  | top :: outer =>
      match top !! x with
      | Some i => Some i
      | None => lookupVar x outer
      end
  end.

(** "lookup(name): innermost-out search". *)
Definition getVar (x : string) : M (option nat) :=
  gets (fun st => lookupVar x (scopes st)).

(** "consume_scratch(): allocate an anonymous slot". *)
Definition consumeScratchIndex : M nat :=
  fun st => (Ok (localVarsIndex st), with_index (S (localVarsIndex st)) st).

(** "declare(name, is_local): if is_local, always create in top scope;
    else search outward, update if found, create in top scope otherwise.
    Returns the assigned slot index."  Without a scope to declare in there
    is no slot to return, which the callers test for. *)
Definition declareVar (x : string) (isLocal : bool) : M (option nat) :=
  fun st =>
    let create :=
      match scopes st with
      | [] => (Ok None, st)
      | top :: outer =>
          (Ok (Some (localVarsIndex st)),
           with_index (S (localVarsIndex st))
             (with_scopes (<[x := localVarsIndex st]> top :: outer) st))
      end in
    if isLocal then create
    else match lookupVar x (scopes st) with
         | Some i => (Ok (Some i), st)
         | None => create
         end.

(** ** The function registry ([compiler/functions]) *)

Fixpoint indexOfName (x : string) (fs : list fnrec) : option nat :=
  match fs with
  | [] => None
  | f :: fs' =>
      if String.eqb (fn_name f) x then Some O
      else S <$> indexOfName x fs'
  end.

Definition findFunction (x : string) (fs : list fnrec) : option fnrec :=
  List.find (fun f => String.eqb (fn_name f) x) fs.

Definition allFunctions (st : cstate) : list fnrec :=
  importFunctions ++ definedFunctions ++ userDefinedFunctions st.

(** Modelled from the spec: [func()] of compiler/functions.ts, the map
    from a function's name to its index in the module: imports first,
    then the defined functions, then the user-defined ones (spec 3,
    "Function catalogue").  The compiler only looks up names of the
    catalogue and names it has just found among the user-defined
    functions. *)
Definition func (st : cstate) (x : string) : nat :=
  default O (indexOfName x (allFunctions st)).

(** Modelled from the spec: [getFunctionReturnCount], the number of
    results of the named function. *)
Definition getFunctionReturnCount (st : cstate) (x : string) : nat :=
  match findFunction x (allFunctions st) with
  | Some f => length (fresults (fn_type f))
  | None => O
  end.

Definition addUserDefinedFunction (x : string) (ps rs : list Wasm.valtype) : M unit :=
  modify (fun st =>
    with_userfns (userDefinedFunctions st ++ [ {| fn_name := x; fn_type := sig ps rs |} ]) st).

Definition addFunctionBody (x : string) (body : bytes) : M unit :=
  modify (fun st => with_bodies (<[x := body]> (functionBodies st)) st).

Definition clearUserDefinedFunctions : M unit := modify (with_userfns []).

(** [fn.call(func().x)], read when the instruction is emitted. *)
Definition call (x : string) : M bytes :=
  gets (fun st => Wasm.fn.call (func st x)).

Definition getOffset (s : jsstring) : M nat :=
  fun st =>
    let '(off, tbl) := StringTable.getOffset s (strings st) in
    (Ok off, with_strings tbl st).

(** ** Lowering expressions *)

Definition MAX_ITERATIONS : Z := 10000.

Definition comparisonOps (operator : string) : bool :=
  existsb (String.eqb operator) ["=="; "~="; ">"; ">="; "<"; "<="]%string.

(** [s] between double quotes, as the messages show names. *)
Definition quoted (s : string) : string :=
  String (ascii_of_nat 34) (s +:+ String (ascii_of_nat 34) EmptyString).

Definition undeclared (id : Ident) : CompilerError :=
  mkCompilerError ("Variable " +:+ quoted (name id) +:+ " is not declared")
    (line (loc id)) (column (loc id)) (String.length (name id)).

(** The [BinaryExpression] case once both operands are compiled. *)
Definition compileBinary (operator : string) (left right : bytes) : M bytes :=
  let nativeOp := Wasm.nativeBinOps operator in
  let isNative := match nativeOp with Wasm.OpCode c => negb (c =? 0) | _ => false end in
  if isNative && String.eqb operator "+" then
    let* is_string := call "is_string" in
    let* concat := call "concat" in
    let* is_bool := call "is_bool" in
    let* to_number := call "to_number" in
    let* unbox_number := call "unbox_number" in
    let* box_number := call "box_number" in
    ret (left ++ is_string ++ right ++ is_string ++ Wasm.i32.or
         ++ Wasm.if_.start (Wasm.valType Wasm.I32)
         ++ left ++ right ++ concat
         ++ Wasm.if_.else_
         ++ left ++ is_bool ++ right ++ is_bool ++ Wasm.i32.or
         ++ Wasm.if_.start (Wasm.valType Wasm.I32)
         ++ left ++ to_number ++ unbox_number
         ++ right ++ to_number ++ unbox_number
         ++ Wasm.f64.add ++ box_number
         ++ Wasm.if_.else_
         ++ left ++ unbox_number ++ right ++ unbox_number
         ++ Wasm.f64.add ++ box_number
         ++ Wasm.if_.end_
         ++ Wasm.if_.end_)
  else
    match nativeOp with
    | Wasm.OpCode _ | Wasm.OpUndefined =>
        (* an [undefined] array element is the byte 0 of the Uint8Array *)
        let op := match nativeOp with Wasm.OpCode c => c | _ => 0 end in
        let* unbox_number := call "unbox_number" in
        let ops := left ++ unbox_number ++ right ++ unbox_number ++ [op] in
        if comparisonOps operator then
          let* box_bool := call "box_bool" in ret (ops ++ box_bool)
        else
          let* box_number := call "box_number" in ret (ops ++ box_number)
    | Wasm.OpNull =>
        if String.eqb operator "%" then
          let* unbox_number := call "unbox_number" in
          let* mod_ := call "mod" in
          let* box_number := call "box_number" in
          ret (left ++ unbox_number ++ right ++ unbox_number ++ mod_ ++ box_number)
        else if String.eqb operator "^" then
          let* unbox_number := call "unbox_number" in
          let* math_pow := call "math_pow" in
          let* box_number := call "box_number" in
          ret (left ++ unbox_number ++ right ++ unbox_number ++ math_pow ++ box_number)
        else if String.eqb operator "and" then
          let* scratch := consumeScratchIndex in
          let* is_truthy := call "is_truthy" in
          ret (left ++ Wasm.local.set scratch ++ Wasm.local.get scratch
               ++ is_truthy ++ Wasm.if_.start (Wasm.valType Wasm.I32)
               ++ right
               ++ Wasm.if_.else_
               ++ Wasm.local.get scratch
               ++ Wasm.if_.end_)
        else if String.eqb operator "or" then
          let* scratch := consumeScratchIndex in
          let* is_truthy := call "is_truthy" in
          ret (left ++ Wasm.local.set scratch ++ Wasm.local.get scratch
               ++ is_truthy ++ Wasm.if_.start (Wasm.valType Wasm.I32)
               ++ Wasm.local.get scratch
               ++ Wasm.if_.else_
               ++ right
               ++ Wasm.if_.end_)
        else throwError ("Unsupported binary operator: " +:+ operator)
    end.

(** The [FunctionCallExpression] case; [compileArgs] compiles the
    arguments in order. *)
Definition compileCall (callee : Ident) (nargs : nat) (at_ : Loc)
    (compileArgs : M bytes) : M bytes :=
  let* f := gets (fun st => findFunction (name callee) (userDefinedFunctions st)) in
  if String.eqb (name callee) "is_string" then
    if negb (nargs =? 1)%nat then
      throwCompilerError
        (mkCompilerError "is_string expects 1 argument"
           (line at_) (column at_) (String.length (name callee)))
    else
      let* code := compileArgs in
      let* is_string := call "is_string" in
      let* box_bool := call "box_bool" in
      ret (code ++ is_string ++ box_bool)
  else
    match f with
    | None =>
        throwCompilerError
          (mkCompilerError ("Function " +:+ quoted (name callee) +:+ " is not defined")
             (line (loc callee)) (column (loc callee)) (String.length (name callee)))
    | Some f =>
        if negb (length (fparams (fn_type f)) =? nargs)%nat then
          throwCompilerError
            (mkCompilerError
               ("Function " +:+ quoted (name callee) +:+ " expects "
                  +:+ pretty (length (fparams (fn_type f)))
                  +:+ " arguments, but got " +:+ pretty nargs)
               (line (loc callee)) (column (loc callee)) (String.length (name callee)))
        else
          let* code := compileArgs in
          let* target := call (name callee) in
          ret (code ++ target)
    end.

Fixpoint compileExpression (expr : Expression) : M bytes :=
  match expr with
  | StringLiteral value =>
      let* offset := getOffset value in
      let length := length (Utf8.encode value) in
      let* box_string := call "box_string" in
      ret (Wasm.i32.const (Z.of_nat offset) ++ Wasm.i32.const (Z.of_nat length)
           ++ box_string)
  | NumberLiteral value =>
      let* box_number := call "box_number" in
      ret (Wasm.f64.const value ++ box_number)
  | BooleanLiteral value =>
      let* box_bool := call "box_bool" in
      ret (Wasm.i32.const (if value then 1 else 0) ++ box_bool)
  | Identifier id =>
      let* variable := getVar (name id) in
      match variable with
      | None => throwCompilerError (undeclared id)
      | Some index => ret (Wasm.local.get index)
      end
  | GroupingExpression e => compileExpression e
  | BinaryExpression l operator r =>
      let* left_ := compileExpression l in
      let* right_ := compileExpression r in
      compileBinary operator left_ right_
  | UnaryExpression operator argument =>
      if String.eqb operator "+" then compileExpression argument
      else if String.eqb operator "-" then
        match argument with
        | NumberLiteral value =>
            let* box_number := call "box_number" in
            ret (Wasm.f64.const (Wasm.f64_negate value) ++ box_number)
        | _ =>
            let* code := compileExpression argument in
            let* unbox_number := call "unbox_number" in
            let* box_number := call "box_number" in
            ret (code ++ unbox_number ++ Wasm.f64.neg ++ box_number)
        end
      else if String.eqb operator "~" then
        let* code := compileExpression argument in
        let* unbox_number := call "unbox_number" in
        let* box_bool := call "box_bool" in
        ret (code ++ unbox_number ++ Wasm.f64.const 0 ++ Wasm.f64.eq ++ box_bool)
      else throwError ("Unsupported unary operator: " +:+ operator)
  | FunctionCallExpression callee args at_ =>
      compileCall callee (length args) at_ (flatMapM compileExpression args)
  | OtherExpression _ => throwError "Something went wrong"
  end.

(** ** Lowering statements *)

(** The [AssignStatement] / [LocalAssignStatement] case; [rhs] compiles
    the right-hand side. *)
Definition compileAssign (isLocal : bool) (identifier : Ident) (rhs : M bytes) : M bytes :=
  let* code := rhs in
  let* varInfo := declareVar (name identifier) isLocal in
  match varInfo with
  | None => throwCompilerError (undeclared identifier)
  | Some index => ret (code ++ Wasm.local.set index)
  end.

(** The loop over [stmt.elifBranches], which runs from the last branch to
    the first and wraps the else block built so far; the recursion reaches
    the end of the list first and wraps on its way back. *)
Fixpoint elifLoop (elifBranches : list (M bytes * M bytes)) (elseBlock : bytes) : M bytes :=
  match elifBranches with
  | [] => ret elseBlock
  | (condition, body) :: rest =>
      let* elseBlock := elifLoop rest elseBlock in
      let* cond := condition in
      enterScope ;;
      let* elifBranch := body in
      exitScope ;;
      let* is_truthy := call "is_truthy" in
      ret (cond ++ is_truthy ++ Wasm.if_.start Wasm.emptyBlockType
           ++ elifBranch
           ++ Wasm.if_.else_
           ++ elseBlock
           ++ Wasm.if_.end_)
  end.

Definition compileIf (condition thenBody : M bytes)
    (elifBranches : list (M bytes * M bytes)) (elseBody : option (M bytes)) : M bytes :=
  let* cond := condition in
  enterScope ;;
  let* thenBranch := thenBody in
  exitScope ;;
  let* is_truthy := call "is_truthy" in
  let code := cond ++ is_truthy ++ Wasm.if_.start Wasm.emptyBlockType ++ thenBranch in
  let* elseBlock :=
    match elseBody with
    | Some body =>
        enterScope ;;
        let* b := body in
        exitScope ;;
        ret b
    | None => ret []
    end in
  let* elseBlock := elifLoop elifBranches elseBlock in
  ret (code ++ Wasm.if_.else_ ++ elseBlock ++ Wasm.if_.end_).

(** The head of every compiled loop: trap once the counter has reached
    [MAX_ITERATIONS], count one more iteration otherwise. *)
Definition iterationGuard (counterIndex : nat) : bytes :=
  Wasm.local.get counterIndex
  ++ Wasm.i32.const MAX_ITERATIONS
  ++ Wasm.i32.ge_u
  ++ Wasm.if_.start Wasm.emptyBlockType
  ++ Wasm.misc.unreachable
  ++ Wasm.if_.end_
  ++ Wasm.local.get counterIndex
  ++ Wasm.i32.const 1
  ++ Wasm.i32.add
  ++ Wasm.local.set counterIndex.

Definition compileWhile (conditionM bodyM : M bytes) : M bytes :=
  enterScope ;;
  enterScope ;;
  let* body := bodyM in
  exitScope ;;
  let* condition := conditionM in
  exitScope ;;
  let* counterIndex := consumeScratchIndex in
  let* is_truthy := call "is_truthy" in
  ret (Wasm.i32.const 0
       ++ Wasm.local.set counterIndex
       ++ Wasm.block.start
       ++ Wasm.loop.start
       ++ iterationGuard counterIndex
       ++ condition
       ++ is_truthy
       ++ Wasm.i32.eqz
       ++ Wasm.loop.br_if 1
       ++ body
       ++ Wasm.loop.br 0
       ++ Wasm.loop.end_
       ++ Wasm.block.end_).

(** The bit pattern of the double [1]. *)
Definition f64_one : Wasm.f64bits := 0x3FF0000000000000.

Definition compileFor (assignment : M bytes) (identifier : Ident)
    (conditionM : M bytes) (incrementM : option (M bytes)) (bodyM : M bytes) : M bytes :=
  enterScope ;;
  let* init := assignment in
  let* loopVar := getVar (name identifier) in
  match loopVar with
  | None => throwCompilerError (undeclared identifier)
  | Some loopVar =>
      enterScope ;;
      let* cond := conditionM in
      let* step :=
        match incrementM with
        | Some increment => increment
        | None =>
            let* box_number := call "box_number" in
            ret (Wasm.f64.const f64_one ++ box_number)
        end in
      let* loopBody := bodyM in
      exitScope ;;
      exitScope ;;
      let* isDescending := consumeScratchIndex in
      let* counterIndex := consumeScratchIndex in
      let* unbox_number := call "unbox_number" in
      let* box_number := call "box_number" in
      ret (Wasm.i32.const 0
           ++ Wasm.local.set counterIndex
           ++ init
           ++ step
           ++ unbox_number
           ++ Wasm.f64.const 0
           ++ Wasm.f64.lt
           ++ Wasm.local.set isDescending
           ++ Wasm.block.start
           ++ Wasm.loop.start
           ++ iterationGuard counterIndex
           ++ Wasm.local.get isDescending
           ++ Wasm.if_.start (Wasm.valType Wasm.I32)
           ++ Wasm.local.get loopVar
           ++ unbox_number
           ++ cond
           ++ unbox_number
           ++ Wasm.f64.lt
           ++ Wasm.if_.else_
           ++ Wasm.local.get loopVar
           ++ unbox_number
           ++ cond
           ++ unbox_number
           ++ Wasm.f64.gt
           ++ Wasm.if_.end_
           ++ Wasm.loop.br_if 1
           ++ loopBody
           ++ Wasm.local.get loopVar
           ++ unbox_number
           ++ step
           ++ unbox_number
           ++ Wasm.f64.add
           ++ box_number
           ++ Wasm.local.set loopVar
           ++ Wasm.loop.br 0
           ++ Wasm.loop.end_
           ++ Wasm.block.end_)
  end.

Fixpoint declareParams (params : list Ident) : M unit :=
  match params with
  | [] => ret tt
  | param :: rest => declareVar (name param) true ;; declareParams rest
  end.

Section Lowering.

(** [getLocalDecls] of compiler/state.ts is not in the sources, and the
    spec ("the local-declaration prelude grouping count x i32 for every
    slot beyond parameters") does not say how the parameter count is
    known; the prelude is a parameter of the development. *)
Variable getLocalDecls : cstate -> bytes.

(** The bodies of the runtime helpers, which [resetFunctionBodies]
    installs; they are authored in compiler/functions.ts, which is not
    in the sources. *)
Variable helperBodies : gmap string bytes.

Definition compileFunctionDecl (fname : Ident) (params : list Ident)
    (bodyM : M bytes) : M bytes :=
  let* defined := gets (fun st =>
    existsb (fun f => String.eqb (fn_name f) (name fname)) (userDefinedFunctions st)) in
  if defined : bool then
    throwCompilerError
      (mkCompilerError ("Function " +:+ quoted (name fname) +:+ " is already defined")
         (line (loc fname)) (column (loc fname)) (String.length (name fname)))
  else
    let paramTypes := map (fun _ => Wasm.I32) params in
    addUserDefinedFunction (name fname) paramTypes [Wasm.I32] ;;
    let* prevIndex := getLocalVarsIndex in
    setLocalVarsIndex 0 ;;
    let* scopesTmp := gets scopes in
    clearScopes ;;
    declareParams params ;;
    let* code := bodyM in
    let* box_nil := call "box_nil" in
    let bodyBytes := code ++ box_nil ++ Wasm.fn.return_ in
    let* localDecls := gets getLocalDecls in
    setLocalVarsIndex prevIndex ;;
    setScopes scopesTmp ;;
    addFunctionBody (name fname) (localDecls ++ bodyBytes ++ Wasm.control.end_) ;;
    ret [].

Definition compileExpressionStatement (expression : Expression) : M bytes :=
  match expression with
  | FunctionCallExpression callee _ _ =>
      let* code := compileExpression expression in
      let* returns := gets (fun st => getFunctionReturnCount st (name callee)) in
      if (0 <? returns)%nat then ret (code ++ Wasm.misc.drop) else ret code
  | _ =>
      let* code := compileExpression expression in
      ret (code ++ Wasm.misc.drop)
  end.

Fixpoint compileStatement (stmt : Statement) : M bytes :=
  match stmt with
  | PrintlnStatement expression =>
      let* code := compileExpression expression in
      let* println := call "println" in
      ret (code ++ println)
  | PrintStatement expression =>
      let* code := compileExpression expression in
      let* print := call "print" in
      ret (code ++ print)
  | LocalAssignStatement identifier expression =>
      compileAssign true identifier (compileExpression expression)
  | AssignStatement identifier expression =>
      compileAssign false identifier (compileExpression expression)
  | IfStatement condition thenBranch elifBranches elseBranch =>
      compileIf (compileExpression condition)
        (flatMapM compileStatement thenBranch)
        (map (fun elif => (compileExpression (fst elif),
                           flatMapM compileStatement (snd elif))) elifBranches)
        (match elseBranch with
         | Some body => Some (flatMapM compileStatement body)
         | None => None
         end)
  | WhileStatement condition body =>
      compileWhile (compileExpression condition) (flatMapM compileStatement body)
  | ForStatement isLocal identifier init condition increment body =>
      compileFor (compileAssign isLocal identifier (compileExpression init))
        identifier
        (compileExpression condition)
        (match increment with
         | Some e => Some (compileExpression e)
         | None => None
         end)
        (flatMapM compileStatement body)
  | FunctionDeclStatement fname params body =>
      compileFunctionDecl fname params (flatMapM compileStatement body)
  | ReturnStatement expression =>
      let* code := compileExpression expression in
      ret (code ++ Wasm.fn.return_)
  | ExpressionStatement expression =>
      compileExpressionStatement expression
  | OtherStatement _ => throwError "Something went wrong"
  end.

Definition compileStatements (statements : list Statement) : M bytes :=
  flatMapM compileStatement statements.

Definition mainFuncBody (body : list Statement) : M bytes :=
  let* instructions := compileStatements body in
  let* localDecls := gets getLocalDecls in
  ret (localDecls ++ instructions ++ Wasm.control.end_).

(** *** Assembling the module *)

Definition header : bytes := [0x00; 0x61; 0x73; 0x6d; 0x01; 0x00; 0x00; 0x00].

(** Modelled from the spec: [getFunctionTypes] and [getFunctionTypeKey]
    of compiler/functions.ts ("signatures are deduplicated into a type
    section; each function record stores its type index").  The
    signatures of all functions, each once, in order of first use; a
    signature is its own key. *)
Fixpoint dedupTypes (seen : list fntype) (fs : list fnrec) : list fntype :=
  match fs with
  | [] => seen
  | f :: fs' =>
      if bool_decide (fn_type f ∈ seen) then dedupTypes seen fs'
      else dedupTypes (seen ++ [fn_type f]) fs'
  end.

Definition encodeType (t : fntype) : bytes :=
  0x60 :: Wasm.unsignedLEB (N.of_nat (length (fparams t)))
    ++ map Wasm.valType (fparams t)
    ++ Wasm.unsignedLEB (N.of_nat (length (fresults t)))
    ++ map Wasm.valType (fresults t).

Fixpoint typeIndexOf (t : fntype) (ts : list fntype) : option nat :=
  match ts with
  | [] => None
  | t' :: ts' => if bool_decide (t' = t) then Some O else S <$> typeIndexOf t ts'
  end.

Record FunctionTypes := {
  functionTypes : list bytes;
  functionIndices : fntype -> option nat;
}.

Definition getFunctionTypes (st : cstate) : FunctionTypes :=
  let ts := dedupTypes [] (allFunctions st) in
  {| functionTypes := map encodeType ts;
     functionIndices := fun key => typeIndexOf key ts |}.

(** Modelled from the spec: [resetFunctionBodies] leaves a new object
    that holds the bodies of the helpers. *)
Definition resetFunctionBodies : M unit :=
  modify (with_bodies (JsObject.of_map helperBodies)).

(** [fs.flatMap(f => unsignedLEB(typeIndex of f))], which throws when a
    signature has no index. *)
Definition typeIndexBytes (what : string) (types : FunctionTypes) (f : fnrec) : M bytes :=
  match functionIndices types (fn_type f) with
  | None => throwError (what +:+ quoted (fn_name f))
  | Some typeIndex => ret (Wasm.unsignedLEB (N.of_nat typeIndex))
  end.

Definition importEntry (types : FunctionTypes) (imp : fnrec) : M bytes :=
  match functionIndices types (fn_type imp) with
  | None => throwError ("Type not found for import " +:+ quoted (fn_name imp))
  | Some typeIndex =>
      ret (Wasm.encodeBytes (Utf8.encode (js "env"))
           ++ Wasm.encodeBytes (Utf8.encode (js (fn_name imp)))
           ++ [0x00]
           ++ Wasm.unsignedLEB (N.of_nat typeIndex))
  end.

(** One entry of the Code section: [functionBodies[f.name]] behind its
    size.  A falsy value makes the compiler throw; an inherited truthy
    value that is no array cannot be spread. *)
Definition codeEntry (f : fnrec) : M bytes :=
  let* bodies := gets functionBodies in
  match bodies !! fn_name f with
  | Some body => ret (Wasm.unsignedLEB (N.of_nat (length body)) ++ body)
  | None =>
      match JsObject.inherited (fn_name f) bodies with
      | JsObject.Truthy => throwError "TypeError: body is not iterable"
      | _ => throwError ("Function body for " +:+ quoted (fn_name f) +:+ " not found")
      end
  end.

Definition memoryPayload : bytes := [0x01; 0x00; 0x10].

Definition memorySection : bytes := Wasm.emitSection 5 memoryPayload.

Definition globalPayload (stringBytes : bytes) : bytes :=
  [0x01; Wasm.valType Wasm.I32; 0x01]
  ++ Wasm.i32.const (Z.of_nat (length stringBytes) + 1)
  ++ Wasm.control.end_.

Definition globalSection (stringBytes : bytes) : bytes :=
  Wasm.emitSection 6 (globalPayload stringBytes).

Definition dataPayload (stringBytes : bytes) : bytes :=
  [0x01; 0x00]
  ++ Wasm.i32.const 0
  ++ Wasm.control.end_
  ++ Wasm.unsignedLEB (N.of_nat (length stringBytes))
  ++ stringBytes.

Definition dataSection (stringBytes : bytes) : bytes :=
  Wasm.emitSection 11 (dataPayload stringBytes).

Definition _compile (body : list Statement) : M bytes :=
  (* Reset state for each compilation *)
  clearScopes ;;
  setLocalVarsIndex 0 ;;
  clearUserDefinedFunctions ;;
  resetFunctionBodies ;;
  (* Function section *)
  let* mainFunc := mainFuncBody body in
  addFunctionBody "main" mainFunc ;;
  let* types := gets getFunctionTypes in
  let* userFns := gets userDefinedFunctions in
  let* definedIdx :=
    flatMapM (typeIndexBytes "Type not found for function " types) definedFunctions in
  let* userIdx :=
    flatMapM (typeIndexBytes "Type not found for user-defined function " types) userFns in
  let funcSection :=
    Wasm.emitSection 3
      (Wasm.unsignedLEB (N.of_nat (length definedFunctions + length userFns))
       ++ definedIdx ++ userIdx) in
  (* Type section for all functions *)
  let typeSection :=
    Wasm.emitSection 1
      (Wasm.unsignedLEB (N.of_nat (length (functionTypes types)))
       ++ concat (functionTypes types)) in
  (* Import section *)
  let* imports := flatMapM (importEntry types) importFunctions in
  let importSection :=
    Wasm.emitSection 2
      (Wasm.unsignedLEB (N.of_nat (length importFunctions)) ++ imports) in
  (* Export section *)
  let* mainIndex := gets (fun st => func st "main") in
  let exportSection :=
    Wasm.emitSection 7
      (Wasm.unsignedLEB 2
       ++ Wasm.encodeBytes (Utf8.encode (js "main"))
       ++ [0x00]
       ++ Wasm.unsignedLEB (N.of_nat mainIndex)
       ++ Wasm.encodeBytes (Utf8.encode (js "memory"))
       ++ [0x02; 0x00]) in
  (* Code section *)
  let* bodyCount := gets (fun st => length (JsObject.keys (functionBodies st))) in
  let* definedCode := flatMapM codeEntry definedFunctions in
  let* userCode := flatMapM codeEntry userFns in
  let codeSection :=
    Wasm.emitSection 10
      (Wasm.unsignedLEB (N.of_nat bodyCount) ++ definedCode ++ userCode) in
  (* Data section, and the global that holds the heap pointer *)
  let* stringBytes := gets (fun st => StringTable.getBytes (strings st)) in
  ret (header
       ++ typeSection
       ++ importSection
       ++ funcSection
       ++ memorySection
       ++ globalSection stringBytes
       ++ exportSection
       ++ codeSection
       ++ dataSection stringBytes).

(** What [compile] returns. *)
Record CompileResult := {
  result_bytes : bytes;
  error : option CompilerError;
  meta_strings : bytes;
}.

(** [compile] creates a fresh string table and runs [_compile] under a
    [try]; a [CompilerError] is returned, any other exception is only
    logged.  [prev] is the module-level state the previous call left. *)
Definition compile (ast : AST) (prev : cstate) : CompileResult :=
  let st := with_strings StringTable.empty prev in
  match ast with
  | Program body =>
      match _compile body st with
      | (Ok code, st') =>
          {| result_bytes := code; error := None;
             meta_strings := StringTable.getBytes (strings st') |}
      | (CompErr e, st') =>
          {| result_bytes := []; error := Some e;
             meta_strings := StringTable.getBytes (strings st') |}
      | (Throw _, st') =>
          {| result_bytes := []; error := None;
             meta_strings := StringTable.getBytes (strings st') |}
      end
  | AstNull | AstNotProgram _ =>
      (* throw new Error("Invalid AST: Expected a Program node") *)
      {| result_bytes := []; error := None;
         meta_strings := StringTable.getBytes StringTable.empty |}
  end.

End Lowering.

(** ** Reading LEB128 and the section layout back *)

Module Decode.

(** The unsigned LEB128 number at the head of a byte sequence, and what
    follows it. *)
Fixpoint unsignedLEB (bs : bytes) : option (N * bytes) :=
  match bs with
  | [] => None
  | b :: rest =>
      if b <? 128 then Some (Z.to_N b, rest)
      else
        match unsignedLEB rest with
        | Some (n, rest') => Some (Z.to_N (b - 128) + 128 * n, rest')%N
        | None => None
        end
  end.

(** The signed LEB128 number at the head of a byte sequence. *)
Fixpoint signedLEB (bs : bytes) : option (Z * bytes) :=
  match bs with
  | [] => None
  | b :: rest =>
      if b <? 128 then Some (if b <? 64 then b else b - 128, rest)
      else
        match signedLEB rest with
        | Some (n, rest') => Some ((b - 128) + 128 * n, rest')
        | None => None
        end
  end.

(** The sections of a module, as [(id, payload)] pairs, read from what
    follows the 8-byte header: an id byte, the payload size, the
    payload.  [None] when a size is missing or runs past the end. *)
Fixpoint sections_go (fuel : nat) (bs : bytes) : option (list (Z * bytes)) :=
  match fuel, bs with
  | _, [] => Some []
  | O, _ => None
  | S fuel', id :: rest =>
      match unsignedLEB rest with
      | Some (size, rest') =>
          if (N.to_nat size <=? length rest')%nat then
            match sections_go fuel' (drop (N.to_nat size) rest') with
            | Some l => Some ((id, take (N.to_nat size) rest') :: l)
            | None => None
            end
          else None
      | None => None
      end
  end.

Definition sections (module : bytes) : option (list (Z * bytes)) :=
  sections_go (length module) (drop 8 module).

End Decode.

(** The bytes of a list of sections, one after the other. *)
Definition emitSections (l : list (Z * bytes)) : bytes :=
  concat (map (fun s => Wasm.emitSection (fst s) (snd s)) l).

(** The one global a module declares, read back from the payload of its
    Global section: a count of one, the value type, the mutability flag and
    an [i32.const] initialiser. *)
Record GlobalDecl := { g_type : Z; g_mutable : Z; g_init : Z }.

Definition readGlobals (payload : bytes) : option GlobalDecl :=
  match payload with
  | 0x01 :: t :: m :: 0x41 :: rest =>
      match Decode.signedLEB rest with
      | Some (v, [0x0B]) => Some {| g_type := t; g_mutable := m; g_init := v |}
      | _ => None
      end
  | _ => None
  end.

(** The payloads of the sections with a given id. *)
Definition sectionsWithId (id : Z) (sections : list (Z * bytes)) : list bytes :=
  map snd (filter (fun s => fst s = id) sections).

(** The function bodies a module holds, read back from the payload of its
    Code section: the count it declares, and every body that follows, each
    behind its size. *)
Fixpoint bodies_go (fuel : nat) (bs : bytes) : option (list bytes) :=
  match fuel, bs with
  | _, [] => Some []
  | O, _ => None
  | S fuel', _ =>
      match Decode.unsignedLEB bs with
      | Some (size, rest) =>
          if (N.to_nat size <=? length rest)%nat then
            match bodies_go fuel' (drop (N.to_nat size) rest) with
            | Some l => Some (take (N.to_nat size) rest :: l)
            | None => None
            end
          else None
      | None => None
      end
  end.

Definition readCode (payload : bytes) : option (N * list bytes) :=
  match Decode.unsignedLEB payload with
  | Some (count, rest) =>
      match bodies_go (length rest) rest with
      | Some l => Some (count, l)
      | None => None
      end
  | None => None
  end.

(** The bodies in the Code section of a module. *)
Definition codeBodies (module : bytes) : option (N * list bytes) :=
  match Decode.sections module with
  | Some l =>
      match sectionsWithId 10 l with
      | [payload] => readCode payload
      | _ => None
      end
  | None => None
  end.

(** Every interned string lies, with its own bytes, inside the table. *)
Definition StringTable_wf (tbl : StringTable.t) : Prop :=
  forall s off,
    StringTable.offsets tbl !! s = Some off ->
    (off + length (Utf8.encode s) <= length (StringTable.data tbl))%nat
    /\ take (length (Utf8.encode s)) (drop off (StringTable.data tbl)) = Utf8.encode s.

(** The one segment a module's Data section holds, read back from its
    payload: the memory offset it is placed at and its bytes. *)
Definition readData (payload : bytes) : option (Z * bytes) :=
  match payload with
  | 0x01 :: 0x00 :: 0x41 :: rest =>
      match Decode.signedLEB rest with
      | Some (offset, 0x0B :: rest') =>
          match Decode.unsignedLEB rest' with
          | Some (size, data) =>
              if bool_decide (N.to_nat size = length data) then Some (offset, data) else None
          | None => None
          end
      | _ => None
      end
  | _ => None
  end.

(** ** The lexer ([src/lexer.ts]) *)

Module Lexer.

(** Code units of the characters the lexer names. *)
Definition NUL : N := 0.
Definition TAB : N := 9.
Definition LF : N := 10.
Definition CR : N := 13.
Definition SPACE : N := 32.
Definition DQUOTE : N := 34.
Definition PERCENT : N := 37.
Definition SQUOTE : N := 39.
Definition LPAREN : N := 40.
Definition RPAREN : N := 41.
Definition STAR : N := 42.
Definition PLUS : N := 43.
Definition COMMA : N := 44.
Definition MINUS : N := 45.
Definition DOT : N := 46.
Definition SLASH : N := 47.
Definition COLON : N := 58.
Definition LT : N := 60.
Definition EQUALS : N := 61.
Definition GT : N := 62.
Definition BACKSLASH : N := 92.
Definition CARET : N := 94.
Definition UNDERSCORE : N := 95.
Definition LBRACE : N := 123.
Definition RBRACE : N := 125.
Definition TILDE : N := 126.

Record Token := mkToken {
  type : string;
  value : jsstring;
  tline : nat;
  tcolumn : nat;
  tstart : nat;
  tend : nat;
}.

Record TokenError := mkTokenError {
  message : jsstring;
  eline : nat;
  ecolumn : nat;
}.

Record Pos := mkPos { line : nat; column : nat; current : nat }.

Definition between (lo hi c : N) : bool := ((lo <=? c) && (c <=? hi))%N.

Definition isAlpha (char : N) : bool :=
  between 97 122 char || between 65 90 char || (char =? UNDERSCORE)%N.
Definition isDigit (char : N) : bool :=
  between 48 57 char || (char =? DOT)%N.
Definition isAlphaNumeric (char : N) : bool := isAlpha char || isDigit char.
Definition isNewline (char : N) : bool := (char =? LF)%N.
Definition isEndOfFile (char : N) : bool := (char =? NUL)%N.

Definition peek (source : jsstring) (curr : nat) : N := nth curr source NUL.
Definition lookahead (source : jsstring) (curr n : nat) : N :=
  nth (curr + n) source NUL.
Definition match_ (source : jsstring) (curr : nat) (char : N) : bool :=
  (peek source curr =? char)%N.

Definition advance (source : jsstring) (pos : Pos) : Pos :=
  let char := peek source (current pos) in
  if isNewline char
  then mkPos (S (line pos)) 1 (S (current pos))
  else mkPos (line pos) (S (column pos)) (S (current pos)).

(** [ESCAPE_SEQUENCES[ch] ?? ch] for a one-character [ch]. *)
Definition escape (ch : N) : N :=
  if (ch =? 110)%N then LF          (* n *)
  else if (ch =? 116)%N then TAB    (* t *)
  else if (ch =? 114)%N then CR     (* r *)
  else if (ch =? 48)%N then NUL     (* 0 *)
  else ch.                          (* quotes and the backslash map to themselves *)

(** [/[0-9a-fA-F]/] on one code unit. *)
Definition isHex (c : N) : bool :=
  between 48 57 c || between 97 102 c || between 65 70 c.

Definition hexDigit (c : N) : N :=
  if between 48 57 c then c - 48
  else if between 97 102 c then c - 87
  else c - 55.

(** [Number.parseInt(hex, 16)] on a non-empty run of hex digits. *)
Definition parseHex (hex : jsstring) : N :=
  fold_left (fun acc c => 16 * acc + hexDigit c)%N hex 0%N.

(** The longest run of hex digits at the head of a string: the loop
    [while (i < src.length && src[i] !== "}") { if (!hex) break; hex += src[i++] }],
    a closing brace not being a hex digit. *)
Fixpoint hexRun (s : jsstring) : jsstring :=
  match s with
  | c :: rest => if isHex c then c :: hexRun rest else []
  | [] => []
  end.

(** [String.fromCodePoint(c)] for [c <= 0x10FFFF]. *)
Definition fromCodePoint (c : N) : jsstring :=
  if (c <? 0x10000)%N then [c]
  else [0xD800 + N.shiftr (c - 0x10000) 10; 0xDC00 + N.land (c - 0x10000) 0x3FF]%N.

(** What [decodeStringLiteralSegment] does: it returns the decoded text
    and how far to advance, or [String.fromCodePoint] throws a
    [RangeError]. *)
Inductive Segment :=
| Decoded (char : jsstring) (advance : nat)
| InvalidCodePoint (codePoint : N).

(** [start] is the index of the backslash. *)
Definition decodeStringLiteralSegment (src : jsstring) (start : nat) : Segment :=
  match src !! (start + 1)%nat with
  | None =>
      (* [ch] is [undefined]; [value += undefined] appends its name *)
      Decoded (js "undefined") 2
  | Some ch =>
      if (ch =? 117)%N (* u *) then
        if bool_decide (src !! (start + 2)%nat = Some LBRACE) then
          let hex := hexRun (drop (start + 3) src) in
          let i := (start + 3 + length hex)%nat in
          if bool_decide (src !! i = Some RBRACE) && negb (bool_decide (hex = [])) then
            let codePoint := parseHex hex in
            if (codePoint <=? 0x10FFFF)%N
            then Decoded (fromCodePoint codePoint) (i - start + 1)
            else InvalidCodePoint codePoint
          else
            (* Malformed unicode: fallback to raw *)
            Decoded (js "\u{" ++ hex ++ js "}") (i - start)
        else
          let hex := take 4 (drop (start + 2) src) in
          if bool_decide (length hex = 4%nat) && forallb isHex hex
          then Decoded [parseHex hex] 6
          else Decoded (js "\u") 2
      else Decoded [escape ch] 2
  end.

(** What [tokenize] does: it returns [{ tokens, error }], or an
    exception escapes it. *)
Inductive Result :=
| Returned (tokens : list Token) (error : option TokenError)
| Thrown (exn : string)
| OutOfFuel.

(** The inner loops.  Each takes the position and the text read so far and
    gives them back when its condition fails; the number loop can stop on
    an error, the string loop on an exception. *)
Inductive Scan :=
| ScanDone (pos : Pos) (value : jsstring)
| ScanError (pos : Pos)
| ScanThrown (exn : string)
| ScanOutOfFuel.

(** The body of a string literal, up to the closing quote or the end. *)
Fixpoint scanString (fuel : nat) (src : jsstring) (quote : N) (pos : Pos)
    (value : jsstring) : Scan :=
  match fuel with
  | O => ScanOutOfFuel
  | S fuel' =>
      if negb (isEndOfFile (peek src (current pos)))
         && negb (match_ src (current pos) quote)
      then
        let char := peek src (current pos) in
        if (char =? BACKSLASH)%N then
          match decodeStringLiteralSegment src (current pos) with
          | Decoded decoded adv =>
              scanString fuel' src quote (Nat.iter adv (advance src) pos)
                (value ++ decoded)
          | InvalidCodePoint c => ScanThrown "RangeError: Invalid code point"
          end
        else scanString fuel' src quote (advance src pos) (value ++ [char])
      else ScanDone pos value
  end.

(** A comment, up to the end of the line. *)
Fixpoint scanComment (fuel : nat) (src : jsstring) (pos : Pos) (value : jsstring) : Scan :=
  match fuel with
  | O => ScanOutOfFuel
  | S fuel' =>
      if negb (isEndOfFile (peek src (current pos)))
         && negb (match_ src (current pos) LF)
      then scanComment fuel' src (advance src pos) (value ++ [peek src (current pos)])
      else ScanDone pos value
  end.

(** A number; a dot that no digit follows is an error. *)
Fixpoint scanNumber (fuel : nat) (src : jsstring) (pos : Pos) (value : jsstring) : Scan :=
  match fuel with
  | O => ScanOutOfFuel
  | S fuel' =>
      if negb (isEndOfFile (peek src (current pos)))
         && (isDigit (peek src (current pos)) || match_ src (current pos) DOT)
      then
        let decimal := match_ src (current pos) DOT in
        if decimal && negb (isDigit (lookahead src (current pos) 1))
        then ScanError pos
        else scanNumber fuel' src (advance src pos) (value ++ [peek src (current pos)])
      else ScanDone pos value
  end.

(** An identifier or keyword. *)
Fixpoint scanWord (fuel : nat) (src : jsstring) (pos : Pos) (value : jsstring) : Scan :=
  match fuel with
  | O => ScanOutOfFuel
  | S fuel' =>
      if negb (isEndOfFile (peek src (current pos)))
         && isAlphaNumeric (peek src (current pos))
      then scanWord fuel' src (advance src pos) (value ++ [peek src (current pos)])
      else ScanDone pos value
  end.

(** [addToken] with its defaults taken from the current position. *)
Definition eofToken (pos : Pos) : Token :=
  mkToken "EOF" [] (line pos) (column pos) (current pos - 0) (current pos).

(** [addToken] with [start] and [column] given. *)
Definition token (type : string) (value : jsstring) (pos : Pos)
    (start column : nat) : Token :=
  mkToken type value (line pos) column start (current pos).

Definition unexpected (ch : N) (pos : Pos) : TokenError :=
  mkTokenError (js "Unexpected character '" ++ [ch] ++ js "'") (line pos) (column pos).

Definition isOneOf (chars : list N) (ch : N) : bool :=
  existsb (N.eqb ch) chars.

Section Tokenize.

(** [tokenTypes] and [keywords] of tokens.ts, which is not in the
    sources: the token type of a punctuation string, and the token type
    of a keyword. *)
Variable tokenTypes : jsstring -> string.
Variable keywords : jsstring -> option string.

(** One turn of the [while] loop of [tokenize], and the turns after it. *)
Fixpoint tokenizeLoop (fuel : nat) (src : jsstring) (pos : Pos)
    (tokens : list Token) : Result :=
  match fuel with
  | O => OutOfFuel
  | S fuel' =>
      if isEndOfFile (peek src (current pos))
      then Returned (tokens ++ [eofToken pos]) None
      else
        let ch := peek src (current pos) in
        let start := current pos in
        let column := column pos in
        if isOneOf [SPACE; TAB; CR; LF] ch then
          tokenizeLoop fuel' src (advance src pos) tokens
        else if isOneOf [LPAREN; RPAREN; COMMA; PLUS; STAR; CARET; SLASH; PERCENT] ch then
          let pos := advance src pos in
          tokenizeLoop fuel' src pos
            (tokens ++ [token (tokenTypes [ch]) [ch] pos start column])
        else if isOneOf [SQUOTE; DQUOTE] ch then
          let quotePos := pos in
          match scanString (S (length src)) src ch (advance src pos) [] with
          | ScanDone pos value =>
              if isEndOfFile (peek src (current pos)) then
                Returned (tokens ++ [eofToken pos])
                  (Some (mkTokenError (js "Unterminated string literal at line")
                           (line quotePos) (Lexer.column quotePos)))
              else
                let pos := advance src pos in
                tokenizeLoop fuel' src pos
                  (tokens ++ [token "STRING" value pos start column])
          | ScanThrown exn => Thrown exn
          | ScanError _ | ScanOutOfFuel => OutOfFuel
          end
        else if isOneOf [GT; LT] ch then
          if (lookahead src (current pos) 1 =? EQUALS)%N then
            let pos := advance src (advance src pos) in
            tokenizeLoop fuel' src pos
              (tokens ++ [token (tokenTypes [ch; EQUALS]) [ch; EQUALS] pos start column])
          else
            let pos := advance src pos in
            tokenizeLoop fuel' src pos
              (tokens ++ [token (tokenTypes [ch]) [ch] pos start column])
        else if isOneOf [TILDE; COLON; EQUALS] ch then
          if (ch =? TILDE)%N && negb (lookahead src (current pos) 1 =? EQUALS)%N then
            let pos := advance src pos in
            tokenizeLoop fuel' src pos
              (tokens ++ [token (tokenTypes [ch]) [ch] pos start column])
          else if negb (lookahead src (current pos) 1 =? EQUALS)%N then
            Returned (tokens ++ [eofToken pos]) (Some (unexpected ch pos))
          else
            let pos := advance src (advance src pos) in
            tokenizeLoop fuel' src pos
              (tokens ++ [token (tokenTypes [ch; EQUALS]) [ch; EQUALS] pos start column])
        else if (ch =? MINUS)%N then
          if negb (lookahead src (current pos) 1 =? MINUS)%N then
            let pos := advance src pos in
            tokenizeLoop fuel' src pos
              (tokens ++ [token "MINUS" [ch] pos start column])
          else
            match scanComment (S (length src)) src pos [] with
            | ScanDone pos value =>
                tokenizeLoop fuel' src pos
                  (tokens ++ [token "COMMENT" value pos start column])
            | ScanThrown exn => Thrown exn
            | ScanError _ | ScanOutOfFuel => OutOfFuel
            end
        else if isDigit ch then
          match scanNumber (S (length src)) src pos [] with
          | ScanDone pos value =>
              tokenizeLoop fuel' src pos
                (tokens ++ [token "NUMBER" value pos start column])
          | ScanError pos =>
              Returned (tokens ++ [eofToken pos])
                (Some (mkTokenError (js "Unexpected character '.' in number")
                         (line pos) (Lexer.column pos)))
          | ScanThrown exn => Thrown exn
          | ScanOutOfFuel => OutOfFuel
          end
        else if isAlpha ch then
          match scanWord (S (length src)) src pos [] with
          | ScanDone pos value =>
              let type := default "IDENTIFIER"%string (keywords value) in
              tokenizeLoop fuel' src pos
                (tokens ++ [token type value pos start column])
          | ScanThrown exn => Thrown exn
          | ScanError _ | ScanOutOfFuel => OutOfFuel
          end
        else
          Returned (tokens ++ [eofToken pos]) (Some (unexpected ch pos))
  end.

Definition tokenize (src : jsstring) : Result :=
  tokenizeLoop (S (length src)) src (mkPos 1 1 0) [].

End Tokenize.

End Lexer.

(** ** Structured instructions

    The compiler emits flat bytes.  To say what the emitted code is and
    does, the bytes are read as WASM's structured instructions: [encodes]
    writes a sequence of instructions as bytes with the encoders above,
    and [decodes] reads the bytes back. *)

Inductive instr :=
| Unreachable
| Block (blockType : Z) (body : list instr)
| Loop (blockType : Z) (body : list instr)
| If (blockType : Z) (thenBody : list instr) (elseBody : option (list instr))
| Br (depth : nat)
| BrIf (depth : nat)
| Return
| Call (index : nat)
| Drop
| LocalGet (index : nat)
| LocalSet (index : nat)
| I32Const (n : Z)
| F64Const (x : Wasm.f64bits)
| Numeric (opcode : Z)
| Tick.

(** [Numeric] stands for the one-byte numeric instructions of the opcode
    table (spec 6.3).  [Tick] is a ghost instruction: it has no bytes and
    only counts how often control passes it. *)
Definition isNumericOpcode (op : Z) : bool :=
  bool_decide (op ∈ [0x45; 0x4F; 0x6A; 0x72; 0x61; 0x62; 0x63; 0x64; 0x65; 0x66;
                     0x9A; 0xA0; 0xA1; 0xA2; 0xA3]).

Fixpoint encode (i : instr) : bytes :=
  match i with
  | Unreachable => Wasm.misc.unreachable
  | Block bt body => [0x02; bt] ++ concat (map encode body) ++ Wasm.block.end_
  | Loop bt body => [0x03; bt] ++ concat (map encode body) ++ Wasm.loop.end_
  | If bt thenBody elseBody =>
      Wasm.if_.start bt ++ concat (map encode thenBody)
      ++ match elseBody with
         | Some body => Wasm.if_.else_ ++ concat (map encode body)
         | None => []
         end
      ++ Wasm.if_.end_
  | Br depth => Wasm.loop.br depth
  | BrIf depth => Wasm.loop.br_if depth
  | Return => Wasm.fn.return_
  | Call index => Wasm.fn.call index
  | Drop => Wasm.misc.drop
  | LocalGet index => Wasm.local.get index
  | LocalSet index => Wasm.local.set index
  | I32Const n => Wasm.i32.const n
  | F64Const x => Wasm.f64.const x
  | Numeric opcode => [opcode]
  | Tick => []
  end.

Definition encodes (code : list instr) : bytes := concat (map encode code).

(** How a sequence of instructions read from bytes ended. *)
Inductive terminator := AtEnd | AtElse | AtEof.

Definition f64_of_le_bytes (bs : bytes) : Wasm.f64bits :=
  fold_right (fun b acc => b + 256 * acc) 0 bs.

(** Reads instructions up to the [end] or [else] that closes the current
    block, or up to the end of the bytes. *)
Fixpoint decode_seq (fuel : nat) (bs : bytes) : option (list instr * terminator * bytes) :=
  match fuel with
  | O => None
  | S fuel' =>
      let next (i : instr) (rest : bytes) :=
        match decode_seq fuel' rest with
        | Some (code, t, rest') => Some (i :: code, t, rest')
        | None => None
        end in
      match bs with
      | [] => Some ([], AtEof, [])
      | 0x0B :: rest => Some ([], AtEnd, rest)
      | 0x05 :: rest => Some ([], AtElse, rest)
      | 0x00 :: rest => next Unreachable rest
      | 0x02 :: bt :: rest =>
          match decode_seq fuel' rest with
          | Some (body, AtEnd, rest') => next (Block bt body) rest'
          | _ => None
          end
      | 0x03 :: bt :: rest =>
          match decode_seq fuel' rest with
          | Some (body, AtEnd, rest') => next (Loop bt body) rest'
          | _ => None
          end
      | 0x04 :: bt :: rest =>
          match decode_seq fuel' rest with
          | Some (thenBody, AtEnd, rest') => next (If bt thenBody None) rest'
          | Some (thenBody, AtElse, rest') =>
              match decode_seq fuel' rest' with
              | Some (elseBody, AtEnd, rest'') => next (If bt thenBody (Some elseBody)) rest''
              | _ => None
              end
          | _ => None
          end
      | 0x0C :: rest =>
          match Decode.unsignedLEB rest with
          | Some (n, rest') => next (Br (N.to_nat n)) rest'
          | None => None
          end
      | 0x0D :: rest =>
          match Decode.unsignedLEB rest with
          | Some (n, rest') => next (BrIf (N.to_nat n)) rest'
          | None => None
          end
      | 0x0F :: rest => next Return rest
      | 0x10 :: rest =>
          match Decode.unsignedLEB rest with
          | Some (n, rest') => next (Call (N.to_nat n)) rest'
          | None => None
          end
      | 0x1A :: rest => next Drop rest
      | 0x20 :: rest =>
          match Decode.unsignedLEB rest with
          | Some (n, rest') => next (LocalGet (N.to_nat n)) rest'
          | None => None
          end
      | 0x21 :: rest =>
          match Decode.unsignedLEB rest with
          | Some (n, rest') => next (LocalSet (N.to_nat n)) rest'
          | None => None
          end
      | 0x41 :: rest =>
          match Decode.signedLEB rest with
          | Some (n, rest') => next (I32Const n) rest'
          | None => None
          end
      | 0x44 :: rest =>
          if (8 <=? length rest)%nat
          then next (F64Const (f64_of_le_bytes (take 8 rest))) (drop 8 rest)
          else None
      | op :: rest =>
          if isNumericOpcode op then next (Numeric op) rest else None
      end
  end.

(** The instructions of a whole sequence of bytes. *)
Definition decodes (bs : bytes) : option (list instr) :=
  match decode_seq (S (length bs)) bs with
  | Some (code, AtEof, _) => Some code
  | _ => None
  end.

(** Every [local.get] and [local.set] of the code names a slot below [n]. *)
Fixpoint locals_below (n : nat) (i : instr) : bool :=
  match i with
  | Block _ body | Loop _ body => forallb (locals_below n) body
  | If _ thenBody elseBody =>
      forallb (locals_below n) thenBody
      && match elseBody with
         | Some body => forallb (locals_below n) body
         | None => true
         end
  | LocalGet index | LocalSet index => (index <? n)%nat
  | _ => true
  end.

(** The code holds no ghost instruction, as all code read from bytes. *)
Fixpoint tick_free (i : instr) : bool :=
  match i with
  | Block _ body | Loop _ body => forallb tick_free body
  | If _ thenBody elseBody =>
      forallb tick_free thenBody
      && match elseBody with
         | Some body => forallb tick_free body
         | None => true
         end
  | Tick => false
  | _ => true
  end.

(** Code that reads back from its bytes as itself: it holds no ghost
    instruction, every [Numeric] is a numeric instruction of the opcode
    table, and every double is a 64-bit pattern. *)
Fixpoint readable (i : instr) : bool :=
  match i with
  | Block _ body | Loop _ body => forallb readable body
  | If _ thenBody elseBody =>
      forallb readable thenBody
      && match elseBody with
         | Some body => forallb readable body
         | None => true
         end
  | F64Const x => (0 <=? x) && (x <? 2 ^ 64)
  | Numeric opcode => isNumericOpcode opcode
  | Tick => false
  | _ => true
  end.

(** The instructions are what their bytes read back as: no other
    sequence of instructions is the reading of these bytes. *)
Definition decoded (ins : list instr) : Prop := decodes (encodes ins) = Some ins.

(** The 64-bit pattern the encoder keeps of a number. *)
Definition wrap64 (x : Z) : Wasm.f64bits := x mod 2 ^ 64.

(** *** The shapes the lowering emits *)

(** [call f] for a function of the catalogue, whose index no user
    definition changes. *)
Definition catalogueState : cstate := mkState [] 0 [] ∅ StringTable.empty.
Definition helper (x : string) : nat := func catalogueState x.

(** The head of a compiled loop. *)
Definition iterationGuardCode (counterIndex : nat) : list instr :=
  [ LocalGet counterIndex; I32Const MAX_ITERATIONS; Numeric 0x4F;
    If Wasm.emptyBlockType [Unreachable] None;
    LocalGet counterIndex; I32Const 1; Numeric 0x6A; LocalSet counterIndex ].

(** A compiled [while]: [condition] and [body] are the code of the
    condition and of the body. *)
Definition whileCode (counterIndex : nat) (condition body : list instr) : list instr :=
  [ I32Const 0; LocalSet counterIndex;
    Block Wasm.emptyBlockType
      [ Loop Wasm.emptyBlockType
          (iterationGuardCode counterIndex
           ++ condition
           ++ [Call (helper "is_truthy"); Numeric 0x45; BrIf 1]
           ++ body
           ++ [Br 0]) ] ].

(** A compiled numeric [for]. *)
Definition forCode (counterIndex isDescending loopVar : nat)
    (init cond step loopBody : list instr) : list instr :=
  [ I32Const 0; LocalSet counterIndex ]
  ++ init
  ++ step
  ++ [ Call (helper "unbox_number"); F64Const 0; Numeric 0x63; LocalSet isDescending;
       Block Wasm.emptyBlockType
         [ Loop Wasm.emptyBlockType
             (iterationGuardCode counterIndex
              ++ [ LocalGet isDescending;
                   If (Wasm.valType Wasm.I32)
                     ([LocalGet loopVar; Call (helper "unbox_number")]
                      ++ cond ++ [Call (helper "unbox_number"); Numeric 0x63])
                     (Some ([LocalGet loopVar; Call (helper "unbox_number")]
                            ++ cond ++ [Call (helper "unbox_number"); Numeric 0x64]));
                   BrIf 1 ]
              ++ loopBody
              ++ [ LocalGet loopVar; Call (helper "unbox_number") ]
              ++ step
              ++ [ Call (helper "unbox_number"); Numeric 0xA0;
                   Call (helper "box_number"); LocalSet loopVar; Br 0 ]) ] ].

(** The body of a capped loop with the entry of the statement's body
    marked: the guard, code [q1] up to the entry, the ghost tick, and code
    [q2] after it. *)
Definition guardedBody (counterIndex : nat) (q1 q2 : list instr) : list instr :=
  iterationGuardCode counterIndex ++ q1 ++ [Tick] ++ q2.

(** A capped loop: the counter set to 0, code [pre] run once, and the
    loop. *)
Definition cappedLoop (counterIndex : nat) (pre q1 q2 : list instr) : list instr :=
  [I32Const 0; LocalSet counterIndex]
  ++ pre
  ++ [Block Wasm.emptyBlockType
        [Loop Wasm.emptyBlockType (guardedBody counterIndex q1 q2)]].

(** The code of a [while] and of a [for] with the ghost tick at the entry
    of the statement's body, and what the tick is taken out by. *)
Definition tickedWhileCode (counterIndex : nat) (condition body : list instr) : list instr :=
  [ I32Const 0; LocalSet counterIndex;
    Block Wasm.emptyBlockType
      [ Loop Wasm.emptyBlockType
          (iterationGuardCode counterIndex
           ++ condition
           ++ [Call (helper "is_truthy"); Numeric 0x45; BrIf 1]
           ++ [Tick]
           ++ body
           ++ [Br 0]) ] ].

Definition tickedForCode (counterIndex isDescending loopVar : nat)
    (init cond step loopBody : list instr) : list instr :=
  [ I32Const 0; LocalSet counterIndex ]
  ++ init
  ++ step
  ++ [ Call (helper "unbox_number"); F64Const 0; Numeric 0x63; LocalSet isDescending;
       Block Wasm.emptyBlockType
         [ Loop Wasm.emptyBlockType
             (iterationGuardCode counterIndex
              ++ [ LocalGet isDescending;
                   If (Wasm.valType Wasm.I32)
                     ([LocalGet loopVar; Call (helper "unbox_number")]
                      ++ cond ++ [Call (helper "unbox_number"); Numeric 0x63])
                     (Some ([LocalGet loopVar; Call (helper "unbox_number")]
                            ++ cond ++ [Call (helper "unbox_number"); Numeric 0x64]));
                   BrIf 1 ]
              ++ [Tick]
              ++ loopBody
              ++ [ LocalGet loopVar; Call (helper "unbox_number") ]
              ++ step
              ++ [ Call (helper "unbox_number"); Numeric 0xA0;
                   Call (helper "box_number"); LocalSet loopVar; Br 0 ]) ] ].

Fixpoint untick (i : instr) : list instr :=
  match i with
  | Block bt body => [Block bt (concat (map untick body))]
  | Loop bt body => [Loop bt (concat (map untick body))]
  | If bt thenBody elseBody =>
      [If bt (concat (map untick thenBody))
          match elseBody with
          | Some body => Some (concat (map untick body))
          | None => None
          end]
  | Tick => []
  | _ => [i]
  end.

Definition unticks (code : list instr) : list instr := concat (map untick code).

(** The default step of a [for]: a boxed [1]. *)
Definition defaultStep : list instr := [F64Const f64_one; Call (helper "box_number")].

(** A compiled [+]. *)
Definition plusCode (l r : list instr) : list instr :=
  l ++ [Call (helper "is_string")] ++ r ++ [Call (helper "is_string"); Numeric 0x72;
  If (Wasm.valType Wasm.I32)
    (l ++ r ++ [Call (helper "concat")])
    (Some
       (l ++ [Call (helper "is_bool")] ++ r ++ [Call (helper "is_bool"); Numeric 0x72;
        If (Wasm.valType Wasm.I32)
          (l ++ [Call (helper "to_number"); Call (helper "unbox_number")]
           ++ r ++ [Call (helper "to_number"); Call (helper "unbox_number");
                    Numeric 0xA0; Call (helper "box_number")])
          (Some
             (l ++ [Call (helper "unbox_number")]
              ++ r ++ [Call (helper "unbox_number");
                       Numeric 0xA0; Call (helper "box_number")]))]))].

(** A compiled [and] and a compiled [or]. *)
Definition andCode (scratch : nat) (l r : list instr) : list instr :=
  l ++ [ LocalSet scratch; LocalGet scratch; Call (helper "is_truthy");
         If (Wasm.valType Wasm.I32) r (Some [LocalGet scratch]) ].

Definition orCode (scratch : nat) (l r : list instr) : list instr :=
  l ++ [ LocalSet scratch; LocalGet scratch; Call (helper "is_truthy");
         If (Wasm.valType Wasm.I32) [LocalGet scratch] (Some r) ].

(** The chain of nested ifs the elif branches become: each branch is an
    [if] in the else arm of the branch before it, the else block is the
    else arm of the last. *)
Fixpoint elifChain (elifs : list (list instr * list instr)) (elseBlock : list instr)
    : list instr :=
  match elifs with
  | [] => elseBlock
  | (cond, body) :: rest =>
      cond ++ [ Call (helper "is_truthy");
                If Wasm.emptyBlockType body (Some (elifChain rest elseBlock)) ]
  end.

Definition ifCode (cond thenBranch : list instr)
    (elifs : list (list instr * list instr)) (elseBlock : list instr) : list instr :=
  cond ++ [ Call (helper "is_truthy");
            If Wasm.emptyBlockType thenBranch (Some (elifChain elifs elseBlock)) ].

(** The instructions of a user-defined function, after its local
    declarations and before the closing [end]. *)
Definition functionCode (body : list instr) : list instr :=
  body ++ [Call (helper "box_nil"); Return].

(** ** Running the emitted code

    A definitional interpreter for structured code.  Values on the
    operand stack are [i32]s or doubles; every local is an [i32]. *)

Module Run.

Inductive val := VI32 (n : Z) | VF64 (x : Wasm.f64bits).

(** Modelled from the spec: a boxed value (spec 3), by its tag and
    payload. *)
Inductive boxed :=
| BNil
| BBool (b : Z)
| BNumber (x : Wasm.f64bits)
| BString (offset length : Z).

(** The bytes a box takes: the tag and the payload. *)
Definition boxSize (v : boxed) : Z :=
  match v with BNil => 1 | BBool _ => 2 | BNumber _ => 9 | BString _ _ => 9 end.

(** What a run can change outside the frame: the boxes in linear memory,
    the heap-pointer global, what the host was asked to print (latest
    first), and the ghost counter. *)
Record store := mkStore {
  heap : gmap Z boxed;
  heap_ptr : Z;
  output : list (string * boxed);
  ticks : nat;
}.

Record config := mkConfig {
  locals : gmap nat Z;
  stack : list val;
  sto : store;
}.

Definition with_stack (s : list val) (c : config) : config :=
  mkConfig (locals c) s (sto c).
Definition with_store (s : store) (c : config) : config :=
  mkConfig (locals c) (stack c) s.
Definition push (v : val) (c : config) : config := with_stack (v :: stack c) c.
Definition set_local (i : nat) (n : Z) (c : config) : config :=
  mkConfig (<[i := n]> (locals c)) (stack c) (sto c).
Definition get_local (i : nat) (c : config) : Z := default 0 (locals c !! i).
Definition tick (c : config) : config :=
  with_store (mkStore (heap (sto c)) (heap_ptr (sto c)) (output (sto c)) (S (ticks (sto c)))) c.

(** How the execution of a sequence of instructions ends. *)
Inductive outcome :=
| Normal (c : config)
| Branch (depth : nat) (c : config)
| Returned (c : config)
| Trapped (c : config)
| Stuck (c : config)
| OutOfFuel (c : config).

Definition final (o : outcome) : config :=
  match o with
  | Normal c | Branch _ c | Returned c | Trapped c | Stuck c | OutOfFuel c => c
  end.

Definition wrap32 (n : Z) : Z := n mod 2 ^ 32.

(** The number of values a block of the given type leaves. *)
Definition arity (blockType : Z) : nat :=
  if blockType =? Wasm.emptyBlockType then 0 else 1.

(** Modelled from the spec: allocation by bumping the heap pointer. *)
Definition alloc (v : boxed) (s : store) : Z * store :=
  (heap_ptr s,
   mkStore (<[heap_ptr s := v]> (heap s)) (heap_ptr s + boxSize v) (output s) (ticks s)).

Definition tagIs (p : Z) (test : boxed -> bool) (s : store) : option (list val * store) :=
  match heap s !! p with
  | Some v => Some ([VI32 (if test v then 1 else 0)], s)
  | None => None
  end.

Definition truthy (v : boxed) : bool :=
  match v with
  | BNil => false
  | BBool b => negb (b =? 0)
  | _ => true
  end.

Definition isString (v : boxed) : bool :=
  match v with BString _ _ => true | _ => false end.

Definition isBool (v : boxed) : bool :=
  match v with BBool _ => true | _ => false end.

Section Semantics.

(** The f64 instructions, and the helpers whose results depend on number
    formatting and parsing ([to_number], [concat], [mod], [math_pow]), are
    left to these parameters; [None] means the instruction is stuck. *)
Variable f64op : Z -> list val -> option (list val).
Variable numberHelper : string -> list val -> store -> option (list val * store).

(** Modelled from the spec: what the runtime helpers and the imports do
    (the table of spec 4.C and the host contract of 6.4).  The arguments
    come in declaration order. *)
Definition callHelper (x : string) (args : list val) (s : store)
    : option (list val * store) :=
  if String.eqb x "box_nil" then
    match args with
    | [] => let '(p, s') := alloc BNil s in Some ([VI32 p], s')
    | _ => None
    end
  else if String.eqb x "box_bool" then
    match args with
    | [VI32 b] => let '(p, s') := alloc (BBool b) s in Some ([VI32 p], s')
    | _ => None
    end
  else if String.eqb x "box_number" then
    match args with
    | [VF64 n] => let '(p, s') := alloc (BNumber n) s in Some ([VI32 p], s')
    | _ => None
    end
  else if String.eqb x "box_string" then
    match args with
    | [VI32 offset; VI32 len] =>
        let '(p, s') := alloc (BString offset len) s in Some ([VI32 p], s')
    | _ => None
    end
  else if String.eqb x "unbox_number" then
    match args with
    | [VI32 p] =>
        match heap s !! p with
        | Some (BNumber n) => Some ([VF64 n], s)
        | _ => None
        end
    | _ => None
    end
  else if String.eqb x "is_string" then
    match args with
    | [VI32 p] => tagIs p isString s
    | _ => None
    end
  else if String.eqb x "is_bool" then
    match args with
    | [VI32 p] => tagIs p isBool s
    | _ => None
    end
  else if String.eqb x "is_number" then
    match args with
    | [VI32 p] => tagIs p (fun v => match v with BNumber _ => true | _ => false end) s
    | _ => None
    end
  else if String.eqb x "is_nil" then
    match args with
    | [VI32 p] => tagIs p (fun v => match v with BNil => true | _ => false end) s
    | _ => None
    end
  else if String.eqb x "is_truthy" then
    match args with
    | [VI32 p] => tagIs p truthy s
    | _ => None
    end
  else if String.eqb x "print" || String.eqb x "println" then
    match args with
    | [VI32 p] =>
        match heap s !! p with
        | Some v => Some ([], mkStore (heap s) (heap_ptr s) ((x, v) :: output s) (ticks s))
        | None => None
        end
    | _ => None
    end
  else numberHelper x args s.

(** A function with a body: [main] and the user-defined functions. *)
Record fundef := { f_params : nat; f_results : nat; f_code : list instr }.

Variable functions : nat -> option fundef.

(** The one-byte numeric instructions on [i32]; the others are [f64op]'s. *)
Definition numeric (opcode : Z) (s : list val) : option (list val) :=
  if opcode =? 0x45 then            (* i32.eqz *)
    match s with
    | VI32 a :: s' => Some (VI32 (if a =? 0 then 1 else 0) :: s')
    | _ => None
    end
  else if opcode =? 0x6A then       (* i32.add *)
    match s with
    | VI32 b :: VI32 a :: s' => Some (VI32 (wrap32 (a + b)) :: s')
    | _ => None
    end
  else if opcode =? 0x4F then       (* i32.ge_u *)
    match s with
    | VI32 b :: VI32 a :: s' => Some (VI32 (if b <=? a then 1 else 0) :: s')
    | _ => None
    end
  else if opcode =? 0x72 then       (* i32.or *)
    match s with
    | VI32 b :: VI32 a :: s' => Some (VI32 (Z.lor a b) :: s')
    | _ => None
    end
  else f64op opcode s.

(** The arguments of a call: the top [n] values, the last pushed last. *)
Definition popArgs (n : nat) (s : list val) : option (list val * list val) :=
  if (n <=? length s)%nat then Some (rev (take n s), drop n s) else None.

Definition argLocals (args : list val) : option (gmap nat Z) :=
  foldr (fun a acc =>
           match a, acc with
           | (i, VI32 n), Some m => Some (<[i := n]> m)
           | _, _ => None
           end) (Some ∅) (zip (seq 0 (length args)) args).

(** Leaving a block: its results go on top of the stack the block was
    entered with. *)
Definition leave (blockType : Z) (outer : list val) (c : config) : config :=
  with_stack (take (arity blockType) (stack c) ++ outer) c.

(** [exec fuel code c] runs [code] from [c]; every instruction takes one
    unit of fuel. *)
Fixpoint exec (fuel : nat) (code : list instr) (c : config) : outcome :=
  match fuel with
  | O => OutOfFuel c
  | S fuel' =>
      match code with
      | [] => Normal c
      | i :: rest =>
          match i with
          | Unreachable => Trapped c
          | Block bt body =>
              match exec fuel' body (with_stack [] c) with
              | Normal c' | Branch O c' => exec fuel' rest (leave bt (stack c) c')
              | Branch (S d) c' => Branch d c'
              | o => o
              end
          | Loop bt body =>
              match exec fuel' body (with_stack [] c) with
              | Normal c' => exec fuel' rest (leave bt (stack c) c')
              | Branch O c' => exec fuel' (Loop bt body :: rest) (with_stack (stack c) c')
              | Branch (S d) c' => Branch d c'
              | o => o
              end
          | If bt thenBody elseBody =>
              match stack c with
              | VI32 n :: s =>
                  let body := if n =? 0 then default [] elseBody else thenBody in
                  match exec fuel' body (with_stack [] c) with
                  | Normal c' | Branch O c' => exec fuel' rest (leave bt s c')
                  | Branch (S d) c' => Branch d c'
                  | o => o
                  end
              | _ => Stuck c
              end
          | Br depth => Branch depth c
          | BrIf depth =>
              match stack c with
              | VI32 n :: s =>
                  if n =? 0 then exec fuel' rest (with_stack s c)
                  else Branch depth (with_stack s c)
              | _ => Stuck c
              end
          | Return => Returned c
          | Call index =>
              match (importFunctions ++ definedFunctions) !! index, functions index with
              | _, Some f =>
                  match popArgs (f_params f) (stack c) with
                  | Some (args, s) =>
                      match argLocals args with
                      | Some frame =>
                          match exec fuel' (f_code f) (mkConfig frame [] (sto c)) with
                          | Normal c' | Returned c' =>
                              exec fuel' rest
                                (mkConfig (locals c) (take (f_results f) (stack c') ++ s) (sto c'))
                          | Branch _ c' => Stuck (with_store (sto c') c)
                          | Trapped c' => Trapped (with_store (sto c') c)
                          | Stuck c' => Stuck (with_store (sto c') c)
                          | OutOfFuel c' => OutOfFuel (with_store (sto c') c)
                          end
                      | None => Stuck c
                      end
                  | None => Stuck c
                  end
              | Some f, None =>
                  match popArgs (length (fparams (fn_type f))) (stack c) with
                  | Some (args, s) =>
                      match callHelper (fn_name f) args (sto c) with
                      | Some (results, s') =>
                          exec fuel' rest (mkConfig (locals c) (results ++ s) s')
                      | None => Stuck c
                      end
                  | None => Stuck c
                  end
              | None, None => Stuck c
              end
          | Drop =>
              match stack c with
              | _ :: s => exec fuel' rest (with_stack s c)
              | [] => Stuck c
              end
          | LocalGet index => exec fuel' rest (push (VI32 (get_local index c)) c)
          | LocalSet index =>
              match stack c with
              | VI32 n :: s => exec fuel' rest (set_local index n (with_stack s c))
              | _ => Stuck c
              end
          | I32Const n => exec fuel' rest (push (VI32 (wrap32 n)) c)
          | F64Const x => exec fuel' rest (push (VF64 x) c)
          | Numeric opcode =>
              match numeric opcode (stack c) with
              | Some s => exec fuel' rest (with_stack s c)
              | None => Stuck c
              end
          | Tick => exec fuel' rest (tick c)
          end
      end
  end.

(** How a block ends, from how its body ended: its results go on top of
    the stack it was entered with, a branch to the block ends it, and a
    branch further out goes on. *)
Definition afterBlock (blockType : Z) (outer : list val) (o : outcome) : outcome :=
  match o with
  | Normal c' | Branch O c' => Normal (leave blockType outer c')
  | Branch (S d) c' => Branch d c'
  | o => o
  end.

(** A run has ended when it did not run out of fuel. *)
Definition ended (o : outcome) : bool :=
  match o with OutOfFuel _ => false | _ => true end.

(** [code] runs from [c] to [o]. *)
Definition runs (code : list instr) (c : config) (o : outcome) : Prop :=
  exists fuel, exec fuel code c = o /\ ended o = true.

End Semantics.

(** The state a module starts in: its string table in memory, the heap
    pointer past it (the initial value of the global), nothing printed. *)
Definition initialStore (stringBytes : bytes) : store :=
  mkStore ∅ (Z.of_nat (length stringBytes) + 1) [] 0.

Definition initialConfig (stringBytes : bytes) : config :=
  mkConfig ∅ [] (initialStore stringBytes).

(** Instances of the parameters for programs that use neither doubles nor
    the helpers that format or parse numbers: those instructions are
    stuck. *)
Definition noF64 : Z -> list val -> option (list val) := fun _ _ => None.
Definition noNumberHelper : string -> list val -> store -> option (list val * store) :=
  fun _ _ _ => None.
Definition noFunctions : nat -> option fundef := fun _ => None.

End Run.

(** *** Slots *)

(** Every slot that a scope of the stack names is below [n]. *)
Definition slots_below (sc : list (gmap string nat)) (n : nat) : Prop :=
  Forall (fun scope : gmap string nat =>
            forall x i, scope !! x = Some i -> (i < n)%nat) sc.

(** The scopes only name slots that have been handed out: the state of
    the compiler whenever it lowers a statement. *)
Definition scopes_below (st : cstate) : Prop :=
  slots_below (scopes st) (localVarsIndex st).

(** What a lowering step promises about the bytes it returns: they are
    the encoding of structured code that reads back from them; and from a
    state whose scopes name only handed-out slots, it leaves such a state,
    hands out slots upwards only, and the code names only slots handed out
    by then. *)
Definition lowered (m : M bytes) : Prop :=
  forall st code st',
    m st = (Ok code, st') ->
    exists ins,
      code = encodes ins
      /\ forallb readable ins = true
      /\ (scopes_below st ->
          scopes_below st'
          /\ (localVarsIndex st <= localVarsIndex st')%nat
          /\ forallb (locals_below (localVarsIndex st')) ins = true).

(** The states a scope is entered and left in. *)
Definition entered (st : cstate) : cstate := with_scopes (∅ :: scopes st) st.
Definition left_ (st : cstate) : cstate := with_scopes (tail (scopes st)) st.

(** The else block of an [if], lowered from the state [s]: the body is
    compiled in a scope entered for it, its bytes read back as [E], and
    the scope is left; or there is no else block. *)
Definition compiledElse (elseBody : option (M bytes)) (s : cstate)
    (E : list instr) (s' : cstate) : Prop :=
  match elseBody with
  | Some body =>
      exists sb,
        body (entered s) = (Ok (encodes E), sb) /\ decoded E /\ s' = left_ sb
  | None => E = [] /\ s' = s
  end.

(** The elif branches, lowered from the state [s], the last branch first
    as the compiler's loop runs: of each branch the condition is compiled
    in the state the branch after it left, then the body in a scope
    entered for it, which is left again; [pairs] holds what the bytes of
    each condition and body read back as, in the order of the branches. *)
Fixpoint compiledElifs (elifs : list (M bytes * M bytes)) (s : cstate)
    (pairs : list (list instr * list instr)) (s' : cstate) : Prop :=
  match elifs, pairs with
  | [], [] => s' = s
  | (condition, body) :: rest, (C, B) :: pairs' =>
      exists s0 s1 s2,
        compiledElifs rest s pairs' s0
        /\ condition s0 = (Ok (encodes C), s1)
        /\ body (entered s1) = (Ok (encodes B), s2)
        /\ decoded C /\ decoded B
        /\ s' = left_ s2
  | _, _ => False
  end.

(** The step of a [for] and its code: the increment compiled, or the
    default step, which leaves the state as it is. *)
Definition compiledStep (incrementM : option (M bytes)) (s1 : cstate)
    (S : list instr) (s2 : cstate) : Prop :=
  match incrementM with
  | Some increment => increment s1 = (Ok (encodes S), s2)
  | None => S = defaultStep /\ s2 = s1
  end.

(** The loops, the body of a loop, and the code of a loop statement: the
    code as emitted, and the same code with the ghost tick at the entry of
    the statement's body. *)
Definition isLoop (s : Statement) : bool :=
  match s with
  | WhileStatement _ _ | ForStatement _ _ _ _ _ _ => true
  | _ => false
  end.

Definition loopBody (s : Statement) : list Statement :=
  match s with
  | WhileStatement _ body | ForStatement _ _ _ _ _ body => body
  | _ => []
  end.

(** The state in which the body of a loop statement is compiled, when
    the statement is compiled in [st]: for a [while], two scopes are
    entered; for a [for], one scope is entered, the assignment is
    compiled, a second scope is entered, and the stop expression and the
    step are compiled. *)
Definition loopBodyEntry (s : Statement) (st sb : cstate) : Prop :=
  match s with
  | WhileStatement _ _ => sb = entered (entered st)
  | ForStatement isLocal x init cond inc _ =>
      exists i s1 c s2,
        compileAssign isLocal x (compileExpression init) (entered st) = (Ok i, s1)
        /\ compileExpression cond (entered s1) = (Ok c, s2)
        /\ match inc with
           | Some e => exists stp, compileExpression e s2 = (Ok stp, sb)
           | None => sb = s2
           end
  | _ => False
  end.

Inductive loopCode (counter : nat) (body : list instr) : list instr -> list instr -> Prop :=
| loopCode_while condition :
    forallb tick_free condition = true ->
    forallb (locals_below counter) condition = true ->
    loopCode counter body
      (whileCode counter condition body) (tickedWhileCode counter condition body)
| loopCode_for isDescending loopVar init cond step :
    forallb tick_free (init ++ cond ++ step) = true ->
    forallb (locals_below isDescending) (init ++ cond ++ step) = true ->
    (loopVar < isDescending)%nat ->
    counter = S isDescending ->
    loopCode counter body
      (forCode counter isDescending loopVar init cond step body)
      (tickedForCode counter isDescending loopVar init cond step body).

(** The state lowering starts in: one scope, no slot handed out. *)
Definition startState : cstate := mkState [∅] 0 [] ∅ StringTable.empty.

(** ** Plain objects: a property reads as it was last written *)

Lemma object_lookup_insert (o : JsObject.t) k v : <[k := v]> o !! k = Some v.
Proof.
  unfold insert, lookup, JsObject_insert, JsObject_lookup, JsObject.set, JsObject.get.
  destruct (String.eqb k "__proto__") eqn:Ek; cbn [andb].
  - destruct (bool_decide (is_Some (JsObject.own o !! k))) eqn:Eo; cbn [negb JsObject.own JsObject.proto].
    + now rewrite lookup_insert_eq.
    + apply bool_decide_eq_false in Eo.
      destruct (JsObject.own o !! k) eqn:E; [exfalso; apply Eo; eauto|].
      reflexivity.
  - cbn [JsObject.own]. now rewrite lookup_insert_eq.
Qed.

Lemma object_lookup_insert_ne (o : JsObject.t) k k' v :
  k <> k' -> <[k := v]> o !! k' = o !! k'.
Proof.
  intros Hne.
  unfold insert, lookup, JsObject_insert, JsObject_lookup, JsObject.set, JsObject.get.
  destruct (String.eqb k "__proto__") eqn:Ek; cbn [andb].
  - destruct (bool_decide (is_Some (JsObject.own o !! k))); cbn [negb JsObject.own JsObject.proto].
    + now rewrite lookup_insert_ne.
    + apply String.eqb_eq in Ek. subst k.
      destruct (JsObject.own o !! k'); [reflexivity|].
      destruct (String.eqb_spec k' "__proto__"); [congruence|reflexivity].
  - cbn [JsObject.own JsObject.proto]. now rewrite lookup_insert_ne.
Qed.

Lemma object_lookup_of_map (m : gmap string bytes) k :
  k <> "__proto__"%string -> JsObject.of_map m !! k = m !! k.
Proof.
  intros Hne. unfold lookup at 1, JsObject_lookup, JsObject.get, JsObject.of_map.
  cbn [JsObject.own JsObject.proto].
  destruct (m !! k); [reflexivity|].
  now destruct (String.eqb k "__proto__").
Qed.

Lemma lor_128 x : 0 <= x < 128 -> Z.lor x 128 = x + 128.
Proof.
  intros Hx.
  assert (Hland : Z.land x 128 = 0).
  { apply Z.bits_inj'; intros k Hk.
    rewrite Z.land_spec, Z.bits_0. change 128 with (2 ^ 7).
    rewrite Z.pow2_bits_eqb by lia.
    destruct (Z.eqb_spec 7 k) as [<-|]; [|apply andb_false_r].
    rewrite andb_true_r. apply Z.testbit_false; [lia|].
    rewrite Z.div_small; [reflexivity|]. change (2 ^ 7) with 128. lia. }
  rewrite <- Z.lxor_lor, <- Z.add_nocarry_lxor; auto.
Qed.

Lemma unsignedLEB_go_decode fuel n rest :
  (N.log2 n < N.of_nat fuel)%N ->
  Decode.unsignedLEB (Wasm.unsignedLEB_go fuel n ++ rest) = Some (n, rest).
Proof.
  revert n. induction fuel as [|fuel IH]; intros n Hn; [lia|].
  assert (Hdec : n = (N.land n 127 + 128 * N.shiftr n 7)%N).
  { change 127%N with (N.ones 7). rewrite N.land_ones, N.shiftr_div_pow2.
    change (2 ^ 7)%N with 128%N.
    rewrite N.add_comm. apply N.div_mod'. }
  assert (Hlt : (N.land n 127 < 128)%N).
  { change 127%N with (N.ones 7). rewrite N.land_ones. now apply N.mod_lt. }
  cbn [Wasm.unsignedLEB_go].
  destruct (N.eqb_spec (N.shiftr n 7) 0) as [Hz|Hnz].
  - cbn. replace (Z.of_N (N.land n 127) <? 128) with true by (symmetry; apply Z.ltb_lt; lia).
    do 2 f_equal. rewrite N2Z.id. rewrite Hz in Hdec. lia.
  - assert (Hor := lor_128 (Z.of_N (N.land n 127)) ltac:(lia)).
    cbn [app Decode.unsignedLEB]. rewrite Hor.
    replace (Z.of_N (N.land n 127) + 128 <? 128) with false
      by (symmetry; apply Z.ltb_ge; lia).
    rewrite IH.
    + do 2 f_equal. replace (Z.of_N (N.land n 127) + 128 - 128) with (Z.of_N (N.land n 127)) by lia.
      rewrite N2Z.id. lia.
    + rewrite N.log2_shiftr.
      assert (7 <= N.log2 n)%N.
      { destruct (N.le_gt_cases 7 (N.log2 n)) as [|Hsmall]; [done|].
        exfalso. apply Hnz. now apply N.shiftr_eq_0. }
      lia.
Qed.

Lemma unsignedLEB_decode n rest :
  Decode.unsignedLEB (Wasm.unsignedLEB n ++ rest) = Some (n, rest).
Proof. apply unsignedLEB_go_decode. lia. Qed.

Lemma land_64 b : 0 <= b < 128 -> Z.land b 64 = if b <? 64 then 0 else 64.
Proof.
  intros Hb. apply Z.bits_inj'; intros k Hk.
  rewrite Z.land_spec. change 64 with (2 ^ 6) at 1.
  rewrite Z.pow2_bits_eqb by lia.
  destruct (Z.eqb_spec 6 k) as [<-|Hne].
  - rewrite andb_true_r. destruct (Z.ltb_spec b 64).
    + rewrite Z.bits_0. apply Z.testbit_false; [lia|].
      rewrite Z.div_small; [reflexivity|]. change (2 ^ 6) with 64. lia.
    + change (Z.testbit b 6 = Z.testbit (2 ^ 6) 6). rewrite Z.pow2_bits_true by lia.
      apply Z.testbit_true; [lia|]. change (2 ^ 6) with 64.
      replace (b / 64) with 1; [reflexivity|].
      apply Z.div_unique with (r := b - 64); lia.
  - rewrite andb_false_r. destruct (b <? 64); [now rewrite Z.bits_0|].
    change (false = Z.testbit (2 ^ 6) k). rewrite Z.pow2_bits_false; [reflexivity|lia].
Qed.

Lemma signedLEB_go_decode fuel n rest :
  - 2 ^ (7 * Z.of_nat fuel - 1) <= n < 2 ^ (7 * Z.of_nat fuel - 1) ->
  (0 < fuel)%nat ->
  Decode.signedLEB (Wasm.signedLEB_go fuel n ++ rest) = Some (n, rest).
Proof.
  revert n. induction fuel as [|fuel IH]; intros n Hn Hfuel; [lia|].
  assert (Hbyte : Z.land n 127 = n mod 128).
  { change 127 with (Z.ones 7). now rewrite Z.land_ones by lia. }
  assert (Hrest : Z.shiftr n 7 = n / 128).
  { now rewrite Z.shiftr_div_pow2 by lia. }
  assert (Hdec : n = 128 * (n / 128) + n mod 128) by (apply Z.div_mod; lia).
  assert (Hlt : 0 <= n mod 128 < 128) by (apply Z.mod_pos_bound; lia).
  cbn [Wasm.signedLEB_go]. rewrite Hbyte, Hrest, (land_64 _ Hlt).
  destruct (Z.ltb_spec (n mod 128) 64) as [Hlow|Hhigh].
  - (* bit 6 clear *)
    change (0 =? 0) with true. rewrite andb_true_r, andb_false_r, orb_false_r.
    destruct (Z.eqb_spec (n / 128) 0) as [Hz|Hnz].
    + cbn. replace (n mod 128 <? 128) with true by (symmetry; apply Z.ltb_lt; lia).
      replace (n mod 128 <? 64) with true by (symmetry; apply Z.ltb_lt; lia).
      do 2 f_equal. lia.
    + cbn [app Decode.signedLEB]. rewrite (lor_128 _ Hlt).
      replace (n mod 128 + 128 <? 128) with false by (symmetry; apply Z.ltb_ge; lia).
      destruct fuel as [|fuel'].
      { exfalso. change (2 ^ (7 * Z.of_nat 1 - 1)) with 64 in Hn.
        apply Hnz. apply Z.div_small. lia. }
      rewrite IH; [do 2 f_equal; lia| |lia].
      replace (7 * Z.of_nat (S (S fuel')) - 1) with (7 + (7 * Z.of_nat (S fuel') - 1)) in Hn by lia.
      rewrite Z.pow_add_r in Hn by lia. change (2 ^ 7) with 128 in Hn.
      split.
      * apply Z.div_le_lower_bound; lia.
      * apply Z.div_lt_upper_bound; lia.
  - (* bit 6 set *)
    change (64 =? 0) with false. rewrite andb_false_r, andb_true_r, orb_false_l.
    destruct (Z.eqb_spec (n / 128) (-1)) as [Hz|Hnz].
    + cbn. replace (n mod 128 <? 128) with true by (symmetry; apply Z.ltb_lt; lia).
      replace (n mod 128 <? 64) with false by (symmetry; apply Z.ltb_ge; lia).
      do 2 f_equal. lia.
    + cbn [app Decode.signedLEB]. rewrite (lor_128 _ Hlt).
      replace (n mod 128 + 128 <? 128) with false by (symmetry; apply Z.ltb_ge; lia).
      destruct fuel as [|fuel'].
      { exfalso. change (2 ^ (7 * Z.of_nat 1 - 1)) with 64 in Hn.
        apply Hnz. symmetry. apply Z.div_unique with (r := n mod 128); lia. }
      rewrite IH; [do 2 f_equal; lia| |lia].
      replace (7 * Z.of_nat (S (S fuel')) - 1) with (7 + (7 * Z.of_nat (S fuel') - 1)) in Hn by lia.
      rewrite Z.pow_add_r in Hn by lia. change (2 ^ 7) with 128 in Hn.
      split.
      * apply Z.div_le_lower_bound; lia.
      * apply Z.div_lt_upper_bound; lia.
Qed.

Lemma signedLEB_decode n rest :
  Decode.signedLEB (Wasm.signedLEB n ++ rest) = Some (n, rest).
Proof.
  apply signedLEB_go_decode; [|lia].
  set (k := Z.log2 (Z.abs n)).
  assert (Hk : 0 <= k) by apply Z.log2_nonneg.
  assert (Habs : Z.abs n < 2 ^ (k + 1)).
  { destruct (Z.eq_dec (Z.abs n) 0) as [->|Hne].
    - apply Z.pow_pos_nonneg; lia.
    - replace (k + 1) with (Z.succ k) by lia. apply Z.log2_spec. lia. }
  assert (Hpow : 2 ^ (k + 1) <= 2 ^ (7 * Z.of_nat (S (S (Z.to_nat k))) - 1)).
  { apply Z.pow_le_mono_r; lia. }
  lia.
Qed.

Lemma sections_go_emit l fuel :
  (length l <= fuel)%nat ->
  Decode.sections_go fuel (emitSections l) = Some l.
Proof.
  revert fuel. induction l as [|[id p] l IH]; intros fuel Hfuel.
  - now destruct fuel.
  - destruct fuel as [|fuel]; [cbn in Hfuel; lia|].
    unfold emitSections. cbn [map concat fst snd]. fold (emitSections l).
    unfold Wasm.emitSection. cbn [app Decode.sections_go].
    rewrite <- app_assoc, unsignedLEB_decode, Nat2N.id.
    rewrite length_app.
    replace (length p <=? length p + length (emitSections l))%nat with true
      by (symmetry; apply Nat.leb_le; lia).
    rewrite drop_app_length, take_app_length, IH; [done|].
    cbn in Hfuel. lia.
Qed.

Lemma emitSections_length l : (length l <= length (emitSections l))%nat.
Proof.
  induction l as [|[id p] l IH]; [done|].
  unfold emitSections. cbn [map concat fst snd]. fold (emitSections l).
  unfold Wasm.emitSection. cbn [length app]. rewrite !length_app. lia.
Qed.

(** ** Reasoning about monadic code *)

Lemma bind_Ok {A B} (m : M A) (k : A -> M B) st b st' :
  bind m k st = (Ok b, st') ->
  exists a st1, m st = (Ok a, st1) /\ k a st1 = (Ok b, st').
Proof.
  unfold bind. destruct (m st) as [[a|e|msg] st1]; intros H; try discriminate.
  eauto.
Qed.

Lemma bind_run {A B} (m : M A) (k : A -> M B) st a st1 :
  m st = (Ok a, st1) -> bind m k st = k a st1.
Proof. unfold bind. now intros ->. Qed.

Ltac unfold_prims H :=
  cbv beta delta [ret gets modify throwError throwCompilerError
                  enterScope exitScope clearScopes setScopes getLocalVarsIndex
                  setLocalVarsIndex getVar consumeScratchIndex call
                  addUserDefinedFunction addFunctionBody
                  clearUserDefinedFunctions resetFunctionBodies] in H.

Lemma ok_pair_inv {A} (a b : A) (s t : cstate) :
  (Ok a, s) = (Ok b, t) -> a = b /\ s = t.
Proof. intros H. now inversion H. Qed.

(** Splits a successful run of a chain of binds into its steps. *)
Ltac inv_pair E :=
  lazymatch type of E with
  | (Ok _, _) = (Ok _, _) => apply ok_pair_inv in E; destruct E as [<- <-]
  | (CompErr _, _) = (Ok _, _) => discriminate E
  | (Throw _, _) = (Ok _, _) => discriminate E
  | _ => idtac
  end.

Ltac inv_ok H :=
  lazymatch type of H with
  | bind _ _ _ = (Ok _, _) =>
      let a := fresh "a" in
      let s := fresh "s" in
      let E := fresh "E" in
      apply bind_Ok in H; destruct H as (a & s & E & H);
      unfold_prims E; inv_pair E; inv_ok H
  | _ => unfold_prims H; inv_pair H
  end.

(** ** The layout of the module *)

Section ModuleLayout.

Variable getLocalDecls : cstate -> bytes.
Variable helperBodies : gmap string bytes.

(** What [_compile] returns: the header and eight sections, the global
    and the data section built from the string table as it is at the
    end. *)
Lemma _compile_layout body st code st' :
  _compile getLocalDecls helperBodies body st = (Ok code, st') ->
  exists ty im fu ex co,
    code = header ++ emitSections
      [ (1, ty); (2, im); (3, fu); (5, memoryPayload);
        (6, globalPayload (StringTable.getBytes (strings st')));
        (7, ex); (10, co);
        (11, dataPayload (StringTable.getBytes (strings st'))) ].
Proof.
  intros H. unfold _compile in H. inv_ok H.
  do 5 eexists.
  unfold emitSections. cbn [map concat fst snd]. rewrite app_nil_r.
  unfold memorySection, globalSection, dataSection, globalPayload, dataPayload.
  reflexivity.
Qed.

End ModuleLayout.

(** ** Sample parameters and inputs for the examples *)

(** A local-declaration prelude: one group of [i32] locals. *)
Definition sampleLocalDecls (st : cstate) : bytes :=
  if (localVarsIndex st =? 0)%nat then [0x00]
  else 0x01 :: Wasm.unsignedLEB (N.of_nat (localVarsIndex st)) ++ [Wasm.valType Wasm.I32].

(** Helper bodies that only trap, one per defined function. *)
Definition sampleHelperBodies : gmap string bytes :=
  list_to_map (map (fun f => (fn_name f, [0x00; 0x00; 0x0B])) definedFunctions).

Definition emptyState : cstate := mkState [] 0 [] ∅ StringTable.empty.

Definition at11 : Loc := {| line := 1; column := 1 |}.
Definition ident (x : string) : Ident := {| name := x; loc := at11 |}.

(** [println "hello"] *)
Definition helloProgram : list Statement :=
  [PrintlnStatement (StringLiteral (js "hello"))].

Section ModuleTheorems.

Variable getLocalDecls : cstate -> bytes.
Variable helperBodies : gmap string bytes.

(** C2. When [_compile] succeeds, its output starts with the 8-byte
    header [00 61 73 6D 01 00 00 00], and what follows reads back as
    exactly eight sections whose ids are, in this order, 1 (Type),
    2 (Import), 3 (Function), 5 (Memory), 6 (Global), 7 (Export),
    10 (Code) and 11 (Data). *)
Theorem compile_sections_in_order body st code st' :
  _compile getLocalDecls helperBodies body st = (Ok code, st') ->
  take 8 code = [0x00; 0x61; 0x73; 0x6D; 0x01; 0x00; 0x00; 0x00]
  /\ (exists ty im fu me gl ex co da,
        code = header
               ++ Wasm.emitSection 1 ty ++ Wasm.emitSection 2 im
               ++ Wasm.emitSection 3 fu ++ Wasm.emitSection 5 me
               ++ Wasm.emitSection 6 gl ++ Wasm.emitSection 7 ex
               ++ Wasm.emitSection 10 co ++ Wasm.emitSection 11 da)
  /\ fmap (map fst) (Decode.sections code) = Some [1; 2; 3; 5; 6; 7; 10; 11].
Proof.
  intros H. destruct (_compile_layout _ _ _ _ _ _ H) as (ty & im & fu & ex & co & ->).
  split; [reflexivity|]. split.
  - do 8 eexists. unfold emitSections. cbn [map concat fst snd].
    rewrite app_nil_r. reflexivity.
  - unfold Decode.sections.
    change (drop 8 (header ++ ?l)) with l.
    rewrite sections_go_emit; [reflexivity|].
    rewrite length_app. etransitivity; [|apply Nat.le_add_l].
    apply emitSections_length.
Qed.

End ModuleTheorems.

Lemma compile_sections_in_order_witness :
  exists code st',
    _compile sampleLocalDecls sampleHelperBodies helloProgram emptyState = (Ok code, st')
    /\ fmap (map fst) (Decode.sections code) = Some [1; 2; 3; 5; 6; 7; 10; 11].
Proof.
  destruct (_compile sampleLocalDecls sampleHelperBodies helloProgram emptyState)
    as [[code| |] st'] eqn:E; try (vm_compute in E; discriminate).
  exists code, st'. split; [reflexivity|].
  exact (proj2 (proj2 (compile_sections_in_order _ _ _ _ _ _ E))).
Defined.

(** ** Induction over the syntax tree *)

Section ExpressionInd.

Variable P : Expression -> Prop.
Hypothesis HString : forall v, P (StringLiteral v).
Hypothesis HNumber : forall v, P (NumberLiteral v).
Hypothesis HBoolean : forall v, P (BooleanLiteral v).
Hypothesis HIdentifier : forall id, P (Identifier id).
Hypothesis HGrouping : forall e, P e -> P (GroupingExpression e).
Hypothesis HBinary : forall l op r, P l -> P r -> P (BinaryExpression l op r).
Hypothesis HUnary : forall op e, P e -> P (UnaryExpression op e).
Hypothesis HCall : forall callee args at_, Forall P args ->
  P (FunctionCallExpression callee args at_).
Hypothesis HOther : forall t, P (OtherExpression t).

Fixpoint Expression_nested_ind (e : Expression) : P e :=
  match e with
  | StringLiteral v => HString v
  | NumberLiteral v => HNumber v
  | BooleanLiteral v => HBoolean v
  | Identifier id => HIdentifier id
  | GroupingExpression e => HGrouping e (Expression_nested_ind e)
  | BinaryExpression l op r =>
      HBinary l op r (Expression_nested_ind l) (Expression_nested_ind r)
  | UnaryExpression op e => HUnary op e (Expression_nested_ind e)
  | FunctionCallExpression callee args at_ =>
      HCall callee args at_
        ((fix go (l : list Expression) : Forall P l :=
            match l with
            | [] => List.Forall_nil P
            | x :: l' => List.Forall_cons P x l' (Expression_nested_ind x) (go l')
            end) args)
  | OtherExpression t => HOther t
  end.

End ExpressionInd.

Section StatementInd.

Variable P : Statement -> Prop.
Hypothesis HPrintln : forall e, P (PrintlnStatement e).
Hypothesis HPrint : forall e, P (PrintStatement e).
Hypothesis HLocalAssign : forall x e, P (LocalAssignStatement x e).
Hypothesis HAssign : forall x e, P (AssignStatement x e).
Hypothesis HIf : forall c thn elifs els,
  Forall P thn ->
  Forall (fun elif => Forall P (snd elif)) elifs ->
  (forall body, els = Some body -> Forall P body) ->
  P (IfStatement c thn elifs els).
Hypothesis HWhile : forall c body, Forall P body -> P (WhileStatement c body).
Hypothesis HFor : forall isLocal x init c inc body,
  Forall P body -> P (ForStatement isLocal x init c inc body).
Hypothesis HFunctionDecl : forall f params body,
  Forall P body -> P (FunctionDeclStatement f params body).
Hypothesis HReturn : forall e, P (ReturnStatement e).
Hypothesis HExpression : forall e, P (ExpressionStatement e).
Hypothesis HOther : forall t, P (OtherStatement t).

Fixpoint Statement_nested_ind (s : Statement) : P s :=
  let all := fix go (l : list Statement) : Forall P l :=
    match l with
    | [] => List.Forall_nil P
    | x :: l' => List.Forall_cons P x l' (Statement_nested_ind x) (go l')
    end in
  match s with
  | PrintlnStatement e => HPrintln e
  | PrintStatement e => HPrint e
  | LocalAssignStatement x e => HLocalAssign x e
  | AssignStatement x e => HAssign x e
  | IfStatement c thn elifs els =>
      HIf c thn elifs els (all thn)
        ((fix go (l : list (Expression * list Statement)) :
            Forall (fun elif => Forall P (snd elif)) l :=
            match l with
            | [] => List.Forall_nil _
            | x :: l' => List.Forall_cons _ x l' (all (snd x)) (go l')
            end) elifs)
        (match els as o return forall body, o = Some body -> Forall P body with
         | Some b => fun body E =>
             match E in _ = o' return match o' with Some b' => Forall P b' | None => True end
             with eq_refl => all b end
         | None => fun body E =>
             match E in _ = o' return match o' with Some b' => Forall P b' | None => True end
             with eq_refl => I end
         end)
  | WhileStatement c body => HWhile c body (all body)
  | ForStatement isLocal x init c inc body => HFor isLocal x init c inc body (all body)
  | FunctionDeclStatement f params body => HFunctionDecl f params body (all body)
  | ReturnStatement e => HReturn e
  | ExpressionStatement e => HExpression e
  | OtherStatement t => HOther t
  end.

End StatementInd.

(** ** Invariants of the string table *)

Lemma StringTable_wf_empty : StringTable_wf StringTable.empty.
Proof. intros s off H. cbn in H. by rewrite lookup_empty in H. Qed.

Lemma StringTable_wf_getOffset s tbl :
  StringTable_wf tbl -> StringTable_wf (snd (StringTable.getOffset s tbl)).
Proof.
  intros Hwf. unfold StringTable.getOffset.
  destruct (StringTable.offsets tbl !! s) as [off|] eqn:E; [exact Hwf|].
  intros s' off' H'. cbn in *.
  destruct (decide (s = s')) as [<-|Hne].
  - rewrite lookup_insert_eq in H'. injection H' as <-.
    rewrite length_app. split; [lia|].
    rewrite drop_app_length. apply take_ge. lia.
  - rewrite lookup_insert_ne in H' by done.
    destruct (Hwf _ _ H') as [Hle Htake].
    rewrite length_app. split; [lia|].
    rewrite drop_app_le by lia. rewrite take_app_le; [done|].
    rewrite length_drop. lia.
Qed.

(** A computation keeps a property of the string table, whether it
    returns or throws. *)
Definition keeps (P : StringTable.t -> Prop) {A} (m : M A) : Prop :=
  forall st, P (strings st) -> P (strings (snd (m st))).

Section Keeps.

Variable P : StringTable.t -> Prop.
Hypothesis P_getOffset : forall s tbl, P tbl -> P (snd (StringTable.getOffset s tbl)).

Lemma keeps_ret {A} (a : A) : keeps P (ret a).
Proof. now intros st. Qed.

Lemma keeps_bind {A B} (m : M A) (k : A -> M B) :
  keeps P m -> (forall a, keeps P (k a)) -> keeps P (bind m k).
Proof.
  intros Hm Hk st HP. unfold bind. specialize (Hm st HP).
  destruct (m st) as [[a|e|msg] st1]; cbn in *; auto. now apply Hk.
Qed.

Lemma keeps_gets {A} (f : cstate -> A) : keeps P (gets f).
Proof. now intros st. Qed.

Lemma keeps_modify (f : cstate -> cstate) :
  (forall st, strings (f st) = strings st) -> keeps P (modify f).
Proof. intros Hf st HP. cbn. now rewrite Hf. Qed.

Lemma keeps_throwError {A} msg : keeps P (@throwError A msg).
Proof. now intros st. Qed.

Lemma keeps_throwCompilerError {A} e : keeps P (@throwCompilerError A e).
Proof. now intros st. Qed.

Lemma keeps_getOffset s : keeps P (getOffset s).
Proof.
  intros st HP. unfold getOffset.
  specialize (P_getOffset s (strings st) HP).
  now destruct (StringTable.getOffset s (strings st)).
Qed.

Lemma keeps_consumeScratchIndex : keeps P consumeScratchIndex.
Proof. now intros st. Qed.

Lemma keeps_declareVar x isLocal : keeps P (declareVar x isLocal).
Proof.
  intros st HP. unfold declareVar.
  destruct isLocal, (lookupVar x (scopes st)), (scopes st); cbn; auto.
Qed.

Lemma keeps_flatMapM {A} (f : A -> M bytes) xs :
  Forall (fun x => keeps P (f x)) xs -> keeps P (flatMapM f xs).
Proof.
  induction 1 as [|x xs Hx _ IH]; cbn [flatMapM].
  - apply keeps_ret.
  - apply keeps_bind; [done|]. intros b.
    apply keeps_bind; [done|]. intros bs. apply keeps_ret.
Qed.

(** One step of a proof that a chain of binds keeps [P]. *)
Ltac keeps_step :=
  lazymatch goal with
  | |- keeps _ (bind _ _) => apply keeps_bind; [|intros ?]
  | |- keeps _ (ret _) => apply keeps_ret
  | |- keeps _ (gets _) => apply keeps_gets
  | |- keeps _ (call _) => apply keeps_gets
  | |- keeps _ getLocalVarsIndex => apply keeps_gets
  | |- keeps _ (getVar _) => apply keeps_gets
  | |- keeps _ (throwError _) => apply keeps_throwError
  | |- keeps _ (throwCompilerError _) => apply keeps_throwCompilerError
  | |- keeps _ (getOffset _) => apply keeps_getOffset
  | |- keeps _ consumeScratchIndex => apply keeps_consumeScratchIndex
  | |- keeps _ (declareVar _ _) => apply keeps_declareVar
  | |- keeps _ (modify _) => apply keeps_modify; intros ?; reflexivity
  | |- keeps _ enterScope => apply keeps_modify; intros ?; reflexivity
  | |- keeps _ exitScope => apply keeps_modify; intros ?; reflexivity
  | |- keeps _ clearScopes => apply keeps_modify; intros ?; reflexivity
  | |- keeps _ (setScopes _) => apply keeps_modify; intros ?; reflexivity
  | |- keeps _ (setLocalVarsIndex _) => apply keeps_modify; intros ?; reflexivity
  | |- keeps _ (addUserDefinedFunction _ _ _) => apply keeps_modify; intros ?; reflexivity
  | |- keeps _ (addFunctionBody _ _) => apply keeps_modify; intros ?; reflexivity
  | |- keeps _ clearUserDefinedFunctions => apply keeps_modify; intros ?; reflexivity
  | |- keeps _ (resetFunctionBodies _) => apply keeps_modify; intros ?; reflexivity
  | |- keeps _ (if ?b then _ else _) => destruct b
  | |- keeps _ (match ?x with _ => _ end) => destruct x
  end.

Lemma keeps_compileBinary op l r : keeps P (compileBinary op l r).
Proof. unfold compileBinary. repeat keeps_step. Qed.

Lemma keeps_compileCall callee n at_ m :
  keeps P m -> keeps P (compileCall callee n at_ m).
Proof. intros Hm. unfold compileCall. repeat (assumption || keeps_step). Qed.

Lemma keeps_compileExpression e : keeps P (compileExpression e).
Proof.
  induction e as [v|v|v|id|e IH|l op r IHl IHr|op e IH|callee args at_ IH|t]
    using Expression_nested_ind; cbn [compileExpression].
  1-5, 7, 9: repeat (assumption || keeps_step).
  - (* binary *)
    repeat (assumption || keeps_step). apply keeps_compileBinary.
  - (* call *)
    apply keeps_compileCall. now apply keeps_flatMapM.
Qed.

Lemma keeps_compileAssign isLocal x m :
  keeps P m -> keeps P (compileAssign isLocal x m).
Proof. intros Hm. unfold compileAssign. repeat (assumption || keeps_step). Qed.

Lemma keeps_elifLoop elifs elseBlock :
  Forall (fun e => keeps P (fst e) /\ keeps P (snd e)) elifs ->
  keeps P (elifLoop elifs elseBlock).
Proof.
  induction 1 as [|[c b] elifs [Hc Hb] _ IH]; cbn [elifLoop].
  - apply keeps_ret.
  - cbn in Hc, Hb. repeat (assumption || keeps_step).
Qed.

Lemma keeps_compileIf c t elifs e :
  keeps P c -> keeps P t ->
  Forall (fun e => keeps P (fst e) /\ keeps P (snd e)) elifs ->
  (forall b, e = Some b -> keeps P b) ->
  keeps P (compileIf c t elifs e).
Proof.
  intros Hc Ht Helifs He. unfold compileIf.
  repeat (assumption || keeps_step); try now apply He.
  all: now apply keeps_elifLoop.
Qed.

Lemma keeps_compileWhile c b : keeps P c -> keeps P b -> keeps P (compileWhile c b).
Proof. intros Hc Hb. unfold compileWhile. repeat (assumption || keeps_step). Qed.

Lemma keeps_compileFor a x c inc b :
  keeps P a -> keeps P c -> (forall i, inc = Some i -> keeps P i) -> keeps P b ->
  keeps P (compileFor a x c inc b).
Proof.
  intros Ha Hc Hinc Hb. unfold compileFor.
  repeat (assumption || keeps_step); try now apply Hinc.
Qed.

Lemma keeps_declareParams params : keeps P (declareParams params).
Proof.
  induction params as [|p params IH]; cbn [declareParams]; repeat (assumption || keeps_step).
Qed.

Variable getLocalDecls : cstate -> bytes.
Variable helperBodies : gmap string bytes.

Lemma keeps_compileFunctionDecl f params b :
  keeps P b -> keeps P (compileFunctionDecl getLocalDecls f params b).
Proof.
  intros Hb. unfold compileFunctionDecl.
  repeat (assumption || apply keeps_declareParams || keeps_step).
Qed.

Lemma keeps_compileStatement s : keeps P (compileStatement getLocalDecls s).
Proof.
  induction s as [e|e|x e|x e|c thn elifs els IHthn IHelifs IHels|c body IH
                  |isLocal x init c inc body IH|f params body IH|e|e|t]
    using Statement_nested_ind; cbn [compileStatement].
  - repeat (apply keeps_compileExpression || keeps_step).
  - repeat (apply keeps_compileExpression || keeps_step).
  - apply keeps_compileAssign, keeps_compileExpression.
  - apply keeps_compileAssign, keeps_compileExpression.
  - apply keeps_compileIf.
    + apply keeps_compileExpression.
    + now apply keeps_flatMapM.
    + apply Forall_map. eapply Forall_impl; [eassumption|].
      intros [c' b] Hb. cbn in *. split; [apply keeps_compileExpression|].
      now apply keeps_flatMapM.
    + intros b Hb. destruct els as [body|]; [|discriminate].
      injection Hb as <-. apply keeps_flatMapM. eauto.
  - apply keeps_compileWhile; [apply keeps_compileExpression|now apply keeps_flatMapM].
  - apply keeps_compileFor.
    + apply keeps_compileAssign, keeps_compileExpression.
    + apply keeps_compileExpression.
    + intros i Hi. destruct inc; [|discriminate]. injection Hi as <-.
      apply keeps_compileExpression.
    + now apply keeps_flatMapM.
  - apply keeps_compileFunctionDecl. now apply keeps_flatMapM.
  - repeat (apply keeps_compileExpression || keeps_step).
  - unfold compileExpressionStatement.
    destruct e; repeat (apply keeps_compileExpression || keeps_step).
  - keeps_step.
Qed.

Lemma keeps_compileStatements l : keeps P (compileStatements getLocalDecls l).
Proof.
  apply keeps_flatMapM, Forall_forall. intros s _. apply keeps_compileStatement.
Qed.

Lemma keeps_typeIndexBytes what types f : keeps P (typeIndexBytes what types f).
Proof. unfold typeIndexBytes. repeat keeps_step. Qed.

Lemma keeps_importEntry types f : keeps P (importEntry types f).
Proof. unfold importEntry. repeat keeps_step. Qed.

Lemma keeps_codeEntry f : keeps P (codeEntry f).
Proof. unfold codeEntry. repeat keeps_step. Qed.

Lemma keeps__compile body : keeps P (_compile getLocalDecls helperBodies body).
Proof.
  unfold _compile, mainFuncBody.
  repeat (apply keeps_compileStatements || keeps_step).
  all: apply keeps_flatMapM, Forall_forall; intros f _;
    first [apply keeps_typeIndexBytes | apply keeps_importEntry | apply keeps_codeEntry].
Qed.

End Keeps.

Lemma sections_of_module l :
  Decode.sections (header ++ emitSections l) = Some l.
Proof.
  unfold Decode.sections. change (drop 8 (header ++ ?x)) with x.
  apply sections_go_emit. rewrite length_app.
  etransitivity; [apply emitSections_length|apply Nat.le_add_l].
Qed.

Section HeapPointer.

Variable getLocalDecls : cstate -> bytes.
Variable helperBodies : gmap string bytes.

(** C9. After a successful compilation that started from an empty string
    table, the module has exactly one Global section; it declares one
    global, of type i32 (0x7F), mutable (0x01), initialised by
    [i32.const (n + 1)] where [n] is the byte length of the string table.
    The one Data section places those [n] bytes at memory offset 0, so the
    table occupies the offsets below [n], every interned string ends at or
    before [n], and the initial value [n + 1] is above all of them. *)
Theorem heap_pointer_above_string_table body st code st' :
  strings st = StringTable.empty ->
  _compile getLocalDecls helperBodies body st = (Ok code, st') ->
  let stringBytes := StringTable.getBytes (strings st') in
  let n := Z.of_nat (length stringBytes) in
  exists sections gl da,
    Decode.sections code = Some sections
    /\ sectionsWithId 6 sections = [gl]
    /\ readGlobals gl
       = Some {| g_type := Wasm.valType Wasm.I32; g_mutable := 1; g_init := n + 1 |}
    /\ sectionsWithId 11 sections = [da]
    /\ readData da = Some (0, stringBytes)
    /\ (forall offset, 0 <= offset < 0 + n -> offset < n + 1)
    /\ (forall s off,
          StringTable.offsets (strings st') !! s = Some off ->
          Z.of_nat off + Z.of_nat (length (Utf8.encode s)) < n + 1).
Proof.
  intros Hempty H stringBytes n.
  assert (Hwf : StringTable_wf (strings st')).
  { pose proof (keeps__compile StringTable_wf StringTable_wf_getOffset
                  getLocalDecls helperBodies body st) as Hk.
    rewrite H in Hk. apply Hk. rewrite Hempty. apply StringTable_wf_empty. }
  destruct (_compile_layout _ _ _ _ _ _ H) as (ty & im & fu & ex & co & ->).
  eexists _, (globalPayload stringBytes), (dataPayload stringBytes).
  split; [apply sections_of_module|].
  split; [reflexivity|].
  split.
  { unfold globalPayload, readGlobals, Wasm.i32.const, Wasm.control.end_.
    cbn [app]. rewrite signedLEB_decode. reflexivity. }
  split; [reflexivity|].
  split.
  { unfold dataPayload, readData, Wasm.i32.const, Wasm.control.end_.
    cbn [app].
    change (Wasm.signedLEB 0 ++ ?x) with (0 :: x). cbn [Decode.signedLEB Z.ltb Z.compare].
    rewrite unsignedLEB_decode, Nat2N.id, bool_decide_eq_true_2; reflexivity. }
  split; [lia|].
  intros s off Hs. destruct (Hwf s off Hs) as [Hle _].
  unfold n, stringBytes, StringTable.getBytes. lia.
Qed.

End HeapPointer.

Lemma heap_pointer_above_string_table_witness :
  exists code st' sections gl,
    _compile sampleLocalDecls sampleHelperBodies helloProgram emptyState = (Ok code, st')
    /\ Decode.sections code = Some sections
    /\ sectionsWithId 6 sections = [gl]
    /\ readGlobals gl
       = Some {| g_type := 0x7F; g_mutable := 1; g_init := 6 |}.
Proof.
  destruct (_compile sampleLocalDecls sampleHelperBodies helloProgram emptyState)
    as [[code| |] st'] eqn:E; try (vm_compute in E; discriminate).
  destruct (heap_pointer_above_string_table sampleLocalDecls sampleHelperBodies
              helloProgram emptyState code st' eq_refl E)
    as (sections & gl & da & Hs & Hg & Hr & _).
  exists code, st', sections, gl. repeat split; try assumption.
  rewrite Hr. do 2 f_equal.
  assert (Hlen : length (StringTable.getBytes (strings st')) = 5%nat).
  { change st' with (snd (Ok code, st')). rewrite <- E. vm_compute. reflexivity. }
  rewrite Hlen. reflexivity.
Defined.

(** ** The contract of [compile] *)

Section Contract.

Variable getLocalDecls : cstate -> bytes.
Variable helperBodies : gmap string bytes.

Lemma _compile_header body st code st' :
  _compile getLocalDecls helperBodies body st = (Ok code, st') ->
  exists rest, code = header ++ rest.
Proof.
  intros H. destruct (_compile_layout _ _ _ _ _ _ H) as (ty & im & fu & ex & co & ->).
  eauto.
Qed.

(** C1, as the code has it.  [compile] returns an error exactly when
    [_compile] threw a [CompilerError], and then the bytes are empty and
    the error is the one thrown, with its message, line, column and token
    length; it returns bytes exactly when [_compile] returned them, and
    then the error is null and the bytes begin with the WASM header; and
    when the AST is not a program or [_compile] threw any other exception,
    it returns no bytes and no error. *)
Theorem compile_contract ast prev :
  let r := compile getLocalDecls helperBodies ast prev in
  let st := with_strings StringTable.empty prev in
  (forall e, error r = Some e <->
     exists body st', ast = Program body
       /\ _compile getLocalDecls helperBodies body st = (CompErr e, st'))
  /\ (result_bytes r <> [] <->
     exists body code st', ast = Program body
       /\ _compile getLocalDecls helperBodies body st = (Ok code, st')
       /\ result_bytes r = code)
  /\ (error r <> None -> result_bytes r = [])
  /\ (result_bytes r <> [] ->
      error r = None /\ exists rest, result_bytes r = header ++ rest)
  /\ ((error r = None /\ result_bytes r = []) <->
      match ast with
      | Program body =>
          exists msg st', _compile getLocalDecls helperBodies body st = (Throw msg, st')
      | AstNull | AstNotProgram _ => True
      end).
Proof.
  intros r st. subst r. unfold compile. fold st.
  destruct ast as [| t | body]; cbn [result_bytes error].
  1, 2: split; [intros e; split; [discriminate|intros (? & ? & ? & _); discriminate]|];
    split; [split; [congruence|intros (? & ? & ? & ? & _); discriminate]|];
    split; [reflexivity|]; split; [congruence|tauto].
  destruct (_compile getLocalDecls helperBodies body st) as [[code|e|msg] st'] eqn:E;
    cbn [result_bytes error].
  - (* [_compile] returned *)
    destruct (_compile_header _ _ _ _ E) as [rest ->].
    split; [intros e; split; [discriminate|]|].
    { intros (? & ? & [= <-] & H). rewrite E in H. discriminate. }
    split; [split; [intros _; exists body, (header ++ rest), st'; auto|discriminate]|].
    split; [congruence|].
    split; [intros _; eauto|].
    split; [intros [_ H]; discriminate H|intros (? & ? & ?); discriminate].
  - (* [_compile] threw a CompilerError *)
    split; [intros e'; split|].
    { intros [= <-]. eauto. }
    { intros (? & ? & [= <-] & H). rewrite E in H. congruence. }
    split; [split; [congruence|]|].
    { intros (? & ? & ? & [= <-] & H & _). rewrite E in H. discriminate. }
    split; [reflexivity|].
    split; [congruence|].
    split; [intros [? _]; discriminate|intros (? & ? & ?); discriminate].
  - (* [_compile] threw another exception *)
    split; [intros e'; split; [discriminate|]|].
    { intros (? & ? & [= <-] & H). rewrite E in H. discriminate. }
    split; [split; [congruence|]|].
    { intros (? & ? & ? & [= <-] & H & _). rewrite E in H. discriminate. }
    split; [reflexivity|].
    split; [congruence|].
    split; [eauto|auto].
Qed.

End Contract.

(** C1 as stated fails: handed [null], [compile] fails (it throws
    "Invalid AST: Expected a Program node" and catches it), yet the
    error it returns is null. *)
Lemma compile_null_ast_no_error :
  let r := compile sampleLocalDecls sampleHelperBodies AstNull emptyState in
  result_bytes r = [] /\ error r = None
  /\ ~ (error r = None -> result_bytes r <> []).
Proof. cbn. repeat split. intros H. now apply H. Qed.

(** The same happens inside a program: an operator the lowering does not
    know makes [compileExpression] throw a plain [Error]. *)
Example compile_unknown_operator_no_error :
  let r := compile sampleLocalDecls sampleHelperBodies
             (Program [PrintStatement (UnaryExpression "!" (BooleanLiteral true))])
             emptyState in
  result_bytes r = [] /\ error r = None.
Proof. vm_compute. split; reflexivity. Qed.

(** ** The lexer *)

Module LexerFacts.
Import Lexer.

Lemma peek_in_range src c : isEndOfFile (peek src c) = false -> (c < length src)%nat.
Proof.
  unfold isEndOfFile, peek. intros H.
  destruct (Nat.lt_ge_cases c (length src)) as [|Hge]; [done|].
  rewrite nth_overflow in H by done. discriminate.
Qed.

Lemma current_advance src pos : current (advance src pos) = S (current pos).
Proof. unfold advance. now destruct (isNewline _). Qed.

Lemma current_iter_advance src k pos :
  current (Nat.iter k (advance src) pos) = (k + current pos)%nat.
Proof.
  induction k as [|k IH]; [done|]. rewrite Nat.iter_succ, current_advance, IH. lia.
Qed.

Lemma decoded_advances src start char adv :
  decodeStringLiteralSegment src start = Decoded char adv -> (1 <= adv)%nat.
Proof.
  unfold decodeStringLiteralSegment. intros H.
  repeat match type of H with
         | match ?x with _ => _ end = _ => destruct x
         | (if ?b then _ else _) = _ => destruct b
         end; inversion H; lia.
Qed.

(** With fuel for every character left, a scan does not run out, and it
    does not move backwards. *)
Definition scan_ok (src : jsstring) (pos : Pos) (r : Scan) : Prop :=
  match r with
  | ScanDone pos' _ => (current pos <= current pos')%nat
  | ScanError _ | ScanThrown _ => True
  | ScanOutOfFuel => False
  end.

Lemma scan_ok_le src pos pos' r :
  (current pos <= current pos')%nat -> scan_ok src pos' r -> scan_ok src pos r.
Proof. destruct r; cbn; auto. lia. Qed.

Lemma scanString_ok src quote fuel pos value :
  (1 <= fuel)%nat -> (length src < fuel + current pos)%nat ->
  scan_ok src pos (scanString fuel src quote pos value).
Proof.
  revert pos value. induction fuel as [|fuel IH]; intros pos value Hf Hlen; [lia|].
  cbn [scanString].
  destruct (isEndOfFile (peek src (current pos))) eqn:Heof; cbn [negb andb]; [cbn; lia|].
  apply peek_in_range in Heof.
  destruct (match_ src (current pos) quote); cbn [negb]; [cbn; lia|].
  destruct (peek src (current pos) =? BACKSLASH)%N.
  - destruct (decodeStringLiteralSegment src (current pos)) as [char adv|c] eqn:Hd; [|done].
    apply decoded_advances in Hd.
    eapply scan_ok_le; [|apply IH]; rewrite ?current_iter_advance; lia.
  - eapply scan_ok_le; [|apply IH]; rewrite ?current_advance; lia.
Qed.

Lemma scanComment_ok src fuel pos value :
  (1 <= fuel)%nat -> (length src < fuel + current pos)%nat ->
  scan_ok src pos (scanComment fuel src pos value).
Proof.
  revert pos value. induction fuel as [|fuel IH]; intros pos value Hf Hlen; [lia|].
  cbn [scanComment].
  destruct (isEndOfFile (peek src (current pos))) eqn:Heof; cbn [negb andb]; [cbn; lia|].
  apply peek_in_range in Heof.
  destruct (match_ src (current pos) LF); cbn [negb]; [cbn; lia|].
  eapply scan_ok_le; [|apply IH]; rewrite ?current_advance; lia.
Qed.

Lemma scanNumber_ok src fuel pos value :
  (1 <= fuel)%nat -> (length src < fuel + current pos)%nat ->
  scan_ok src pos (scanNumber fuel src pos value).
Proof.
  revert pos value. induction fuel as [|fuel IH]; intros pos value Hf Hlen; [lia|].
  cbn [scanNumber].
  destruct (isEndOfFile (peek src (current pos))) eqn:Heof; cbn [negb andb]; [cbn; lia|].
  apply peek_in_range in Heof.
  destruct (isDigit (peek src (current pos)) || match_ src (current pos) DOT); [|cbn; lia].
  destruct (match_ src (current pos) DOT && negb (isDigit (lookahead src (current pos) 1)));
    [done|].
  eapply scan_ok_le; [|apply IH]; rewrite ?current_advance; lia.
Qed.

Lemma scanWord_ok src fuel pos value :
  (1 <= fuel)%nat -> (length src < fuel + current pos)%nat ->
  scan_ok src pos (scanWord fuel src pos value).
Proof.
  revert pos value. induction fuel as [|fuel IH]; intros pos value Hf Hlen; [lia|].
  cbn [scanWord].
  destruct (isEndOfFile (peek src (current pos))) eqn:Heof; cbn [negb andb]; [cbn; lia|].
  apply peek_in_range in Heof.
  destruct (isAlphaNumeric (peek src (current pos))); [|cbn; lia].
  eapply scan_ok_le; [|apply IH]; rewrite ?current_advance; lia.
Qed.

(** Only the number loop stops on an error. *)
Lemma scanString_no_error src quote fuel pos value pos' :
  scanString fuel src quote pos value <> ScanError pos'.
Proof.
  revert pos value. induction fuel as [|fuel IH]; intros pos value; [done|].
  cbn [scanString].
  repeat lazymatch goal with
  | |- (if ?c then _ else _) <> _ => destruct c
  | |- match ?x with _ => _ end <> _ => destruct x
  end; done || apply IH.
Qed.

Lemma scanComment_no_error src fuel pos value pos' :
  scanComment fuel src pos value <> ScanError pos'.
Proof.
  revert pos value. induction fuel as [|fuel IH]; intros pos value; [done|].
  cbn [scanComment].
  destruct (_ && _); done || apply IH.
Qed.

Lemma scanWord_no_error src fuel pos value pos' :
  scanWord fuel src pos value <> ScanError pos'.
Proof.
  revert pos value. induction fuel as [|fuel IH]; intros pos value; [done|].
  cbn [scanWord].
  destruct (_ && _); done || apply IH.
Qed.

(** A scan that starts on a character its loop accepts moves forward. *)
Lemma scanComment_moves src fuel pos value pos' value' :
  isEndOfFile (peek src (current pos)) = false ->
  (peek src (current pos) =? MINUS)%N = true ->
  (1 <= fuel)%nat -> (length src < fuel + current pos)%nat ->
  scanComment fuel src pos value = ScanDone pos' value' ->
  (current pos < current pos')%nat.
Proof.
  intros Heof Hch Hf Hlen. destruct fuel as [|fuel]; [lia|]. cbn [scanComment].
  rewrite Heof. cbn [negb andb].
  assert (match_ src (current pos) LF = false) as ->.
  { unfold match_. apply N.eqb_eq in Hch. rewrite Hch. reflexivity. }
  cbn [negb]. intros H. apply peek_in_range in Heof.
  pose proof (scanComment_ok src fuel (advance src pos)
                (value ++ [peek src (current pos)])) as Hok.
  rewrite H in Hok. cbn in Hok. rewrite current_advance in Hok. lia.
Qed.

Lemma scanNumber_moves src fuel pos value pos' value' :
  isEndOfFile (peek src (current pos)) = false ->
  isDigit (peek src (current pos)) = true ->
  (1 <= fuel)%nat -> (length src < fuel + current pos)%nat ->
  scanNumber fuel src pos value = ScanDone pos' value' ->
  (current pos < current pos')%nat.
Proof.
  intros Heof Hch Hf Hlen. destruct fuel as [|fuel]; [lia|]. cbn [scanNumber].
  rewrite Heof, Hch. cbn [negb andb orb].
  destruct (match_ src (current pos) DOT && negb (isDigit (lookahead src (current pos) 1)));
    [discriminate|].
  intros H. apply peek_in_range in Heof.
  pose proof (scanNumber_ok src fuel (advance src pos)
                (value ++ [peek src (current pos)])) as Hok.
  rewrite H in Hok. cbn in Hok. rewrite current_advance in Hok. lia.
Qed.

Lemma scanWord_moves src fuel pos value pos' value' :
  isEndOfFile (peek src (current pos)) = false ->
  isAlpha (peek src (current pos)) = true ->
  (1 <= fuel)%nat -> (length src < fuel + current pos)%nat ->
  scanWord fuel src pos value = ScanDone pos' value' ->
  (current pos < current pos')%nat.
Proof.
  intros Heof Hch Hf Hlen. destruct fuel as [|fuel]; [lia|]. cbn [scanWord].
  unfold isAlphaNumeric. rewrite Heof, Hch. cbn [negb andb orb].
  intros H. apply peek_in_range in Heof.
  pose proof (scanWord_ok src fuel (advance src pos)
                (value ++ [peek src (current pos)])) as Hok.
  rewrite H in Hok. cbn in Hok. rewrite current_advance in Hok. lia.
Qed.

Section TokenizeFacts.

Variable tokenTypes : jsstring -> string.
Variable keywords : jsstring -> option string.

(** What a call of [tokenize] that returns gives back: tokens that end
    with an EOF token. *)
Definition ends_with_EOF (r : Result) : Prop :=
  match r with
  | Returned tokens _ =>
      exists before eof, tokens = before ++ [eof] /\ type eof = "EOF"%string /\ value eof = []
  | Thrown _ => True
  | OutOfFuel => False
  end.

Lemma tokenizeLoop_ends_with_EOF src fuel pos tokens :
  (1 <= fuel)%nat -> (length src < fuel + current pos)%nat ->
  ends_with_EOF (tokenizeLoop tokenTypes keywords fuel src pos tokens).
Proof.
  revert pos tokens. induction fuel as [|fuel IH]; intros pos tokens Hf Hlen; [lia|].
  cbn [tokenizeLoop].
  destruct (isEndOfFile (peek src (current pos))) eqn:Heof.
  { cbn. eauto. }
  pose proof (peek_in_range _ _ Heof) as Hlt.
  assert (Hrec : forall pos' toks, (current pos < current pos')%nat ->
            ends_with_EOF (tokenizeLoop tokenTypes keywords fuel src pos' toks)).
  { intros pos' toks Hlt'. apply IH; lia. }
  assert (Hscan_fuel : (1 <= S (length src))%nat) by lia.
  repeat lazymatch goal with
  | |- ends_with_EOF (if ?c then _ else _) => destruct c eqn:?
  end.
  all: try (apply Hrec; rewrite ?current_advance; lia).
  all: try (cbn; eauto; fail).
  - (* string literal *)
    pose proof (scanString_ok src (peek src (current pos)) (S (length src))
                  (advance src pos) [] Hscan_fuel ltac:(lia)) as Hok.
    destruct (scanString _ _ _ _ _) as [pos' value'|pos'| |] eqn:Hs; cbn in Hok; try done.
    2: { now apply scanString_no_error in Hs. }
    rewrite current_advance in Hok.
    destruct (isEndOfFile (peek src (current pos'))); [cbn; eauto|].
    apply Hrec. rewrite current_advance. lia.
  - (* comment *)
    pose proof (scanComment_ok src (S (length src)) pos [] Hscan_fuel ltac:(lia)) as Hok.
    destruct (scanComment _ _ _ _) as [pos' value'|pos'| |] eqn:Hs; cbn in Hok; try done.
    2: { now apply scanComment_no_error in Hs. }
    apply Hrec. eapply scanComment_moves; eauto. lia.
  - (* number *)
    pose proof (scanNumber_ok src (S (length src)) pos [] Hscan_fuel ltac:(lia)) as Hok.
    destruct (scanNumber _ _ _ _) as [pos' value'|pos'| |] eqn:Hs; cbn in Hok; try done.
    + apply Hrec. eapply scanNumber_moves; eauto. lia.
    + cbn. eauto.
  - (* identifier or keyword *)
    pose proof (scanWord_ok src (S (length src)) pos [] Hscan_fuel ltac:(lia)) as Hok.
    destruct (scanWord _ _ _ _) as [pos' value'|pos'| |] eqn:Hs; cbn in Hok; try done.
    2: { now apply scanWord_no_error in Hs. }
    apply Hrec. eapply scanWord_moves; eauto. lia.
Qed.

(** Whenever [tokenize] returns, on the success path or with an error,
    the token list it returns ends with an EOF token of empty value; and
    the model's fuel is enough for every source. *)
Lemma tokenize_returns_EOF_last src :
  ends_with_EOF (tokenize tokenTypes keywords src).
Proof. apply tokenizeLoop_ends_with_EOF; cbn; lia. Qed.

(** The source text ["\u{110000}"], a string literal with an escape for
    a code point above U+10FFFF. *)
Definition invalidCodePointSource : jsstring :=
  [DQUOTE; BACKSLASH; 117; LBRACE; 49; 49; 48; 48; 48; 48; RBRACE; DQUOTE]%N.

(** C10 fails on that source: [String.fromCodePoint(0x110000)] throws a
    [RangeError] that [tokenize] does not catch, so no token list is
    returned. *)
Theorem tokenize_invalid_code_point_throws :
  tokenize tokenTypes keywords invalidCodePointSource
  = Thrown "RangeError: Invalid code point".
Proof. reflexivity. Qed.

End TokenizeFacts.

End LexerFacts.

(** ** Emitted bytes as structured code *)

Lemma encodes_nil : encodes [] = [].
Proof. reflexivity. Qed.

Lemma encodes_cons i code : encodes (i :: code) = encode i ++ encodes code.
Proof. reflexivity. Qed.

Lemma encodes_app a b : encodes (a ++ b) = encodes a ++ encodes b.
Proof. unfold encodes. now rewrite map_app, concat_app. Qed.

Lemma encodes_one i : encodes [i] = encode i.
Proof. unfold encodes. cbn. apply app_nil_r. Qed.

Lemma encode_Block bt body :
  encode (Block bt body) = [0x02; bt] ++ encodes body ++ Wasm.block.end_.
Proof. reflexivity. Qed.

Lemma encode_Loop bt body :
  encode (Loop bt body) = [0x03; bt] ++ encodes body ++ Wasm.loop.end_.
Proof. reflexivity. Qed.

Lemma encode_If bt t e :
  encode (If bt t (Some e))
  = Wasm.if_.start bt ++ encodes t ++ Wasm.if_.else_ ++ encodes e ++ Wasm.if_.end_.
Proof. cbn [encode]. fold (encodes t). fold (encodes e). now rewrite <- !app_assoc. Qed.

Lemma encode_If_no_else bt t :
  encode (If bt t None) = Wasm.if_.start bt ++ encodes t ++ Wasm.if_.end_.
Proof. reflexivity. Qed.

(** Rewrites the encoding of structured code into a right-nested
    concatenation of the encoders' outputs. *)
Ltac flatten_code :=
  repeat first
    [ rewrite encodes_app | rewrite encodes_cons | rewrite encodes_nil
    | rewrite encode_Block | rewrite encode_Loop | rewrite encode_If
    | rewrite encode_If_no_else ];
  cbn [encode];
  rewrite <- ?app_assoc, ?app_nil_r; cbn [app].

(** The index of a function of the catalogue does not depend on the
    user-defined functions. *)
Lemma indexOfName_app x l l' i :
  indexOfName x l = Some i -> indexOfName x (l ++ l') = Some i.
Proof.
  revert i. induction l as [|f l IH]; intros i; [discriminate|].
  cbn [indexOfName app]. destruct (String.eqb (fn_name f) x); [done|].
  destruct (indexOfName x l) as [j|]; [|discriminate].
  intros [= <-]. now rewrite (IH j).
Qed.

Lemma func_catalogue st x :
  is_Some (indexOfName x (importFunctions ++ definedFunctions)) ->
  func st x = helper x.
Proof.
  intros [i Hi]. unfold helper, func, allFunctions.
  rewrite !app_assoc.
  rewrite (indexOfName_app _ _ (userDefinedFunctions st) _ Hi).
  now rewrite (indexOfName_app _ _ (userDefinedFunctions catalogueState) _ Hi).
Qed.

Ltac to_helpers :=
  repeat match goal with
  | |- context [func ?st ?x] =>
      rewrite (func_catalogue st x) by (eexists; reflexivity)
  | H : context [func ?st ?x] |- _ =>
      rewrite (func_catalogue st x) in H by (eexists; reflexivity)
  end.

(** ** Facts about runs *)

Module RunFacts.
Import Run.

Section RunFacts.

Variable f64op : Z -> list val -> option (list val).
Variable numberHelper : string -> list val -> store -> option (list val * store).
Variable functions : nat -> option fundef.

Local Abbreviation exec := (exec f64op numberHelper functions).

(** Running a sequence runs its first part and then, with some of the
    fuel, the rest. *)
Lemma exec_app fuel a b c :
  exists fuel',
    (fuel' <= fuel)%nat
    /\ exec fuel (a ++ b) c
       = match exec fuel a c with
         | Normal c' => exec fuel' b c'
         | o => o
         end.
Proof.
  revert a c. induction fuel as [|fuel IH]; intros a c.
  - exists O. split; [done|]. cbn. now destruct (a ++ b), a.
  - destruct a as [|i a].
    + exists (S fuel). split; [done|]. reflexivity.
    + cbn [app].
      assert (Hstep : forall a0 c0, exists fuel', (fuel' <= S fuel)%nat /\
                exec fuel (a0 ++ b) c0
                = match exec fuel a0 c0 with
                  | Normal c' => exec fuel' b c'
                  | o => o
                  end).
      { intros a0 c0. destruct (IH a0 c0) as (f' & Hle & Heq). exists f'. split; [lia|done]. }
      assert (Hloop : forall bt body c0, exists fuel', (fuel' <= S fuel)%nat /\
                exec fuel (Loop bt body :: a ++ b) c0
                = match exec fuel (Loop bt body :: a) c0 with
                  | Normal c' => exec fuel' b c'
                  | o => o
                  end).
      { intros bt body c0. apply (Hstep (Loop bt body :: a)). }
      destruct i; cbn [Run.exec];
        repeat match goal with
        | |- context [match ?x with _ => _ end] =>
            lazymatch x with
            | context [a] => fail
            | _ => destruct x eqn:?
            end
        end;
        try apply Hstep; try apply Hloop;
        try (exists O; split; [lia|reflexivity]).
Qed.

(** *** Fuel

    A run that has ended is not changed by more fuel. *)

Lemma exec_S fuel code c :
  ended (exec fuel code c) = true -> exec (S fuel) code c = exec fuel code c.
Proof.
  revert code c. induction fuel as [|f IH]; intros code c Hd; [discriminate|].
  destruct code as [|i rest]; [reflexivity|].
  remember (exec (S f) (i :: rest) c) as o eqn:Ho.
  cbn [Run.exec] in Ho.
  remember (S f) as g eqn:Hg. cbn [Run.exec]. subst g.
  destruct i;
    repeat match type of Ho with
    | context [match exec f ?code ?c0 with _ => _ end] =>
        let E := fresh "E" in
        destruct (exec f code c0) eqn:E;
        try (rewrite (IH code c0) by (rewrite E; reflexivity); rewrite E)
    | context [match ?x with _ => _ end] => destruct x eqn:?
    end;
    try (subst o; discriminate Hd);
    try (symmetry; exact Ho);
    try (rewrite IH by (rewrite <- Ho; exact Hd); symmetry; exact Ho).
Qed.

Lemma exec_mono fuel fuel' code c :
  (fuel <= fuel')%nat -> ended (exec fuel code c) = true ->
  exec fuel' code c = exec fuel code c.
Proof.
  induction 1 as [|fuel' _ IH]; intros Hd; [reflexivity|].
  rewrite exec_S; rewrite IH; auto.
Qed.

Lemma exec_seq f1 : forall a c c1 f2 b o,
  exec f1 a c = Normal c1 -> exec f2 b c1 = o -> ended o = true ->
  exec (f1 + f2) (a ++ b) c = o.
Proof.
  induction f1 as [|f IH]; intros a c c1 f2 b o H Hb Hd; [discriminate|].
  destruct a as [|i a].
  - injection H as <-. cbn [app]. rewrite <- Hb.
    apply exec_mono; [lia|now rewrite Hb].
  - cbn [Run.exec] in H. change (S f + f2)%nat with (S (f + f2)).
    cbn [app Run.exec].
    destruct i;
      repeat match type of H with
      | context [match exec f ?code ?c0 with _ => _ end] =>
          let E := fresh "E" in
          destruct (exec f code c0) eqn:E;
          try (rewrite (exec_mono f (f + f2) code c0) by (try lia; rewrite E; reflexivity);
               rewrite E)
      | context [match ?x with _ => _ end] => destruct x eqn:?
      end;
      try discriminate H;
      try (eapply IH; eassumption);
      try (apply (IH (Loop _ _ :: a) _ _ _ _ _ H Hb Hd)).
Qed.

Lemma runs_app a b c c1 o :
  runs f64op numberHelper functions a c (Normal c1) ->
  runs f64op numberHelper functions b c1 o ->
  runs f64op numberHelper functions (a ++ b) c o.
Proof.
  intros (f1 & H1 & _) (f2 & H2 & Hd).
  exists (f1 + f2)%nat. split; [|exact Hd].
  eapply exec_seq; eassumption.
Qed.

(** *** What code without ghost instructions and without writes to a
    slot leaves alone *)

Hypothesis numberHelper_ticks : forall x args s r s',
  numberHelper x args s = Some (r, s') -> ticks s' = ticks s.
Hypothesis functions_tick_free : forall k f,
  functions k = Some f -> forallb tick_free (f_code f) = true.

Lemma callHelper_ticks x args s r s' :
  callHelper numberHelper x args s = Some (r, s') -> ticks s' = ticks s.
Proof.
  unfold callHelper, tagIs, alloc.
  repeat match goal with
  | |- (if ?b then _ else _) = _ -> _ => destruct b
  | |- match ?x with _ => _ end = _ -> _ => destruct x
  end; try discriminate; try (intros [= <- <-]; reflexivity).
  apply numberHelper_ticks.
Qed.

Ltac split_forallb H :=
  cbn [forallb tick_free locals_below] in H;
  repeat match type of H with
  | (_ && _) = true =>
      let H1 := fresh H in apply andb_prop in H as [H H1]
  end.

Lemma exec_ticks fuel code c :
  forallb tick_free code = true ->
  ticks (sto (final (exec fuel code c))) = ticks (sto c).
Proof.
  revert code c. induction fuel as [|fuel IH]; intros code c Hfree; [reflexivity|].
  destruct code as [|i rest]; [reflexivity|].
  cbn [forallb] in Hfree. apply andb_prop in Hfree as [Hi Hrest].
  destruct i; cbn [Run.exec]; cbn [tick_free] in Hi; try discriminate.
  all: repeat match goal with
       | |- context [match Run.exec _ _ _ ?f ?code0 ?c0 with _ => _ end] =>
           let H := fresh "Hsub" in
           assert (H : ticks (sto (final (exec f code0 c0))) = ticks (sto c0))
             by (apply IH; try assumption; eauto;
                 repeat match goal with
                        | H : (_ && _) = true |- _ => apply andb_prop in H as [? ?]
                        end;
                 try assumption;
                 match goal with
                 | |- forallb tick_free (if ?b then _ else _) = true => destruct b
                 end;
                 try assumption;
                 match goal with
                 | H : match ?e with _ => _ end = true |- forallb tick_free (default [] ?e) = true =>
                     destruct e; [exact H|reflexivity]
                 end);
           destruct (Run.exec f64op numberHelper functions f code0 c0) eqn:?;
           cbn [final] in H
       | |- context [match ?x with _ => _ end] => destruct x eqn:?
       | |- context [if ?x then _ else _] => destruct x eqn:?
       end.
  all: try reflexivity.
  all: try (rewrite IH
              by (cbn [forallb tick_free]; try assumption; rewrite ?Hi, ?Hrest; reflexivity)).
  all: try match goal with
           | H : callHelper _ _ _ _ = Some _ |- _ => apply callHelper_ticks in H
           end.
  all: cbn in *; congruence.
Qed.

Lemma get_local_with_stack k s c : get_local k (with_stack s c) = get_local k c.
Proof. reflexivity. Qed.

Lemma get_local_push k v c : get_local k (push v c) = get_local k c.
Proof. reflexivity. Qed.

Lemma get_local_leave k bt s c : get_local k (leave bt s c) = get_local k c.
Proof. reflexivity. Qed.

Lemma get_local_set_local k n c : get_local k (set_local k n c) = n.
Proof. unfold get_local, set_local. cbn. now rewrite lookup_insert_eq. Qed.

Lemma get_local_set_local_ne k i n c :
  i <> k -> get_local k (set_local i n c) = get_local k c.
Proof. intros Hne. unfold get_local, set_local. cbn. now rewrite lookup_insert_ne. Qed.

Lemma exec_local n k fuel code c :
  forallb (locals_below n) code = true -> (n <= k)%nat ->
  get_local k (final (exec fuel code c)) = get_local k c.
Proof.
  intros Hbelow Hk. revert code c Hbelow.
  induction fuel as [|fuel IH]; intros code c Hbelow; [reflexivity|].
  destruct code as [|i rest]; [reflexivity|].
  cbn [forallb] in Hbelow. apply andb_prop in Hbelow as [Hi Hrest].
  destruct i; cbn [Run.exec]; cbn [locals_below] in Hi.
  all: repeat match goal with
       | |- context [match Run.exec _ _ _ ?f ?code0 ?c0 with _ => _ end] =>
           lazymatch code0 with
           | f_code _ => idtac
           | _ =>
             let H := fresh "Hsub" in
             assert (H : get_local k (final (exec f code0 c0)) = get_local k c0)
               by (apply IH; try assumption;
                   repeat match goal with
                          | H : (_ && _) = true |- _ => apply andb_prop in H as [? ?]
                          end;
                   try assumption;
                   match goal with
                   | |- forallb _ (if ?b then _ else _) = true => destruct b
                   end;
                   try assumption;
                   match goal with
                   | H : match ?e with _ => _ end = true |- forallb _ (default [] ?e) = true =>
                       destruct e; [exact H|reflexivity]
                   end)
           end;
           destruct (Run.exec f64op numberHelper functions f code0 c0) eqn:?;
           cbn [final] in *
       | |- context [match ?x with _ => _ end] => destruct x eqn:?
       | |- context [if ?x then _ else _] => destruct x eqn:?
       end.
  all: try reflexivity.
  all: try (rewrite IH
              by (cbn [forallb locals_below]; try assumption; rewrite ?Hi, ?Hrest; reflexivity)).
  all: try (rewrite get_local_set_local_ne by (apply Nat.ltb_lt in Hi; lia)).
  all: unfold get_local, leave, with_stack, with_store, push in *; cbn in *; congruence.
Qed.

(** *** Conditionals and helper calls *)

Lemma runs_If bt T E c n s o :
  stack c = VI32 n :: s ->
  runs f64op numberHelper functions
    (if n =? 0 then default [] E else T) (with_stack [] c) o ->
  runs f64op numberHelper functions [If bt T E] c (afterBlock bt s o).
Proof.
  intros Hs (f & H & Hd). exists (S (S f)).
  remember (S f) as g eqn:Hg. cbn [Run.exec]. subst g. rewrite Hs.
  rewrite (exec_mono f (S f)) by (try lia; now rewrite H). rewrite H.
  destruct o as [c'|[|d] c'|c'|c'|c'|c']; try discriminate Hd; cbn; auto.
Qed.

Lemma helper_is_truthy :
  (importFunctions ++ definedFunctions) !! helper "is_truthy"
  = Some {| fn_name := "is_truthy"; fn_type := sig [Wasm.I32] [Wasm.I32] |}.
Proof. reflexivity. Qed.

Lemma helper_box_nil :
  (importFunctions ++ definedFunctions) !! helper "box_nil"
  = Some {| fn_name := "box_nil"; fn_type := sig [] [Wasm.I32] |}.
Proof. reflexivity. Qed.

(** The code after the left operand of an [and] or an [or]: the operand
    is stored, tested, and the arm chosen by its truthiness runs. *)
Lemma runs_choice scratch T E c1 p s v o :
  functions (helper "is_truthy") = None ->
  stack c1 = VI32 p :: s ->
  heap (sto c1) !! p = Some v ->
  runs f64op numberHelper functions
    (if truthy v then T else E)
    (with_stack [] (set_local scratch p (with_stack s c1))) o ->
  runs f64op numberHelper functions
    [LocalSet scratch; LocalGet scratch; Call (helper "is_truthy");
     If (Wasm.valType Wasm.I32) T (Some E)] c1
    (afterBlock (Wasm.valType Wasm.I32) s o).
Proof.
  intros Hfn Hs Hv Hrun.
  pose proof (runs_If (Wasm.valType Wasm.I32) T (Some E)
    (mkConfig (<[scratch := p]> (locals c1))
       (VI32 (if truthy v then 1 else 0) :: s) (sto c1))
    (if truthy v then 1 else 0) s o eq_refl) as HIf.
  destruct HIf as (f & H & Hd).
  { destruct (truthy v); exact Hrun. }
  exists (S (S (S f))). split; [|exact Hd].
  cbn [Run.exec]. rewrite Hs. cbn [Run.exec].
  rewrite Hfn, helper_is_truthy.
  cbn [fn_type fparams length fn_name push with_stack stack set_local sto locals].
  unfold popArgs. rewrite get_local_set_local.
  change (length (fparams (sig [Wasm.I32] [Wasm.I32]))) with 1%nat.
  cbn [length Nat.leb take drop rev app]. rewrite take_0, drop_0. cbn [rev app].
  unfold callHelper. cbn [String.eqb Ascii.eqb Bool.eqb orb andb].
  unfold tagIs. rewrite Hv. cbn [app]. exact H.
Qed.

(** The arm that reads the stored operand back leaves it as the result. *)
Lemma runs_stored scratch c1 p s :
  stack c1 = VI32 p :: s ->
  afterBlock (Wasm.valType Wasm.I32) s
    (Normal (push (VI32 (get_local scratch
                           (with_stack [] (set_local scratch p (with_stack s c1)))))
               (with_stack [] (set_local scratch p (with_stack s c1)))))
  = Normal (set_local scratch p c1).
Proof.
  intros Hs. rewrite get_local_with_stack, get_local_set_local.
  unfold afterBlock, leave, set_local, push, with_stack. cbn. now rewrite Hs.
Qed.

Section ShortCircuit.

Variables (scratch : nat) (L R : list instr).
Variables (c c1 : config) (p : Z) (s : list val) (v : boxed).
Hypothesis is_truthy_helper : functions (helper "is_truthy") = None.
Hypothesis left_runs : runs f64op numberHelper functions L c (Normal c1).
Hypothesis left_value : stack c1 = VI32 p :: s.
Hypothesis left_box : heap (sto c1) !! p = Some v.

Local Abbreviation stored := (with_stack [] (set_local scratch p (with_stack s c1))).

Lemma runs_stored_arm :
  runs f64op numberHelper functions [LocalGet scratch] stored
    (Normal (push (VI32 (get_local scratch stored)) stored)).
Proof. exists 2%nat. split; reflexivity. Qed.

Lemma runs_and_truthy o :
  truthy v = true ->
  runs f64op numberHelper functions R stored o ->
  runs f64op numberHelper functions (andCode scratch L R) c
    (afterBlock (Wasm.valType Wasm.I32) s o).
Proof.
  intros Ht Hr. unfold andCode. eapply runs_app; [exact left_runs|].
  eapply runs_choice; eauto. now rewrite Ht.
Qed.

Lemma runs_and_falsy :
  truthy v = false ->
  runs f64op numberHelper functions (andCode scratch L R) c
    (Normal (set_local scratch p c1)).
Proof.
  intros Ht. unfold andCode. eapply runs_app; [exact left_runs|].
  rewrite <- (runs_stored scratch c1 p s left_value).
  eapply runs_choice; eauto. rewrite Ht. apply runs_stored_arm.
Qed.

Lemma runs_or_truthy :
  truthy v = true ->
  runs f64op numberHelper functions (orCode scratch L R) c
    (Normal (set_local scratch p c1)).
Proof.
  intros Ht. unfold orCode. eapply runs_app; [exact left_runs|].
  rewrite <- (runs_stored scratch c1 p s left_value).
  eapply runs_choice; eauto. rewrite Ht. apply runs_stored_arm.
Qed.

Lemma runs_or_falsy o :
  truthy v = false ->
  runs f64op numberHelper functions R stored o ->
  runs f64op numberHelper functions (orCode scratch L R) c
    (afterBlock (Wasm.valType Wasm.I32) s o).
Proof.
  intros Ht Hr. unfold orCode. eapply runs_app; [exact left_runs|].
  eapply runs_choice; eauto. now rewrite Ht.
Qed.

End ShortCircuit.

Lemma helper_box_number :
  (importFunctions ++ definedFunctions) !! helper "box_number"
  = Some {| fn_name := "box_number"; fn_type := sig [Wasm.F64] [Wasm.I32] |}.
Proof. reflexivity. Qed.

(** The default step leaves a fresh box holding the double [1]. *)
Lemma runs_defaultStep c :
  functions (helper "box_number") = None ->
  exists c',
    runs f64op numberHelper functions defaultStep c (Normal c')
    /\ stack c' = VI32 (heap_ptr (sto c)) :: stack c
    /\ heap (sto c') !! heap_ptr (sto c) = Some (BNumber f64_one)
    /\ locals c' = locals c.
Proof.
  intros Hfn. eexists. split.
  - exists 3%nat. split; [|reflexivity]. unfold defaultStep.
    cbn [Run.exec]. rewrite Hfn, helper_box_number.
    cbn [fn_type fparams length fn_name push with_stack stack sto locals].
    change (length (fparams (sig [Wasm.F64] [Wasm.I32]))) with 1%nat.
    unfold popArgs. cbn [length Nat.leb take drop rev app].
    rewrite take_0, drop_0. cbn [rev app]. reflexivity.
  - cbn. rewrite lookup_insert_eq. auto.
Qed.

(** A function body that falls through returns a fresh box holding
    [nil]. *)
Lemma runs_functionCode B c c1 :
  functions (helper "box_nil") = None ->
  runs f64op numberHelper functions B c (Normal c1) ->
  exists c',
    runs f64op numberHelper functions (functionCode B) c (Returned c')
    /\ stack c' = VI32 (heap_ptr (sto c1)) :: stack c1
    /\ heap (sto c') !! heap_ptr (sto c1) = Some BNil.
Proof.
  intros Hfn HB. eexists. split.
  - unfold functionCode. eapply runs_app; [exact HB|].
    exists 2%nat. split; [|reflexivity].
    cbn [Run.exec]. rewrite Hfn, helper_box_nil.
    cbn [fn_type fparams length fn_name].
    change (length (fparams (sig [] [Wasm.I32]))) with 0%nat.
    unfold popArgs. cbn [Nat.leb]. rewrite take_0, drop_0. cbn [rev app].
    reflexivity.
  - cbn. rewrite lookup_insert_eq. auto.
Qed.

(** *** The dispatch of [+]

    On operands that are values: code that, whatever the store and the
    stack, pushes one pointer and changes nothing. *)

Lemma runs_call_helper x f c args s results s' :
  (importFunctions ++ definedFunctions) !! helper x = Some f ->
  functions (helper x) = None ->
  popArgs (length (fparams (fn_type f))) (stack c) = Some (args, s) ->
  callHelper numberHelper (fn_name f) args (sto c) = Some (results, s') ->
  runs f64op numberHelper functions [Call (helper x)] c
    (Normal (mkConfig (locals c) (results ++ s) s')).
Proof.
  intros Hcat Hfn Hpop Hcall. exists 2%nat. split; [|reflexivity].
  cbn [Run.exec]. rewrite Hcat, Hfn, Hpop, Hcall. reflexivity.
Qed.

Lemma popArgs_0 s : popArgs 0 s = Some ([], s).
Proof. unfold popArgs. cbn [Nat.leb]. now rewrite take_0, drop_0. Qed.

Lemma popArgs_1 v s : popArgs 1 (v :: s) = Some ([v], s).
Proof. unfold popArgs. cbn [length Nat.leb take drop]. now rewrite take_0, drop_0. Qed.

Lemma popArgs_2 a b s : popArgs 2 (b :: a :: s) = Some ([a; b], s).
Proof. unfold popArgs. cbn [length Nat.leb take drop]. now rewrite take_0, drop_0. Qed.

(** The read of a variable is a value. *)
Lemma runs_LocalGet i locs c :
  locals c = locs ->
  runs f64op numberHelper functions [LocalGet i] c
    (Normal (push (VI32 (default 0 (locs !! i))) c)).
Proof. intros <-. exists 2%nat. split; reflexivity. Qed.

Lemma runs_numeric op c s :
  numeric f64op op (stack c) = Some s ->
  runs f64op numberHelper functions [Numeric op] c (Normal (with_stack s c)).
Proof.
  intros H. exists 2%nat. split; [|reflexivity]. cbn [Run.exec]. now rewrite H.
Qed.

Section PlusDispatch.

Variables (L R : list instr) (locs : gmap nat Z) (pl pr : Z).
Hypothesis L_value : forall c,
  locals c = locs -> runs f64op numberHelper functions L c (Normal (push (VI32 pl) c)).
Hypothesis R_value : forall c,
  locals c = locs -> runs f64op numberHelper functions R c (Normal (push (VI32 pr) c)).
Hypothesis helpers : forall x, functions (helper x) = None.

Variables (c : config) (vl vr : boxed).
Hypothesis c_locals : locals c = locs.
Hypothesis left_box : heap (sto c) !! pl = Some vl.
Hypothesis right_box : heap (sto c) !! pr = Some vr.

(** Both operands and a tag test of each, or-ed. *)
Lemma runs_tags x test c0 :
  x = "is_string" /\ test = isString \/ x = "is_bool" /\ test = isBool ->
  locals c0 = locs -> sto c0 = sto c ->
  runs f64op numberHelper functions
    (L ++ [Call (helper x)] ++ R ++ [Call (helper x); Numeric 0x72]) c0
    (Normal (push (VI32 (Z.lor (if test vl then 1 else 0) (if test vr then 1 else 0))) c0)).
Proof.
  intros Hx Hlocs Hsto.
  eapply runs_app; [apply L_value; exact Hlocs|].
  eapply runs_app.
  { eapply (runs_call_helper x _ _ [VI32 pl] (stack c0)
              [VI32 (if test vl then 1 else 0)] (sto c)).
    - destruct Hx as [[-> _]|[-> _]]; reflexivity.
    - apply helpers.
    - destruct Hx as [[-> _]|[-> _]]; apply popArgs_1.
    - destruct Hx as [[-> ->]|[-> ->]]; cbn [push with_stack sto fn_name];
        rewrite ?Hsto; unfold callHelper; cbn [String.eqb Ascii.eqb Bool.eqb];
        unfold tagIs; rewrite left_box; reflexivity. }
  eapply runs_app; [apply R_value; exact Hlocs|].
  eapply (runs_app [Call (helper x)] [Numeric 0x72]).
  { eapply (runs_call_helper x _ _ [VI32 pr]
              (VI32 (if test vl then 1 else 0) :: stack c0)
              [VI32 (if test vr then 1 else 0)] (sto c)).
    - destruct Hx as [[-> _]|[-> _]]; reflexivity.
    - apply helpers.
    - destruct Hx as [[-> _]|[-> _]]; apply popArgs_1.
    - destruct Hx as [[-> ->]|[-> ->]]; cbn [push with_stack sto fn_name];
        rewrite ?Hsto; unfold callHelper; cbn [String.eqb Ascii.eqb Bool.eqb];
        unfold tagIs; rewrite right_box; reflexivity. }
  cbn [push with_stack locals stack sto app].
  match goal with
  | |- runs _ _ _ _ ?c1 (Normal ?c2) =>
      replace c2 with (with_stack
        (VI32 (Z.lor (if test vl then 1 else 0) (if test vr then 1 else 0)) :: stack c0) c1)
  end.
  - apply runs_numeric. reflexivity.
  - unfold push, with_stack. cbn. now rewrite Hsto.
Qed.

Lemma runs_nil c0 : runs f64op numberHelper functions [] c0 (Normal c0).
Proof. exists 1%nat. split; reflexivity. Qed.

Lemma runs_cons i rest c0 c1 o :
  runs f64op numberHelper functions [i] c0 (Normal c1) ->
  runs f64op numberHelper functions rest c1 o ->
  runs f64op numberHelper functions (i :: rest) c0 o.
Proof. apply (runs_app [i] rest). Qed.

Lemma runs_call x f locs0 stk s0 args rest results s' out :
  (importFunctions ++ definedFunctions) !! helper x = Some f ->
  popArgs (length (fparams (fn_type f))) stk = Some (args, rest) ->
  callHelper numberHelper (fn_name f) args s0 = Some (results, s') ->
  out = results ++ rest ->
  runs f64op numberHelper functions [Call (helper x)] (mkConfig locs0 stk s0)
    (Normal (mkConfig locs0 out s')).
Proof.
  intros Hcat Hpop Hcall ->.
  apply (runs_call_helper x f (mkConfig locs0 stk s0) args rest results s');
    auto.
Qed.

Ltac value_step H :=
  eapply runs_app; [apply H; cbn [locals]; first [assumption|reflexivity]|];
  unfold push, with_stack; cbn [locals stack sto app].

Ltac helper_step name :=
  eapply runs_cons;
  [ eapply (runs_call name);
    [ reflexivity
    | first [apply popArgs_1 | apply popArgs_2 | apply popArgs_0]
    | unfold callHelper; cbn [String.eqb Ascii.eqb Bool.eqb orb fn_name];
      first [eassumption | reflexivity | idtac]
    | reflexivity ]
  | ]; cbn [app].

(** The three arms, run inside their [if]. *)
Lemma runs_concat_arm c0 q s' :
  locals c0 = locs -> stack c0 = [] ->
  numberHelper "concat" [VI32 pl; VI32 pr] (sto c0) = Some ([VI32 q], s') ->
  runs f64op numberHelper functions (L ++ R ++ [Call (helper "concat")]) c0
    (Normal (mkConfig locs [VI32 q] s')).
Proof.
  intros Hlocs Hstack Hconcat.
  value_step L_value. value_step R_value. rewrite Hstack, Hlocs.
  helper_step "concat". apply runs_nil.
Qed.

Lemma runs_bool_arm c0 ql xl s1 qr xr s2 sum :
  locals c0 = locs -> stack c0 = [] ->
  numberHelper "to_number" [VI32 pl] (sto c0) = Some ([VI32 ql], s1) ->
  heap s1 !! ql = Some (BNumber xl) ->
  numberHelper "to_number" [VI32 pr] s1 = Some ([VI32 qr], s2) ->
  heap s2 !! qr = Some (BNumber xr) ->
  f64op 0xA0 [VF64 xr; VF64 xl] = Some [VF64 sum] ->
  runs f64op numberHelper functions
    (L ++ [Call (helper "to_number"); Call (helper "unbox_number")]
     ++ R ++ [Call (helper "to_number"); Call (helper "unbox_number");
              Numeric 0xA0; Call (helper "box_number")]) c0
    (Normal (mkConfig locs [VI32 (heap_ptr s2)] (snd (alloc (BNumber sum) s2)))).
Proof.
  intros Hlocs Hstack Hl Hxl Hr Hxr Hsum.
  value_step L_value. rewrite Hstack, Hlocs.
  helper_step "to_number". helper_step "unbox_number"; [now rewrite Hxl|].
  value_step R_value.
  helper_step "to_number". helper_step "unbox_number"; [now rewrite Hxr|].
  eapply runs_cons; [apply runs_numeric; cbn [stack]; exact Hsum|].
  unfold with_stack; cbn [locals stack sto].
  helper_step "box_number". apply runs_nil.
Qed.

Lemma runs_number_arm c0 xl xr sum :
  locals c0 = locs -> stack c0 = [] ->
  heap (sto c0) !! pl = Some (BNumber xl) ->
  heap (sto c0) !! pr = Some (BNumber xr) ->
  f64op 0xA0 [VF64 xr; VF64 xl] = Some [VF64 sum] ->
  runs f64op numberHelper functions
    (L ++ [Call (helper "unbox_number")]
     ++ R ++ [Call (helper "unbox_number"); Numeric 0xA0; Call (helper "box_number")]) c0
    (Normal (mkConfig locs [VI32 (heap_ptr (sto c0))]
               (snd (alloc (BNumber sum) (sto c0))))).
Proof.
  intros Hlocs Hstack Hxl Hxr Hsum.
  value_step L_value. rewrite Hstack, Hlocs.
  helper_step "unbox_number"; [now rewrite Hxl|].
  value_step R_value.
  helper_step "unbox_number"; [now rewrite Hxr|].
  eapply runs_cons; [apply runs_numeric; cbn [stack]; exact Hsum|].
  unfold with_stack; cbn [locals stack sto].
  helper_step "box_number". apply runs_nil.
Qed.

(** A tag test of both operands and the [if] on it. *)
Lemma runs_test_if x test c0 T E o :
  x = "is_string" /\ test = isString \/ x = "is_bool" /\ test = isBool ->
  locals c0 = locs -> sto c0 = sto c ->
  runs f64op numberHelper functions
    (if test vl || test vr then T else E) (with_stack [] c0) o ->
  runs f64op numberHelper functions
    (L ++ [Call (helper x)] ++ R
       ++ [Call (helper x); Numeric 0x72; If (Wasm.valType Wasm.I32) T (Some E)]) c0
    (afterBlock (Wasm.valType Wasm.I32) (stack c0) o).
Proof.
  intros Hx Hlocs Hsto Hbody.
  replace (L ++ [Call (helper x)] ++ R
             ++ [Call (helper x); Numeric 0x72; If (Wasm.valType Wasm.I32) T (Some E)])
    with ((L ++ [Call (helper x)] ++ R ++ [Call (helper x); Numeric 0x72])
            ++ [If (Wasm.valType Wasm.I32) T (Some E)])
    by (rewrite <- !app_assoc; reflexivity).
  eapply runs_app; [apply (runs_tags x test c0 Hx Hlocs Hsto)|].
  eapply runs_If; [reflexivity|].
  destruct (test vl), (test vr); exact Hbody.
Qed.

(** Either operand is a string: [concat]. *)
Lemma runs_plus_string q s' :
  isString vl || isString vr = true ->
  numberHelper "concat" [VI32 pl; VI32 pr] (sto c) = Some ([VI32 q], s') ->
  runs f64op numberHelper functions (plusCode L R) c
    (Normal (mkConfig locs (VI32 q :: stack c) s')).
Proof.
  intros Htag Hconcat.
  pose proof (runs_test_if "is_string" isString c
    (L ++ R ++ [Call (helper "concat")])
    (L ++ [Call (helper "is_bool")] ++ R ++ [Call (helper "is_bool"); Numeric 0x72;
      If (Wasm.valType Wasm.I32)
        (L ++ [Call (helper "to_number"); Call (helper "unbox_number")]
         ++ R ++ [Call (helper "to_number"); Call (helper "unbox_number");
                  Numeric 0xA0; Call (helper "box_number")])
        (Some
           (L ++ [Call (helper "unbox_number")]
            ++ R ++ [Call (helper "unbox_number");
                     Numeric 0xA0; Call (helper "box_number")]))])
    (Normal (mkConfig locs [VI32 q] s'))
    (or_introl (conj eq_refl eq_refl)) c_locals eq_refl) as H.
  apply H. rewrite Htag. now apply runs_concat_arm.
Qed.

(** No operand is a string, either is a boolean: both coerced with
    [to_number], unboxed, added, and the sum boxed. *)
Lemma runs_plus_bool ql xl s1 qr xr s2 sum :
  isString vl || isString vr = false ->
  isBool vl || isBool vr = true ->
  numberHelper "to_number" [VI32 pl] (sto c) = Some ([VI32 ql], s1) ->
  heap s1 !! ql = Some (BNumber xl) ->
  numberHelper "to_number" [VI32 pr] s1 = Some ([VI32 qr], s2) ->
  heap s2 !! qr = Some (BNumber xr) ->
  f64op 0xA0 [VF64 xr; VF64 xl] = Some [VF64 sum] ->
  runs f64op numberHelper functions (plusCode L R) c
    (Normal (mkConfig locs (VI32 (heap_ptr s2) :: stack c)
               (snd (alloc (BNumber sum) s2)))).
Proof.
  intros Hstr Hbool Hl Hxl Hr Hxr Hsum.
  pose proof (runs_test_if "is_string" isString c
    (L ++ R ++ [Call (helper "concat")])
    (L ++ [Call (helper "is_bool")] ++ R ++ [Call (helper "is_bool"); Numeric 0x72;
      If (Wasm.valType Wasm.I32)
        (L ++ [Call (helper "to_number"); Call (helper "unbox_number")]
         ++ R ++ [Call (helper "to_number"); Call (helper "unbox_number");
                  Numeric 0xA0; Call (helper "box_number")])
        (Some
           (L ++ [Call (helper "unbox_number")]
            ++ R ++ [Call (helper "unbox_number");
                     Numeric 0xA0; Call (helper "box_number")]))])
    (Normal (mkConfig locs [VI32 (heap_ptr s2)] (snd (alloc (BNumber sum) s2))))
    (or_introl (conj eq_refl eq_refl)) c_locals eq_refl) as H.
  apply H. rewrite Hstr.
  pose proof (runs_test_if "is_bool" isBool (with_stack [] c)
    (L ++ [Call (helper "to_number"); Call (helper "unbox_number")]
     ++ R ++ [Call (helper "to_number"); Call (helper "unbox_number");
              Numeric 0xA0; Call (helper "box_number")])
    (L ++ [Call (helper "unbox_number")]
     ++ R ++ [Call (helper "unbox_number"); Numeric 0xA0; Call (helper "box_number")])
    (Normal (mkConfig locs [VI32 (heap_ptr s2)] (snd (alloc (BNumber sum) s2))))
    (or_intror (conj eq_refl eq_refl)) c_locals eq_refl) as H'.
  apply H'. rewrite Hbool. now apply (runs_bool_arm _ ql xl s1 qr xr s2 sum).
Qed.

(** Neither a string nor a boolean: both unboxed, added, and the sum
    boxed. *)
Lemma runs_plus_number xl xr sum :
  vl = BNumber xl -> vr = BNumber xr ->
  f64op 0xA0 [VF64 xr; VF64 xl] = Some [VF64 sum] ->
  runs f64op numberHelper functions (plusCode L R) c
    (Normal (mkConfig locs (VI32 (heap_ptr (sto c)) :: stack c)
               (snd (alloc (BNumber sum) (sto c))))).
Proof.
  intros Hvl Hvr Hsum.
  pose proof (runs_test_if "is_string" isString c
    (L ++ R ++ [Call (helper "concat")])
    (L ++ [Call (helper "is_bool")] ++ R ++ [Call (helper "is_bool"); Numeric 0x72;
      If (Wasm.valType Wasm.I32)
        (L ++ [Call (helper "to_number"); Call (helper "unbox_number")]
         ++ R ++ [Call (helper "to_number"); Call (helper "unbox_number");
                  Numeric 0xA0; Call (helper "box_number")])
        (Some
           (L ++ [Call (helper "unbox_number")]
            ++ R ++ [Call (helper "unbox_number");
                     Numeric 0xA0; Call (helper "box_number")]))])
    (Normal (mkConfig locs [VI32 (heap_ptr (sto c))] (snd (alloc (BNumber sum) (sto c)))))
    (or_introl (conj eq_refl eq_refl)) c_locals eq_refl) as H.
  apply H. rewrite Hvl, Hvr. cbn [isString orb].
  pose proof (runs_test_if "is_bool" isBool (with_stack [] c)
    (L ++ [Call (helper "to_number"); Call (helper "unbox_number")]
     ++ R ++ [Call (helper "to_number"); Call (helper "unbox_number");
              Numeric 0xA0; Call (helper "box_number")])
    (L ++ [Call (helper "unbox_number")]
     ++ R ++ [Call (helper "unbox_number"); Numeric 0xA0; Call (helper "box_number")])
    (Normal (mkConfig locs [VI32 (heap_ptr (sto c))] (snd (alloc (BNumber sum) (sto c)))))
    (or_intror (conj eq_refl eq_refl)) c_locals eq_refl) as H'.
  apply H'. rewrite Hvl, Hvr. cbn [isBool orb].
  apply (runs_number_arm (with_stack [] (with_stack [] c)) xl xr sum); auto.
  - cbn [with_stack sto]. now rewrite <- Hvl.
  - cbn [with_stack sto]. now rewrite <- Hvr.
Qed.

End PlusDispatch.

(** *** The iteration guard *)

Section GuardedLoop.

Variable counter : nat.

(** What the guard does from a counter [n >= 0]: it traps when
    [n >= 10000], and otherwise leaves the counter at [n + 1], the stack
    and everything else as they were. *)
Lemma exec_guard fuel c :
  0 <= get_local counter c ->
  let o := exec fuel (iterationGuardCode counter) c in
  ticks (sto (final o)) = ticks (sto c)
  /\ match o with
     | Normal c' =>
         get_local counter c < MAX_ITERATIONS
         /\ get_local counter c' = get_local counter c + 1
         /\ stack c' = stack c
     | Trapped _ => MAX_ITERATIONS <= get_local counter c
     | OutOfFuel _ => True
     | _ => False
     end.
Proof.
  intros Hn. unfold iterationGuardCode.
  do 4 (destruct fuel as [|fuel]; [cbn; done|]).
  cbn -[wrap32 Z.leb get_local MAX_ITERATIONS].
  change (wrap32 MAX_ITERATIONS) with MAX_ITERATIONS.
  destruct (Z.leb_spec MAX_ITERATIONS (get_local counter c)) as [Hge|Hlt].
  - change (1 =? 0) with false. cbn iota.
    destruct fuel as [|fuel]; [cbn; done|]. cbn. done.
  - change (0 =? 0) with true. cbn iota. cbn [default].
    destruct fuel as [|fuel]; [cbn; done|].
    cbn -[wrap32 Z.leb get_local MAX_ITERATIONS].
    do 4 (destruct fuel as [|fuel]; [cbn; done|]).
    cbn -[wrap32 Z.leb get_local MAX_ITERATIONS].
    change (wrap32 1) with 1.
    rewrite ?get_local_set_local, ?get_local_leave, ?get_local_with_stack, ?get_local_push.
    assert (Hwrap : wrap32 (get_local counter c + 1) = get_local counter c + 1).
    { unfold wrap32. apply Z.mod_small. unfold MAX_ITERATIONS in Hlt. lia. }
    rewrite Hwrap.
    split; [reflexivity|]. split; [assumption|]. split; reflexivity.
Qed.

(** At [MAX_ITERATIONS] the guard traps. *)
Lemma exec_guard_traps c :
  get_local counter c = MAX_ITERATIONS ->
  exists c', exec 5 (iterationGuardCode counter) c = Trapped c'.
Proof.
  intros Hn. unfold iterationGuardCode.
  cbn -[wrap32 Z.leb get_local MAX_ITERATIONS].
  change (wrap32 MAX_ITERATIONS) with MAX_ITERATIONS.
  rewrite Hn, Z.leb_refl. cbn. eauto.
Qed.

Variables Q1 Q2 : list instr.
Hypothesis Q1_below : forallb (locals_below counter) Q1 = true.
Hypothesis Q1_tick_free : forallb tick_free Q1 = true.
Hypothesis Q2_below : forallb (locals_below counter) Q2 = true.
Hypothesis Q2_tick_free : forallb tick_free Q2 = true.

Local Abbreviation gbody := (guardedBody counter Q1 Q2).

Lemma exec_guardedBody fuel c :
  0 <= get_local counter c ->
  let o := exec fuel gbody c in
  (MAX_ITERATIONS <= get_local counter c ->
     ticks (sto (final o)) = ticks (sto c) /\ forall d c', o <> Branch d c')
  /\ (get_local counter c < MAX_ITERATIONS ->
     (ticks (sto (final o)) <= S (ticks (sto c)))%nat
     /\ forall d c', o = Branch d c' -> get_local counter c' = get_local counter c + 1).
Proof.
  intros Hn. unfold guardedBody. cbn zeta.
  destruct (exec_app fuel (iterationGuardCode counter) (Q1 ++ [Tick] ++ Q2) c)
    as (f1 & _ & ->).
  destruct (exec_guard fuel c Hn) as [Hticks Hguard].
  destruct (exec fuel (iterationGuardCode counter) c) as [c1| | | | |] eqn:Eg;
    cbn [final] in *; try contradiction.
  - (* the guard let the iteration pass *)
    destruct Hguard as (Hlt & Hcount & _).
    split; [lia|]. intros _.
    destruct (exec_app f1 Q1 ([Tick] ++ Q2) c1) as (f2 & _ & ->).
    pose proof (exec_ticks f1 Q1 c1 Q1_tick_free) as Ht1.
    pose proof (exec_local counter counter f1 Q1 c1 Q1_below (Nat.le_refl _)) as Hl1.
    destruct (exec f1 Q1 c1) as [c2| | | | |] eqn:E1; cbn [final] in *.
    2-6: split; [lia|]; intros d c' [= <- <-] || intros d c' [=]; congruence.
    destruct f2 as [|f2]; [cbn; split; [lia|discriminate]|].
    cbn [app Run.exec].
    pose proof (exec_ticks f2 Q2 (tick c2) Q2_tick_free) as Ht2.
    pose proof (exec_local counter counter f2 Q2 (tick c2) Q2_below (Nat.le_refl _)) as Hl2.
    cbn [tick with_store sto ticks] in Ht2.
    change (get_local counter (tick c2)) with (get_local counter c2) in Hl2.
    split; [lia|].
    intros d c' Ho. rewrite Ho in Hl2. cbn [final] in Hl2. congruence.
  - (* the guard trapped *)
    split; [intros _; split; [exact Hticks|discriminate]|].
    intros Hlt. lia.
  - (* out of fuel inside the guard *)
    split; [intros _; split; [exact Hticks|discriminate]|].
    intros _. split; [lia|discriminate].
Qed.

(** One entry of a guarded loop passes the tick at most
    [MAX_ITERATIONS - n] times, [n] being the counter on entry. *)
Lemma exec_guardedLoop fuel bt rest c :
  forallb tick_free rest = true ->
  0 <= get_local counter c <= MAX_ITERATIONS ->
  Z.of_nat (ticks (sto (final (exec fuel (Loop bt gbody :: rest) c))))
    + get_local counter c
  <= Z.of_nat (ticks (sto c)) + MAX_ITERATIONS.
Proof.
  intros Hrest. revert c. induction fuel as [|fuel IH]; intros c Hn; [cbn; lia|].
  cbn [Run.exec].
  destruct (exec_guardedBody fuel (with_stack [] c) ltac:(apply Hn)) as [Hfull Hmore].
  change (get_local counter (with_stack [] c)) with (get_local counter c) in *.
  change (sto (with_stack [] c)) with (sto c) in *.
  destruct (Z.le_gt_cases MAX_ITERATIONS (get_local counter c)) as [Hge|Hlt].
  - destruct (Hfull Hge) as [Ht Hnb].
    destruct (exec fuel gbody (with_stack [] c)) as [c'|d c'|c'|c'|c'|c'];
      cbn [final] in *; try lia.
    + rewrite exec_ticks by assumption. cbn. lia.
    + now destruct (Hnb d c').
  - destruct (Hmore Hlt) as [Ht Hb].
    destruct (exec fuel gbody (with_stack [] c)) as [c'|d c'|c'|c'|c'|c'];
      cbn [final] in *; try lia.
    + rewrite exec_ticks by assumption. cbn. lia.
    + specialize (Hb d c' eq_refl). destruct d as [|d]; cbn [final]; [|lia].
      specialize (IH (with_stack (stack c) c')).
      change (get_local counter (with_stack (stack c) c')) with (get_local counter c') in IH.
      change (sto (with_stack (stack c) c')) with (sto c') in IH.
      lia.
Qed.

(** One entry of a capped loop passes the tick at most [MAX_ITERATIONS]
    times, however the run ends. *)
Lemma exec_cappedLoop fuel pre c :
  forallb (locals_below counter) pre = true ->
  forallb tick_free pre = true ->
  (ticks (sto (final (exec fuel (cappedLoop counter pre Q1 Q2) c)))
   <= ticks (sto c) + Z.to_nat MAX_ITERATIONS)%nat.
Proof.
  intros Hpre_below Hpre_free. unfold cappedLoop.
  do 2 (destruct fuel as [|fuel]; [cbn; lia|]).
  cbn [app Run.exec]. cbn [push with_stack stack].
  set (c0 := set_local counter (wrap32 0) _).
  assert (Hc0 : get_local counter c0 = 0) by apply get_local_set_local.
  assert (Ht0 : ticks (sto c0) = ticks (sto c)) by reflexivity.
  destruct (exec_app fuel pre
              [Block Wasm.emptyBlockType [Loop Wasm.emptyBlockType gbody]] c0)
    as (f1 & _ & ->).
  pose proof (exec_ticks fuel pre c0 Hpre_free) as Ht1.
  pose proof (exec_local counter counter fuel pre c0 Hpre_below (Nat.le_refl _)) as Hl1.
  destruct (exec fuel pre c0) as [c1| | | | |]; cbn [final] in *; try lia.
  destruct f1 as [|f1]; [cbn; lia|]. cbn [Run.exec].
  pose proof (exec_guardedLoop f1 Wasm.emptyBlockType [] (with_stack [] c1) eq_refl) as Hloop.
  rewrite get_local_with_stack in Hloop.
  change (sto (with_stack [] c1)) with (sto c1) in Hloop.
  specialize (Hloop ltac:(unfold MAX_ITERATIONS; lia)).
  assert (Hbound : (ticks (sto (final (exec f1 [Loop Wasm.emptyBlockType gbody]
                                         (with_stack [] c1))))
                    <= ticks (sto c) + Z.to_nat MAX_ITERATIONS)%nat).
  { unfold MAX_ITERATIONS in *. lia. }
  destruct (exec f1 [Loop Wasm.emptyBlockType gbody] (with_stack [] c1))
    as [c2|[|d] c2|c2|c2|c2|c2]; cbn [final] in *; try assumption.
  all: destruct f1; cbn; assumption.
Qed.

End GuardedLoop.

End RunFacts.

End RunFacts.

(** ** The lowering emits structured code over handed-out slots *)

Lemma slots_below_mono sc n m :
  (n <= m)%nat -> slots_below sc n -> slots_below sc m.
Proof.
  intros Hle Hsc. unfold slots_below. eapply Forall_impl; [exact Hsc|].
  intros scope H x i Hx. specialize (H x i Hx). lia.
Qed.

Lemma slots_below_tail sc n : slots_below sc n -> slots_below (tail sc) n.
Proof. destruct sc; [done|]. intros H. now inversion H. Qed.

Lemma slots_below_enter sc n : slots_below sc n -> slots_below (∅ :: sc) n.
Proof.
  intros H. constructor; [|done]. intros x i Hx. by rewrite lookup_empty in Hx.
Qed.

Lemma slots_below_lookup sc n x i :
  slots_below sc n -> lookupVar x sc = Some i -> (i < n)%nat.
Proof.
  induction 1 as [|scope sc Hscope _ IH]; [discriminate|].
  cbn [lookupVar]. destruct (scope !! x) as [j|] eqn:E; [|exact IH].
  intros [= <-]. eauto.
Qed.

Section InstrInd.

Variable P : instr -> Prop.
Hypothesis HBlock : forall bt body, Forall P body -> P (Block bt body).
Hypothesis HLoop : forall bt body, Forall P body -> P (Loop bt body).
Hypothesis HIf : forall bt t e,
  Forall P t -> (forall b, e = Some b -> Forall P b) -> P (If bt t e).
Hypothesis HSimple : forall i,
  match i with Block _ _ | Loop _ _ | If _ _ _ => False | _ => True end -> P i.

Fixpoint instr_nested_ind (i : instr) : P i :=
  let all := fix go (l : list instr) : Forall P l :=
    match l with
    | [] => List.Forall_nil P
    | x :: l' => List.Forall_cons P x l' (instr_nested_ind x) (go l')
    end in
  match i with
  | Block bt body => HBlock bt body (all body)
  | Loop bt body => HLoop bt body (all body)
  | If bt t e =>
      HIf bt t e (all t)
        (match e as o return forall b, o = Some b -> Forall P b with
         | Some b0 => fun b E =>
             match E in _ = o' return match o' with Some b' => Forall P b' | None => True end
             with eq_refl => all b0 end
         | None => fun b E =>
             match E in _ = o' return match o' with Some b' => Forall P b' | None => True end
             with eq_refl => I end
         end)
  | Unreachable => HSimple Unreachable I
  | Br d => HSimple (Br d) I
  | BrIf d => HSimple (BrIf d) I
  | Return => HSimple Return I
  | Call k => HSimple (Call k) I
  | Drop => HSimple Drop I
  | LocalGet k => HSimple (LocalGet k) I
  | LocalSet k => HSimple (LocalSet k) I
  | I32Const n => HSimple (I32Const n) I
  | F64Const x => HSimple (F64Const x) I
  | Numeric op => HSimple (Numeric op) I
  | Tick => HSimple Tick I
  end.

End InstrInd.

(** ** Reading code back from its bytes *)

Lemma f64_bytes_value x k :
  fold_right (fun b acc => b + 256 * acc) 0
    (map (fun i => Z.land (Z.shiftr x (8 * Z.of_nat i)) 255) (seq 0 k))
  = x mod 256 ^ Z.of_nat k.
Proof.
  revert x. induction k as [|k IH]; intros x.
  - cbn. now rewrite Z.mod_1_r.
  - cbn [seq map fold_right]. rewrite <- seq_shift, map_map.
    rewrite (map_ext _ (fun i => Z.land (Z.shiftr (Z.shiftr x 8) (8 * Z.of_nat i)) 255)).
    2: { intros i. rewrite Z.shiftr_shiftr by lia. do 2 f_equal. lia. }
    rewrite IH. change (8 * Z.of_nat 0) with 0. rewrite Z.shiftr_0_r.
    change 255 with (Z.ones 8). rewrite Z.land_ones by lia.
    rewrite Z.shiftr_div_pow2 by lia. change (2 ^ 8) with 256.
    rewrite Nat2Z.inj_succ, Z.pow_succ_r by lia.
    rewrite Z.rem_mul_r by lia. reflexivity.
Qed.

Lemma f64_of_le_bytes_le_bytes x :
  f64_of_le_bytes (Wasm.f64_le_bytes x) = wrap64 x.
Proof. unfold f64_of_le_bytes, Wasm.f64_le_bytes, wrap64. apply (f64_bytes_value x 8). Qed.

Lemma f64_le_bytes_wrap64 x : Wasm.f64_le_bytes (wrap64 x) = Wasm.f64_le_bytes x.
Proof.
  unfold Wasm.f64_le_bytes, wrap64. apply map_ext_in. intros i Hi.
  apply in_seq in Hi. apply Z.bits_inj'. intros n Hn.
  rewrite !Z.land_spec, !Z.shiftr_spec by lia.
  change 255 with (Z.ones 8).
  destruct (Z.ltb_spec n 8) as [Hlt|Hge].
  - rewrite Z.mod_pow2_bits_low by lia. reflexivity.
  - rewrite Z.ones_spec_high by lia. now rewrite !andb_false_r.
Qed.

Lemma f64_const_wrap64 x : Wasm.f64.const (wrap64 x) = Wasm.f64.const x.
Proof. unfold Wasm.f64.const. now rewrite f64_le_bytes_wrap64. Qed.

Lemma wrap64_range x : (0 <=? wrap64 x) && (wrap64 x <? 2 ^ 64) = true.
Proof.
  unfold wrap64. pose proof (Z.mod_pos_bound x (2 ^ 64) ltac:(lia)) as [H1 H2].
  apply andb_true_iff. split; [now apply Z.leb_le|now apply Z.ltb_lt].
Qed.

Lemma wrap64_small x : (0 <=? x) && (x <? 2 ^ 64) = true -> wrap64 x = x.
Proof.
  intros H. apply andb_true_iff in H as [H1 H2].
  apply Z.leb_le in H1. apply Z.ltb_lt in H2. unfold wrap64. now apply Z.mod_small.
Qed.

Lemma f64_le_bytes_length x : length (Wasm.f64_le_bytes x) = 8%nat.
Proof. reflexivity. Qed.

(** How the bytes that follow a sequence of instructions end it. *)
Inductive stops : bytes -> terminator -> bytes -> Prop :=
| stops_eof : stops [] AtEof []
| stops_end rest : stops (0x0B :: rest) AtEnd rest
| stops_else rest : stops (0x05 :: rest) AtElse rest.

(** One instruction read from the head of the bytes. *)
Definition reads_one (i : instr) : Prop :=
  readable i = true ->
  forall fuel more,
    (length (encode i ++ more) <= fuel)%nat ->
    decode_seq (S fuel) (encode i ++ more)
    = match decode_seq fuel more with
      | Some (code, t, rest) => Some (i :: code, t, rest)
      | None => None
      end.

Lemma encode_nonempty i : readable i = true -> (1 <= length (encode i))%nat.
Proof.
  destruct i; cbn; intros H; try discriminate; lia.
Qed.

Lemma decode_seq_encodes ins :
  Forall reads_one ins -> forallb readable ins = true ->
  forall fuel tail t rest,
    stops tail t rest ->
    (length (encodes ins ++ tail) < fuel)%nat ->
    decode_seq fuel (encodes ins ++ tail) = Some (ins, t, rest).
Proof.
  induction 1 as [|i ins Hi _ IH]; intros Hr fuel tail t rest Hstop Hfuel.
  - destruct fuel as [|fuel]; [lia|]. cbn [encodes map concat app].
    destruct Hstop; reflexivity.
  - cbn [forallb] in Hr. apply andb_true_iff in Hr as [Hri Hr].
    unfold encodes in *. cbn [map concat] in *. rewrite <- app_assoc in *.
    destruct fuel as [|fuel]; [lia|].
    pose proof (encode_nonempty i Hri) as Hne.
    rewrite (Hi Hri) by lia.
    rewrite length_app in Hfuel.
    rewrite (IH Hr fuel tail t rest Hstop) by lia. reflexivity.
Qed.

Lemma isNumericOpcode_cases op :
  isNumericOpcode op = true ->
  op ∈ [0x45; 0x4F; 0x6A; 0x72; 0x61; 0x62; 0x63; 0x64; 0x65; 0x66;
        0x9A; 0xA0; 0xA1; 0xA2; 0xA3].
Proof. unfold isNumericOpcode. apply bool_decide_eq_true_1. Qed.

Ltac read_body IH Hr t :=
  match goal with
  | |- context [decode_seq ?fuel (concat (map encode ?body) ++ ?tail)] =>
      change (concat (map encode body)) with (encodes body);
      rewrite (decode_seq_encodes body IH Hr fuel tail t _ ltac:(constructor))
  end.

Lemma reads_one_all i : reads_one i.
Proof.
  induction i as [bt body IH|bt body IH|bt t e IHt IHe|i Hi] using instr_nested_ind;
    intros Hr fuel more Hfuel.
  - (* block *)
    cbn [readable] in Hr. cbn [encode app] in *.
    unfold Wasm.block.end_ in *. rewrite <- app_assoc in *.
    cbn [decode_seq length] in *. rewrite length_app in Hfuel. cbn [app length] in Hfuel.
    read_body IH Hr AtEnd; [reflexivity|].
    unfold encodes. rewrite length_app. cbn [app length]. lia.
  - (* loop *)
    cbn [readable] in Hr. cbn [encode app] in *.
    unfold Wasm.loop.end_ in *. rewrite <- app_assoc in *.
    cbn [decode_seq length] in *. rewrite length_app in Hfuel. cbn [app length] in Hfuel.
    read_body IH Hr AtEnd; [reflexivity|].
    unfold encodes. rewrite length_app. cbn [app length]. lia.
  - (* if *)
    cbn [readable] in Hr. apply andb_true_iff in Hr as [Hrt Hre].
    cbn [encode] in *. unfold Wasm.if_.start, Wasm.if_.else_, Wasm.if_.end_ in *.
    destruct e as [b|].
    + specialize (IHe b eq_refl).
      rewrite <- !app_assoc in *. cbn [app] in *.
      cbn [decode_seq length] in *. rewrite !length_app in Hfuel. cbn [app length] in Hfuel.
      rewrite length_app in Hfuel. cbn [length] in Hfuel.
      read_body IHt Hrt AtElse.
      2: { unfold encodes. rewrite !length_app. cbn [app length].
           rewrite length_app. cbn [length]. lia. }
      read_body IHe Hre AtEnd; [reflexivity|].
      unfold encodes. rewrite length_app. cbn [app length]. lia.
    + rewrite <- !app_assoc in *. cbn [app] in *.
      cbn [decode_seq length] in *. rewrite !length_app in Hfuel. cbn [app length] in Hfuel.
      read_body IHt Hrt AtEnd; [reflexivity|].
      unfold encodes. rewrite length_app. cbn [app length]. lia.
  - (* the instructions without a body *)
    destruct i; try contradiction; cbn [readable] in Hr; try discriminate Hr;
      cbn [encode] in *;
      unfold Wasm.misc.unreachable, Wasm.loop.br, Wasm.loop.br_if, Wasm.fn.return_,
        Wasm.fn.call, Wasm.misc.drop, Wasm.local.get, Wasm.local.set,
        Wasm.i32.const, Wasm.f64.const in *;
      cbn [app decode_seq];
      rewrite ?unsignedLEB_decode, ?signedLEB_decode, ?Nat2N.id;
      try reflexivity.
    + (* f64.const *)
      rewrite length_app, f64_le_bytes_length.
      replace (8 <=? 8 + length more)%nat with true by (symmetry; apply Nat.leb_le; lia).
      rewrite (take_app_length' (Wasm.f64_le_bytes x) more 8),
        (drop_app_length' (Wasm.f64_le_bytes x) more 8) by reflexivity.
      rewrite f64_of_le_bytes_le_bytes, wrap64_small by exact Hr. reflexivity.
    + (* numeric *)
      apply isNumericOpcode_cases in Hr.
      repeat (apply elem_of_cons in Hr as [->|Hr]; [reflexivity|]).
      now apply elem_of_nil in Hr.
Qed.

(** Readable code is what its bytes read back as. *)
Lemma decodes_encodes ins : forallb readable ins = true -> decoded ins.
Proof.
  intros Hr. unfold decoded, decodes.
  rewrite <- (app_nil_r (encodes ins)) at 2.
  rewrite (decode_seq_encodes ins (proj2 (Forall_forall _ _) (fun i _ => reads_one_all i))
             Hr _ [] AtEof [] stops_eof); [reflexivity|].
  rewrite app_nil_r. lia.
Qed.

Lemma readable_tick_free i : readable i = true -> tick_free i = true.
Proof.
  induction i as [bt body IH|bt body IH|bt t e IHt IHe|i Hi] using instr_nested_ind;
    cbn [readable tick_free].
  - intros H. apply forallb_forall. intros x Hx.
    rewrite Forall_forall in IH. apply IH; [now apply list_elem_of_In|].
    rewrite forallb_forall in H. now apply H.
  - intros H. apply forallb_forall. intros x Hx.
    rewrite Forall_forall in IH. apply IH; [now apply list_elem_of_In|].
    rewrite forallb_forall in H. now apply H.
  - intros H. apply andb_true_iff in H as [Ht He]. apply andb_true_iff. split.
    + apply forallb_forall. intros x Hx.
      rewrite Forall_forall in IHt. apply IHt; [now apply list_elem_of_In|].
      rewrite forallb_forall in Ht. now apply Ht.
    + destruct e as [b|]; [|reflexivity]. specialize (IHe b eq_refl).
      apply forallb_forall. intros x Hx.
      rewrite Forall_forall in IHe. apply IHe; [now apply list_elem_of_In|].
      rewrite forallb_forall in He. now apply He.
  - destruct i; try contradiction; auto.
Qed.

Lemma readable_tick_free_all ins :
  forallb readable ins = true -> forallb tick_free ins = true.
Proof.
  intros H. apply forallb_forall. intros x Hx. apply readable_tick_free.
  rewrite forallb_forall in H. now apply H.
Qed.


Lemma forallb_Forall_impl {A} (f g : A -> bool) l :
  Forall (fun x => f x = true -> g x = true) l ->
  forallb f l = true -> forallb g l = true.
Proof.
  induction 1 as [|x l Hx _ IH]; [done|]. cbn [forallb].
  intros H. apply andb_prop in H as [H1 H2]. now rewrite Hx, IH.
Qed.

Lemma locals_below_mono_instr n m i :
  (n <= m)%nat -> locals_below n i = true -> locals_below m i = true.
Proof.
  intros Hle. induction i as [bt body IH|bt body IH|bt t e IHt IHe|i Hi]
    using instr_nested_ind; cbn [locals_below].
  - now apply forallb_Forall_impl.
  - now apply forallb_Forall_impl.
  - intros H. apply andb_prop in H as [Ht He]. apply andb_true_intro. split.
    + revert Ht. now apply forallb_Forall_impl.
    + destruct e as [b|]; [|reflexivity]. revert He. apply forallb_Forall_impl. eauto.
  - destruct i; try contradiction; try reflexivity; cbn [locals_below];
      intros H; apply Nat.ltb_lt in H; apply Nat.ltb_lt; lia.
Qed.

Lemma locals_below_mono n m code :
  (n <= m)%nat ->
  forallb (locals_below n) code = true -> forallb (locals_below m) code = true.
Proof.
  intros Hle. apply forallb_Forall_impl, Forall_forall.
  intros i _. now apply locals_below_mono_instr.
Qed.

Lemma declareVar_below x isLocal st r st' :
  declareVar x isLocal st = (Ok r, st') ->
  scopes_below st ->
  scopes_below st'
  /\ (localVarsIndex st <= localVarsIndex st')%nat
  /\ (forall i, r = Some i -> (i < localVarsIndex st')%nat)
  /\ userDefinedFunctions st' = userDefinedFunctions st.
Proof.
  unfold declareVar, scopes_below. intros H Hst.
  assert (Hcreate :
    match scopes st with
    | [] => (Ok None, st)
    | top :: outer =>
        (Ok (Some (localVarsIndex st)),
         with_index (S (localVarsIndex st))
           (with_scopes (<[x := localVarsIndex st]> top :: outer) st))
    end = (Ok r, st') ->
    slots_below (scopes st') (localVarsIndex st')
    /\ (localVarsIndex st <= localVarsIndex st')%nat
    /\ (forall i, r = Some i -> (i < localVarsIndex st')%nat)
    /\ userDefinedFunctions st' = userDefinedFunctions st).
  { destruct (scopes st) as [|top outer] eqn:Esc; intros [= <- <-].
    - rewrite Esc. repeat split; try done.
    - cbn. inversion Hst as [|? ? Htop Houter]; subst.
      repeat split; try lia.
      + constructor.
        * intros y i Hy. destruct (decide (x = y)) as [<-|Hne].
          -- rewrite lookup_insert_eq in Hy. injection Hy as <-. lia.
          -- rewrite lookup_insert_ne in Hy by done. specialize (Htop y i Hy). lia.
        * eapply slots_below_mono; [|exact Houter]. lia.
      + intros i [= <-]. lia. }
  destruct isLocal; [now apply Hcreate|].
  destruct (lookupVar x (scopes st)) as [i|] eqn:El; [|now apply Hcreate].
  injection H as <- <-. repeat split; try done.
  intros j [= <-]. eapply slots_below_lookup; eauto.
Qed.

Lemma forallb_tick_free_app a b :
  forallb tick_free (a ++ b) = forallb tick_free a && forallb tick_free b.
Proof. apply forallb_app. Qed.

(** Closes the three parts of a [lowered] goal once the code is given. *)
Ltac solve_encoding :=
  subst; to_helpers;
  unfold plusCode, andCode, orCode, whileCode, forCode, ifCode, functionCode,
    iterationGuardCode, defaultStep, iterationGuard;
  flatten_code; rewrite <- ?app_assoc; reflexivity.

Ltac solve_forallb :=
  unfold plusCode, andCode, orCode, whileCode, forCode, ifCode, functionCode,
    iterationGuardCode, defaultStep;
  repeat (progress (rewrite ?forallb_app; cbn [forallb tick_free readable locals_below andb]));
  rewrite ?wrap64_range;
  repeat match goal with
  | H : isNumericOpcode _ = true |- _ => rewrite H
  end;
  repeat match goal with
  | |- context [isNumericOpcode ?op] => change (isNumericOpcode op) with true
  end;
  repeat match goal with
  | |- context [(0 <=? ?x) && (?x <? 2 ^ 64)] =>
      change ((0 <=? x) && (x <? 2 ^ 64)) with true
  end;
  repeat match goal with
  | H : forallb _ _ = true |- _ => rewrite H
  end;
  repeat match goal with
  | |- context [(?i <? ?n)%nat] =>
      replace (i <? n)%nat with true by (symmetry; apply Nat.ltb_lt; lia)
  end;
  cbn [andb]; reflexivity.

Lemma lowered_flatMapM {A} (f : A -> M bytes) xs :
  Forall (fun x => lowered (f x)) xs -> lowered (flatMapM f xs).
Proof.
  induction 1 as [|x xs Hx _ IH]; intros st code st' H; cbn [flatMapM] in H.
  - inv_ok H. exists []. repeat split; auto.
  - inv_ok H.
    destruct (Hx _ _ _ E) as (is1 & -> & Hf1 & H1).
    destruct (IH _ _ _ E0) as (is2 & -> & Hf2 & H2).
    exists (is1 ++ is2). split; [now rewrite encodes_app|].
    split; [solve_forallb|].
    intros Hst. destruct (H1 Hst) as (Hs1 & Hle1 & Hb1).
    destruct (H2 Hs1) as (Hs2 & Hle2 & Hb2).
    split; [done|]. split; [lia|].
    rewrite forallb_app, Hb2, (locals_below_mono _ _ _ Hle2 Hb1). reflexivity.
Qed.

Lemma nativeBinOps_numeric operator c :
  Wasm.nativeBinOps operator = Wasm.OpCode c -> isNumericOpcode c = true.
Proof.
  unfold Wasm.nativeBinOps. intros H.
  repeat match type of H with
         | (if ?b then _ else _) = _ => destruct b
         end; inversion H; reflexivity.
Qed.

(** The code of a binary operator applied by an f64 instruction or a
    helper to both unboxed operands. *)
Lemma lowered_compileBinary operator L R st code st' :
  compileBinary operator (encodes L) (encodes R) st = (Ok code, st') ->
  forallb readable L = true -> forallb readable R = true ->
  exists ins,
    code = encodes ins
    /\ forallb readable ins = true
    /\ scopes st' = scopes st
    /\ (localVarsIndex st <= localVarsIndex st')%nat
    /\ (forallb (locals_below (localVarsIndex st)) L = true ->
        forallb (locals_below (localVarsIndex st)) R = true ->
        forallb (locals_below (localVarsIndex st')) ins = true).
Proof.
  intros H HL HR. unfold compileBinary in H.
  destruct (Wasm.nativeBinOps operator) as [c| |] eqn:Enat.
  - pose proof (nativeBinOps_numeric _ _ Enat) as Hc.
    destruct (negb (c =? 0) && String.eqb operator "+").
    + inv_ok H. exists (plusCode L R).
      split; [solve_encoding|]. split; [solve_forallb|].
      repeat split; try done. intros HbL HbR. solve_forallb.
    + destruct (comparisonOps operator); inv_ok H.
      * exists (L ++ [Call (helper "unbox_number")] ++ R
                ++ [Call (helper "unbox_number"); Numeric c; Call (helper "box_bool")]).
        split; [solve_encoding|]. split; [solve_forallb|].
        repeat split; try done. intros HbL HbR. solve_forallb.
      * exists (L ++ [Call (helper "unbox_number")] ++ R
                ++ [Call (helper "unbox_number"); Numeric c; Call (helper "box_number")]).
        split; [solve_encoding|]. split; [solve_forallb|].
        repeat split; try done. intros HbL HbR. solve_forallb.
  - cbn [andb] in H.
    destruct (String.eqb operator "%"); [|destruct (String.eqb operator "^");
      [|destruct (String.eqb operator "and"); [|destruct (String.eqb operator "or")]]];
      inv_ok H.
    + exists (L ++ [Call (helper "unbox_number")] ++ R
              ++ [Call (helper "unbox_number"); Call (helper "mod"); Call (helper "box_number")]).
      split; [solve_encoding|]. split; [solve_forallb|].
      repeat split; try done. intros HbL HbR. solve_forallb.
    + exists (L ++ [Call (helper "unbox_number")] ++ R
              ++ [Call (helper "unbox_number"); Call (helper "math_pow");
                  Call (helper "box_number")]).
      split; [solve_encoding|]. split; [solve_forallb|].
      repeat split; try done. intros HbL HbR. solve_forallb.
    + exists (andCode (localVarsIndex st) L R).
      split; [solve_encoding|]. split; [solve_forallb|].
      cbn [scopes localVarsIndex with_index]. repeat split; try done; try lia.
      intros HbL HbR.
      apply (locals_below_mono _ (S (localVarsIndex st))) in HbL, HbR; try lia.
      solve_forallb.
    + exists (orCode (localVarsIndex st) L R).
      split; [solve_encoding|]. split; [solve_forallb|].
      cbn [scopes localVarsIndex with_index]. repeat split; try done; try lia.
      intros HbL HbR.
      apply (locals_below_mono _ (S (localVarsIndex st))) in HbL, HbR; try lia.
      solve_forallb.
  - cbn [andb] in H. destruct (comparisonOps operator); inv_ok H.
    + exists (L ++ [Call (helper "unbox_number")] ++ R
              ++ [Call (helper "unbox_number"); Unreachable; Call (helper "box_bool")]).
      split; [solve_encoding|]. split; [solve_forallb|].
      repeat split; try done. intros HbL HbR. solve_forallb.
    + exists (L ++ [Call (helper "unbox_number")] ++ R
              ++ [Call (helper "unbox_number"); Unreachable; Call (helper "box_number")]).
      split; [solve_encoding|]. split; [solve_forallb|].
      repeat split; try done. intros HbL HbR. solve_forallb.
Qed.

Lemma getOffset_state s st off st' :
  getOffset s st = (Ok off, st') ->
  scopes st' = scopes st /\ localVarsIndex st' = localVarsIndex st.
Proof.
  unfold getOffset. destruct (StringTable.getOffset s (strings st)) as [o tbl].
  intros H. apply ok_pair_inv in H as [_ <-]. now split.
Qed.

Lemma scopes_below_eq st st' :
  scopes st' = scopes st -> (localVarsIndex st <= localVarsIndex st')%nat ->
  scopes_below st -> scopes_below st'.
Proof.
  unfold scopes_below. intros -> Hle. now apply slots_below_mono.
Qed.

Lemma lowered_compileCall callee n at_ m :
  lowered m -> lowered (compileCall callee n at_ m).
Proof.
  intros Hm st code st' H. unfold compileCall in H.
  apply bind_Ok in H as (f & s & E & H). unfold_prims E. inv_pair E.
  destruct (String.eqb (name callee) "is_string").
  - destruct (negb (n =? 1)%nat); inv_ok H.
    destruct (Hm _ _ _ E) as (args & -> & Hf & Hs).
    exists (args ++ [Call (helper "is_string"); Call (helper "box_bool")]).
    split; [solve_encoding|]. split; [solve_forallb|].
    intros Hst. destruct (Hs Hst) as (Hs' & Hle & Hb).
    repeat split; try done. solve_forallb.
  - destruct (findFunction _ _) as [f|]; [|inv_ok H].
    destruct (negb (_ =? n)%nat); inv_ok H.
    destruct (Hm _ _ _ E) as (args & -> & Hf & Hs).
    match goal with
    | E : m st = (Ok _, ?s) |- _ => exists (args ++ [Call (func s (name callee))])
    end.
    split; [solve_encoding|]. split; [solve_forallb|].
    intros Hst. destruct (Hs Hst) as (Hs' & Hle & Hb).
    repeat split; try done. solve_forallb.
Qed.

Lemma lowered_compileExpression e : lowered (compileExpression e).
Proof.
  induction e as [v|v|v|id|e IH|l op r IHl IHr|op e IH|callee args at_ IH|t]
    using Expression_nested_ind; cbn [compileExpression].
  - (* string literal *)
    intros st code st' H. inv_ok H. destruct (getOffset_state _ _ _ _ E) as [Hsc Hidx].
    exists [I32Const (Z.of_nat a); I32Const (Z.of_nat (length (Utf8.encode v)));
            Call (helper "box_string")].
    split; [solve_encoding|]. split; [reflexivity|].
    intros Hst. split; [eapply scopes_below_eq; eauto; lia|].
    split; [lia|reflexivity].
  - (* number literal *)
    intros st code st' H. inv_ok H.
    exists [F64Const (wrap64 v); Call (helper "box_number")].
    split; [rewrite <- (f64_const_wrap64 v); solve_encoding|].
    split; [solve_forallb|]. repeat split; auto.
  - (* boolean literal *)
    intros st code st' H. inv_ok H.
    exists [I32Const (if v then 1 else 0); Call (helper "box_bool")].
    split; [solve_encoding|]. repeat split; auto.
  - (* identifier *)
    intros st code st' H. inv_ok H.
    destruct (lookupVar (name id) (scopes st)) as [index|] eqn:El; inv_ok H.
    exists [LocalGet index]. split; [solve_encoding|]. split; [reflexivity|].
    intros Hst. repeat split; auto.
    cbn [forallb locals_below].
    pose proof (slots_below_lookup _ _ _ _ Hst El) as Hlt.
    apply Nat.ltb_lt in Hlt. now rewrite Hlt.
  - (* grouping *)
    exact IH.
  - (* binary *)
    intros st code st' H. inv_ok H.
    destruct (IHl _ _ _ E) as (L & -> & HfL & HsL).
    destruct (IHr _ _ _ E0) as (R & -> & HfR & HsR).
    destruct (lowered_compileBinary _ _ _ _ _ _ H HfL HfR)
      as (ins & -> & Hf & Hsc & Hle & Hb).
    exists ins. repeat split; auto.
    + destruct (HsL H0) as (Hs1 & _). destruct (HsR Hs1) as (Hs2 & _).
      eapply scopes_below_eq; eauto.
    + destruct (HsL H0) as (Hs1 & Hle1 & _). destruct (HsR Hs1) as (Hs2 & Hle2 & _). lia.
    + destruct (HsL H0) as (Hs1 & Hle1 & Hb1). destruct (HsR Hs1) as (Hs2 & Hle2 & Hb2).
      apply Hb; [|done]. eapply locals_below_mono; eauto.
  - (* unary *)
    destruct (String.eqb op "+"); [exact IH|].
    destruct (String.eqb op "-").
    + assert (Hgeneral : lowered (
          let* code := compileExpression e in
          let* unbox_number := call "unbox_number" in
          let* box_number := call "box_number" in
          ret (code ++ unbox_number ++ Wasm.f64.neg ++ box_number))).
      { intros st code st' H. inv_ok H.
        destruct (IH _ _ _ E) as (ins & -> & Hf & Hs).
        exists (ins ++ [Call (helper "unbox_number"); Numeric 0x9A; Call (helper "box_number")]).
        split; [solve_encoding|]. split; [solve_forallb|].
        intros Hst. destruct (Hs Hst) as (Hs' & Hle & Hb).
        repeat split; try done. solve_forallb. }
      destruct e; try exact Hgeneral.
      intros st code st' H. inv_ok H.
      exists [F64Const (wrap64 (Wasm.f64_negate value)); Call (helper "box_number")].
      split; [rewrite <- (f64_const_wrap64 (Wasm.f64_negate value)); solve_encoding|].
      split; [solve_forallb|]. repeat split; auto.
    + destruct (String.eqb op "~"); [|intros st code st' H; inv_ok H].
      intros st code st' H. inv_ok H.
      destruct (IH _ _ _ E) as (ins & -> & Hf & Hs).
      exists (ins ++ [Call (helper "unbox_number"); F64Const 0; Numeric 0x61;
                      Call (helper "box_bool")]).
      split; [solve_encoding|]. split; [solve_forallb|].
      intros Hst. destruct (Hs Hst) as (Hs' & Hle & Hb).
      repeat split; try done. solve_forallb.
  - (* call *)
    apply lowered_compileCall. now apply lowered_flatMapM.
  - (* other *)
    intros st code st' H. inv_ok H.
Qed.

Lemma lowered_compileAssign isLocal x m :
  lowered m -> lowered (compileAssign isLocal x m).
Proof.
  intros Hm st code st' H. unfold compileAssign in H.
  apply bind_Ok in H as (rhs & s & E & H).
  apply bind_Ok in H as (varInfo & s' & Ed & H).
  destruct varInfo as [index|]; inv_ok H.
  destruct (Hm _ _ _ E) as (ins & -> & Hf & Hs).
  exists (ins ++ [LocalSet index]).
  split; [solve_encoding|]. split; [solve_forallb|].
  intros Hst. destruct (Hs Hst) as (Hs' & Hle & Hb).
  destruct (declareVar_below _ _ _ _ _ Ed Hs') as (Hs'' & Hle' & Hi & _).
  specialize (Hi index eq_refl).
  split; [done|]. split; [lia|].
  eapply locals_below_mono in Hb; [|exact Hle'].
  solve_forallb.
Qed.

Lemma scopes_below_entered st : scopes_below st -> scopes_below (entered st).
Proof. apply slots_below_enter. Qed.

Lemma scopes_below_left st : scopes_below st -> scopes_below (left_ st).
Proof. apply slots_below_tail. Qed.

(** *** While *)

Lemma compileWhile_code c b st code st' :
  lowered c -> lowered b ->
  compileWhile c b st = (Ok code, st') ->
  exists C B sb sc,
    b (entered (entered st)) = (Ok (encodes B), sb)
    /\ c (left_ sb) = (Ok (encodes C), sc)
    /\ st' = with_index (S (localVarsIndex sc)) (left_ sc)
    /\ code = encodes (whileCode (localVarsIndex sc) C B)
    /\ forallb readable C = true /\ forallb readable B = true
    /\ (scopes_below st ->
        scopes_below st'
        /\ (localVarsIndex st <= localVarsIndex sc)%nat
        /\ forallb (locals_below (localVarsIndex sc)) C = true
        /\ forallb (locals_below (localVarsIndex sc)) B = true).
Proof.
  intros Hc Hb H. unfold compileWhile in H. inv_ok H.
  destruct (Hb _ _ _ E) as (B & -> & HfB & HsB).
  destruct (Hc _ _ _ E0) as (C & -> & HfC & HsC).
  exists C, B. do 2 eexists.
  split; [exact E|]. split; [exact E0|]. split; [reflexivity|].
  split; [solve_encoding|]. split; [done|]. split; [done|].
  intros Hst.
  destruct (HsB (scopes_below_entered _ (scopes_below_entered _ Hst))) as (Hs1 & Hle1 & Hb1).
  destruct (HsC (scopes_below_left _ Hs1)) as (Hs2 & Hle2 & Hb2).
  cbn [localVarsIndex left_ entered with_scopes] in *.
  split.
  { apply (scopes_below_eq (left_ s0)); [reflexivity|cbn; lia|].
    now apply scopes_below_left. }
  split; [lia|]. split; [done|]. eapply locals_below_mono; eauto.
Qed.

Lemma lowered_compileWhile c b : lowered c -> lowered b -> lowered (compileWhile c b).
Proof.
  intros Hc Hb st code st' H.
  destruct (compileWhile_code _ _ _ _ _ Hc Hb H)
    as (C & B & sb & sc & _ & _ & -> & -> & HfC & HfB & Hs).
  exists (whileCode (localVarsIndex sc) C B).
  split; [reflexivity|]. split; [solve_forallb|].
  intros Hst. destruct (Hs Hst) as (Hs' & Hle & HbC & HbB).
  split; [done|]. cbn [localVarsIndex with_index]. split; [lia|].
  apply (locals_below_mono _ (S (localVarsIndex sc))) in HbC, HbB; try lia.
  solve_forallb.
Qed.

(** *** If *)

Lemma elifLoop_code elifs : forall E st code st',
  Forall (fun b => lowered (fst b) /\ lowered (snd b)) elifs ->
  forallb readable E = true ->
  elifLoop elifs (encodes E) st = (Ok code, st') ->
  exists pairs,
    code = encodes (elifChain pairs E)
    /\ compiledElifs elifs st pairs st'
    /\ forallb readable (elifChain pairs E) = true
    /\ (scopes_below st -> forallb (locals_below (localVarsIndex st)) E = true ->
        scopes_below st'
        /\ (localVarsIndex st <= localVarsIndex st')%nat
        /\ forallb (locals_below (localVarsIndex st')) (elifChain pairs E) = true).
Proof.
  induction elifs as [|[condition body] rest IH]; intros E st code st' Hl HfE H.
  - cbn [elifLoop] in H. inv_ok H. exists []. cbn [elifChain].
    split; [reflexivity|]. split; [reflexivity|]. split; [done|].
    intros Hst Hb. repeat split; auto.
  - cbn [elifLoop] in H. inversion Hl as [|? ? [Hc Hb] Hrest]; subst.
    cbn [fst snd] in Hc, Hb.
    apply bind_Ok in H as (elseBlock & s0 & E0 & H).
    destruct (IH _ _ _ _ Hrest HfE E0) as (pairs & -> & Hpairs & Hfp & Hsp).
    inv_ok H.
    destruct (Hc _ _ _ E1) as (C & -> & HfC & HsC).
    destruct (Hb _ _ _ E2) as (B & -> & HfB & HsB).
    exists ((C, B) :: pairs). cbn [elifChain].
    split; [solve_encoding|].
    split.
    { cbn [compiledElifs]. exists s0. do 2 eexists.
      split; [exact Hpairs|]. split; [exact E1|]. split; [exact E2|].
      split; [now apply decodes_encodes|]. split; [now apply decodes_encodes|reflexivity]. }
    split; [solve_forallb|].
    intros Hst HbE. destruct (Hsp Hst HbE) as (Hs0 & Hle0 & Hb0).
    destruct (HsC Hs0) as (Hs1 & Hle1 & Hb1).
    destruct (HsB (scopes_below_entered _ Hs1)) as (Hs2 & Hle2 & Hb2).
    cbn [localVarsIndex entered with_scopes] in *.
    split; [now apply scopes_below_left in Hs2|].
    split; [lia|].
    eapply locals_below_mono in Hb0; [|etrans; [exact Hle1|exact Hle2]].
    eapply locals_below_mono in Hb1; [|exact Hle2].
    solve_forallb.
Qed.

Lemma compileIf_code condition thenBody elifs elseBody st code st' :
  lowered condition -> lowered thenBody ->
  Forall (fun b => lowered (fst b) /\ lowered (snd b)) elifs ->
  (forall body, elseBody = Some body -> lowered body) ->
  compileIf condition thenBody elifs elseBody st = (Ok code, st') ->
  exists C T pairs E s1 s2 s3,
    code = encodes (ifCode C T pairs E)
    /\ condition st = (Ok (encodes C), s1)
    /\ thenBody (entered s1) = (Ok (encodes T), s2)
    /\ compiledElse elseBody (left_ s2) E s3
    /\ compiledElifs elifs s3 pairs st'
    /\ forallb readable C = true /\ forallb readable T = true
    /\ forallb readable (ifCode C T pairs E) = true
    /\ (scopes_below st ->
        scopes_below st'
        /\ (localVarsIndex st <= localVarsIndex st')%nat
        /\ forallb (locals_below (localVarsIndex st')) (ifCode C T pairs E) = true).
Proof.
  intros Hc Ht Hl He H. unfold compileIf in H.
  apply bind_Ok in H as (cond & s1 & E1 & H).
  apply bind_Ok in H as (u2 & s2 & E2 & H).
  apply bind_Ok in H as (thenBranch & s3 & E3 & H).
  apply bind_Ok in H as (u4 & s4 & E4 & H).
  apply bind_Ok in H as (is_truthy & s5 & E5 & H).
  apply bind_Ok in H as (elseBlock & s6 & E6 & H).
  apply bind_Ok in H as (chain & s7 & E7 & H).
  inv_ok E2. inv_ok E4. inv_ok E5. inv_ok H.
  destruct (Hc _ _ _ E1) as (C & -> & HfC & HsC).
  destruct (Ht _ _ _ E3) as (T & -> & HfT & HsT).
  assert (exists E, elseBlock = encodes E /\ compiledElse elseBody (left_ s3) E s6
            /\ forallb readable E = true
            /\ (scopes_below (left_ s3) ->
                scopes_below s6 /\ (localVarsIndex s3 <= localVarsIndex s6)%nat
                /\ forallb (locals_below (localVarsIndex s6)) E = true))
    as (E & -> & HcE & HfE & HsE).
  { destruct elseBody as [body|].
    - inv_ok E6.
      destruct (He _ eq_refl _ _ _ E) as (E' & -> & HfE & HsE).
      exists E'. split; [reflexivity|].
      split; [eexists; split; [exact E|]; split; [now apply decodes_encodes|reflexivity]|].
      split; [done|]. intros Hst.
      destruct (HsE (scopes_below_entered _ Hst)) as (Hs' & Hle & Hb).
      cbn [localVarsIndex entered left_ with_scopes] in *.
      split; [now apply scopes_below_left in Hs'|]. split; [lia|done].
    - inv_ok E6. exists []. repeat split; auto. }
  destruct (elifLoop_code _ _ _ _ _ Hl HfE E7) as (pairs & -> & Hpairs & Hfp & Hsp).
  exists C, T, pairs, E, s1, s3, s6.
  split; [solve_encoding|].
  split; [exact E1|]. split; [exact E3|].
  split; [exact HcE|]. split; [exact Hpairs|].
  split; [done|]. split; [done|]. split; [solve_forallb|].
  intros Hst. destruct (HsC Hst) as (Hs1 & Hle1 & Hb1).
  destruct (HsT (scopes_below_entered _ Hs1)) as (Hs3 & Hle3 & Hb3).
  destruct (HsE (scopes_below_left _ Hs3)) as (Hs6 & Hle6 & Hb6).
  destruct (Hsp Hs6 Hb6) as (Hs7 & Hle7 & Hb7).
  cbn [localVarsIndex entered left_ with_scopes] in *.
  split; [done|]. split; [lia|].
  eapply locals_below_mono in Hb1; [|etrans; [exact Hle3|etrans; [exact Hle6|exact Hle7]]].
  eapply locals_below_mono in Hb3; [|etrans; [exact Hle6|exact Hle7]].
  solve_forallb.
Qed.

Lemma lowered_compileIf condition thenBody elifs elseBody :
  lowered condition -> lowered thenBody ->
  Forall (fun b => lowered (fst b) /\ lowered (snd b)) elifs ->
  (forall body, elseBody = Some body -> lowered body) ->
  lowered (compileIf condition thenBody elifs elseBody).
Proof.
  intros Hc Ht Hl He st code st' H.
  destruct (compileIf_code _ _ _ _ _ _ _ Hc Ht Hl He H)
    as (C & T & pairs & E & s1 & s2 & s3 & -> & _ & _ & _ & _ & _ & _ & Hf & Hs).
  exists (ifCode C T pairs E). auto.
Qed.

(** *** For *)

Lemma compileFor_code assignment identifier conditionM incrementM bodyM st code st' :
  lowered assignment -> lowered conditionM ->
  (forall inc, incrementM = Some inc -> lowered inc) -> lowered bodyM ->
  compileFor assignment identifier conditionM incrementM bodyM st = (Ok code, st') ->
  exists I C S B loopVar s1 s2 s3 s4,
    assignment (entered st) = (Ok (encodes I), s1)
    /\ lookupVar (name identifier) (scopes s1) = Some loopVar
    /\ conditionM (entered s1) = (Ok (encodes C), s2)
    /\ compiledStep incrementM s2 S s3
    /\ bodyM s3 = (Ok (encodes B), s4)
    /\ scopes st' = tail (tail (scopes s4))
    /\ localVarsIndex st' = (2 + localVarsIndex s4)%nat
    /\ code = encodes (forCode (1 + localVarsIndex s4) (localVarsIndex s4) loopVar I C S B)
    /\ forallb readable I = true /\ forallb readable C = true
    /\ forallb readable S = true /\ forallb readable B = true
    /\ (scopes_below st ->
        scopes_below st'
        /\ (localVarsIndex st <= localVarsIndex s4)%nat
        /\ (loopVar < localVarsIndex s4)%nat
        /\ forallb (locals_below (localVarsIndex s4)) I = true
        /\ forallb (locals_below (localVarsIndex s4)) C = true
        /\ forallb (locals_below (localVarsIndex s4)) S = true
        /\ forallb (locals_below (localVarsIndex s4)) B = true).
Proof.
  intros Ha Hc Hi Hb H. unfold compileFor in H.
  apply bind_Ok in H as (u1 & s0 & E0 & H). inv_ok E0.
  apply bind_Ok in H as (init & s1 & E1 & H).
  apply bind_Ok in H as (lv & s1' & Elv & H). inv_ok Elv.
  destruct (lookupVar (name identifier) (scopes s1)) as [loopVar|] eqn:Elook;
    [|inv_ok H].
  apply bind_Ok in H as (u2 & s1' & E1' & H). inv_ok E1'.
  apply bind_Ok in H as (cond & s2 & E2 & H).
  apply bind_Ok in H as (step & s3 & E3 & H).
  apply bind_Ok in H as (loopBody & s4 & E4 & H).
  inv_ok H.
  destruct (Ha _ _ _ E1) as (I & -> & HfI & HsI).
  destruct (Hc _ _ _ E2) as (C & -> & HfC & HsC).
  destruct (Hb _ _ _ E4) as (B & -> & HfB & HsB).
  assert (exists S, step = encodes S /\ compiledStep incrementM s2 S s3
            /\ forallb readable S = true
            /\ (scopes_below s2 ->
                scopes_below s3 /\ (localVarsIndex s2 <= localVarsIndex s3)%nat
                /\ forallb (locals_below (localVarsIndex s3)) S = true))
    as (S & -> & HcS & HfS & HsS).
  { destruct incrementM as [inc|].
    - destruct (Hi _ eq_refl _ _ _ E3) as (S & -> & HfS & HsS).
      exists S. repeat split; auto; now apply HsS.
    - inv_ok E3. exists defaultStep.
      split; [solve_encoding|]. split; [split; reflexivity|].
      split; [reflexivity|]. intros Hst. repeat split; auto. }
  exists I, C, S, B, loopVar, s1, s2, s3, s4.
  split; [exact E1|]. split; [exact Elook|]. split; [exact E2|].
  split; [exact HcS|]. split; [exact E4|].
  split; [reflexivity|]. split; [reflexivity|].
  split; [solve_encoding|].
  split; [done|]. split; [done|]. split; [done|]. split; [done|].
  intros Hst.
  destruct (HsI (scopes_below_entered _ Hst)) as (Hs1 & Hle1 & Hb1).
  destruct (HsC (scopes_below_entered _ Hs1)) as (Hs2 & Hle2 & Hb2).
  destruct (HsS Hs2) as (Hs3 & Hle3 & Hb3).
  destruct (HsB Hs3) as (Hs4 & Hle4 & Hb4).
  pose proof (slots_below_lookup _ _ _ _ Hs1 Elook) as Hlv.
  cbn [localVarsIndex entered left_ with_scopes with_index scopes] in *.
  split.
  { apply (scopes_below_eq (left_ (left_ s4))); [reflexivity|cbn; lia|].
    now apply scopes_below_left, scopes_below_left. }
  split; [lia|]. split; [lia|].
  split; [eapply locals_below_mono; [|exact Hb1]; lia|].
  split; [eapply locals_below_mono; [|exact Hb2]; lia|].
  split; [eapply locals_below_mono; [|exact Hb3]; lia|].
  done.
Qed.

Lemma lowered_compileFor assignment identifier conditionM incrementM bodyM :
  lowered assignment -> lowered conditionM ->
  (forall inc, incrementM = Some inc -> lowered inc) -> lowered bodyM ->
  lowered (compileFor assignment identifier conditionM incrementM bodyM).
Proof.
  intros Ha Hc Hi Hb st code st' H.
  destruct (compileFor_code _ _ _ _ _ _ _ _ Ha Hc Hi Hb H)
    as (I & C & S & B & loopVar & s1 & s2 & s3 & s4 & _ & _ & _ & _ & _
        & Hsc & Hidx & -> & HfI & HfC & HfS & HfB & Hs).
  eexists. split; [reflexivity|]. split; [solve_forallb|].
  intros Hst. destruct (Hs Hst) as (Hs' & Hle & Hlv & HbI & HbC & HbS & HbB).
  split; [done|]. rewrite Hidx. split; [lia|].
  apply (locals_below_mono _ (2 + localVarsIndex s4)) in HbI, HbC, HbS, HbB; try lia.
  solve_forallb.
Qed.

(** *** Function declarations and statements *)

Section LoweredStatements.

Variable getLocalDecls : cstate -> bytes.

Lemma compileFunctionDecl_code fname params bodyM st code st' :
  lowered bodyM ->
  compileFunctionDecl getLocalDecls fname params bodyM st = (Ok code, st') ->
  exists B s1 s2,
    code = []
    /\ bodyM s1 = (Ok (encodes B), s2)
    /\ functionBodies st' !! name fname
       = Some (getLocalDecls s2 ++ encodes (functionCode B) ++ Wasm.control.end_)
    /\ forallb readable B = true
    /\ scopes st' = scopes st
    /\ localVarsIndex st' = localVarsIndex st.
Proof.
  intros Hb H. unfold compileFunctionDecl in H.
  apply bind_Ok in H as (defined & s0 & E0 & H). inv_ok E0.
  destruct (existsb _ _); [inv_ok H|].
  apply bind_Ok in H as (u1 & s1 & E1 & H). inv_ok E1.
  apply bind_Ok in H as (prevIndex & s1 & E1 & H). inv_ok E1.
  apply bind_Ok in H as (u2 & s1 & E1 & H). inv_ok E1.
  apply bind_Ok in H as (scopesTmp & s1 & E1 & H). inv_ok E1.
  apply bind_Ok in H as (u3 & s1 & E1 & H). inv_ok E1.
  apply bind_Ok in H as (u4 & s1 & E1 & H).
  apply bind_Ok in H as (body & s2 & E2 & H).
  inv_ok H.
  destruct (Hb _ _ _ E2) as (B & -> & HfB & _).
  exists B, s1, s2.
  split; [reflexivity|]. split; [exact E2|].
  split.
  { cbn. rewrite object_lookup_insert.
    f_equal. f_equal. solve_encoding. }
  split; [done|]. split; reflexivity.
Qed.

Lemma lowered_compileFunctionDecl fname params bodyM :
  lowered bodyM -> lowered (compileFunctionDecl getLocalDecls fname params bodyM).
Proof.
  intros Hb st code st' H.
  destruct (compileFunctionDecl_code _ _ _ _ _ _ Hb H)
    as (B & s1 & s2 & -> & _ & _ & _ & Hsc & Hidx).
  exists []. split; [reflexivity|]. split; [reflexivity|].
  intros Hst. rewrite Hidx.
  split; [apply (scopes_below_eq st); auto; lia|]. split; [lia|reflexivity].
Qed.

Lemma lowered_compileExpressionStatement e :
  lowered (compileExpressionStatement e).
Proof.
  assert (Hdrop : lowered (let* code := compileExpression e in ret (code ++ Wasm.misc.drop))).
  { intros st code st' H. inv_ok H.
    destruct (lowered_compileExpression e _ _ _ E) as (ins & -> & Hf & Hs).
    exists (ins ++ [Drop]).
    split; [solve_encoding|]. split; [solve_forallb|].
    intros Hst. destruct (Hs Hst) as (Hs' & Hle & Hb).
    repeat split; try done. solve_forallb. }
  destruct e; try exact Hdrop.
  intros st code st' H. unfold compileExpressionStatement in H.
  apply bind_Ok in H as (c & s1 & E & H).
  apply bind_Ok in H as (returns & s2 & E2 & H). inv_ok E2.
  destruct (lowered_compileExpression _ _ _ _ E) as (ins & -> & Hf & Hs).
  destruct (0 <? _)%nat; inv_ok H.
  - exists (ins ++ [Drop]).
    split; [solve_encoding|]. split; [solve_forallb|].
    intros Hst. destruct (Hs Hst) as (Hs' & Hle & Hb).
    repeat split; try done. solve_forallb.
  - exists ins. auto.
Qed.

Lemma lowered_emit e (tail_ : cstate -> bytes) (ins : list instr) :
  (forall st, tail_ st = encodes ins) ->
  forallb readable ins = true ->
  (forall n, forallb (locals_below n) ins = true) ->
  lowered (let* code := compileExpression e in
           let* t := gets tail_ in ret (code ++ t)).
Proof.
  intros Ht Hft Hbt st code st' H. inv_ok H.
  destruct (lowered_compileExpression e _ _ _ E) as (is1 & -> & Hf & Hs).
  exists (is1 ++ ins).
  split; [rewrite Ht; now rewrite encodes_app|].
  split; [rewrite forallb_app, Hf, Hft; reflexivity|].
  intros Hst. destruct (Hs Hst) as (Hs' & Hle & Hb).
  repeat split; try done. now rewrite forallb_app, Hb, Hbt.
Qed.

Lemma lowered_compileStatement s : lowered (compileStatement getLocalDecls s).
Proof.
  induction s as [e|e|x e|x e|c thn elifs els IHthn IHelifs IHels|c body IH
                  |isLocal x init c inc body IH|f params body IH|e|e|t]
    using Statement_nested_ind; cbn [compileStatement].
  - apply (lowered_emit e (fun st => Wasm.fn.call (func st "println")) [Call (helper "println")]);
      [intros st; solve_encoding|reflexivity|reflexivity].
  - apply (lowered_emit e (fun st => Wasm.fn.call (func st "print")) [Call (helper "print")]);
      [intros st; solve_encoding|reflexivity|reflexivity].
  - apply lowered_compileAssign, lowered_compileExpression.
  - apply lowered_compileAssign, lowered_compileExpression.
  - apply lowered_compileIf.
    + apply lowered_compileExpression.
    + now apply lowered_flatMapM.
    + apply Forall_map. eapply Forall_impl; [eassumption|].
      intros [c' b] Hb. cbn in *. split; [apply lowered_compileExpression|].
      now apply lowered_flatMapM.
    + intros b Hb. destruct els as [body|]; [|discriminate].
      injection Hb as <-. apply lowered_flatMapM. eauto.
  - apply lowered_compileWhile; [apply lowered_compileExpression|now apply lowered_flatMapM].
  - apply lowered_compileFor.
    + apply lowered_compileAssign, lowered_compileExpression.
    + apply lowered_compileExpression.
    + intros i Hi. destruct inc; [|discriminate]. injection Hi as <-.
      apply lowered_compileExpression.
    + now apply lowered_flatMapM.
  - apply lowered_compileFunctionDecl. now apply lowered_flatMapM.
  - intros st code st' H. inv_ok H.
    destruct (lowered_compileExpression e _ _ _ E) as (ins & -> & Hf & Hs).
    exists (ins ++ [Return]).
    split; [solve_encoding|]. split; [solve_forallb|].
    intros Hst. destruct (Hs Hst) as (Hs' & Hle & Hb).
    repeat split; try done. solve_forallb.
  - apply lowered_compileExpressionStatement.
  - intros st code st' H. inv_ok H.
Qed.

Lemma lowered_compileStatements l : lowered (compileStatements getLocalDecls l).
Proof.
  apply lowered_flatMapM, Forall_forall. intros s _. apply lowered_compileStatement.
Qed.

(** What a function declaration registers under the function's name:
    the local declarations, the body's code, [call box_nil], [return] and
    [end]; the statement itself emits nothing. *)
Lemma compileStatement_FunctionDecl fname params body st code st' :
  compileStatement getLocalDecls (FunctionDeclStatement fname params body) st
    = (Ok code, st') ->
  code = []
  /\ exists B s1 s2,
       compileStatements getLocalDecls body s1 = (Ok (encodes B), s2)
       /\ functionBodies st' !! name fname
          = Some (getLocalDecls s2
                  ++ encodes (B ++ [Call (helper "box_nil"); Return])
                  ++ Wasm.control.end_).
Proof.
  intros H. cbn [compileStatement] in H.
  apply compileFunctionDecl_code in H as (B & s1 & s2 & -> & E & Hbody & _);
    [|apply lowered_compileStatements].
  split; [reflexivity|]. exists B, s1, s2. split; [exact E|exact Hbody].
Qed.

End LoweredStatements.

(** ** What the module holds for each function *)

(** A step that only reads the state. *)
Definition reads {A} (m : M A) : Prop :=
  forall st r st', m st = (Ok r, st') -> st' = st.

Lemma reads_flatMapM {A} (f : A -> M bytes) xs :
  (forall x, reads (f x)) -> reads (flatMapM f xs).
Proof.
  intros Hf. induction xs as [|x xs IH]; intros st r st' H; cbn [flatMapM] in H.
  - now inv_ok H.
  - apply bind_Ok in H as (b & s1 & E1 & H).
    apply bind_Ok in H as (bs & s2 & E2 & H). inv_ok H.
    apply Hf in E1. apply IH in E2. congruence.
Qed.

Lemma reads_typeIndexBytes what types f : reads (typeIndexBytes what types f).
Proof.
  intros st r st' H. unfold typeIndexBytes in H.
  destruct (functionIndices types (fn_type f)); now inv_ok H.
Qed.

Lemma reads_importEntry types f : reads (importEntry types f).
Proof.
  intros st r st' H. unfold importEntry in H.
  destruct (functionIndices types (fn_type f)); now inv_ok H.
Qed.

Lemma reads_codeEntry f : reads (codeEntry f).
Proof.
  intros st r st' H. unfold codeEntry in H.
  apply bind_Ok in H as (body & s1 & E1 & H). inv_ok E1.
  destruct (functionBodies st !! fn_name f); [now inv_ok H|].
  destruct (JsObject.inherited _ _); inv_ok H.
Qed.

(** The entry of a function in the Code section: the body registered
    under its name, behind its size. *)
Definition entryOf (st : cstate) (f : fnrec) : bytes :=
  match functionBodies st !! fn_name f with
  | Some body => Wasm.unsignedLEB (N.of_nat (length body)) ++ body
  | None => []
  end.

Lemma flatMapM_codeEntry fs st r st' :
  flatMapM codeEntry fs st = (Ok r, st') ->
  r = concat (map (entryOf st) fs).
Proof.
  revert r. induction fs as [|f fs IH]; intros r H; cbn [flatMapM] in H.
  - now inv_ok H.
  - apply bind_Ok in H as (b & s1 & E1 & H).
    apply bind_Ok in H as (bs & s2 & E2 & H). inv_ok H.
    unfold codeEntry in E1. apply bind_Ok in E1 as (body & s0 & E0 & E1). inv_ok E0.
    unfold entryOf. cbn [map concat].
    destruct (functionBodies st !! fn_name f);
      [|destruct (JsObject.inherited _ _); inv_ok E1].
    inv_ok E1. apply IH in E2 as ->. reflexivity.
Qed.

Lemma sections_of_eight ty im fu me gl ex co da :
  Decode.sections
    (header ++ Wasm.emitSection 1 ty ++ Wasm.emitSection 2 im
       ++ Wasm.emitSection 3 fu ++ Wasm.emitSection 5 me
       ++ Wasm.emitSection 6 gl ++ Wasm.emitSection 7 ex
       ++ Wasm.emitSection 10 co ++ Wasm.emitSection 11 da)
  = Some [(1, ty); (2, im); (3, fu); (5, me); (6, gl); (7, ex); (10, co); (11, da)].
Proof.
  rewrite <- sections_of_module. unfold emitSections.
  cbn [map concat fst snd]. now rewrite app_nil_r.
Qed.

Lemma sectionsWithId_code ty im fu me gl ex co da :
  sectionsWithId 10
    [(1, ty); (2, im); (3, fu); (5, me); (6, gl); (7, ex); (10, co); (11, da)]
  = [co].
Proof. reflexivity. Qed.

Section ModuleBodies.

Variable getLocalDecls : cstate -> bytes.
Variable helperBodies : gmap string bytes.

(** The Code section of a module holds, for every defined and every
    user-defined function in turn, the body registered under the
    function's name when lowering is over; and the body registered under
    [main] then is the body of the program. *)
Lemma _compile_code_section body st code st' :
  _compile getLocalDecls helperBodies body st = (Ok code, st') ->
  (exists s1 s2 ins,
      compileStatements getLocalDecls body s1 = (Ok ins, s2)
      /\ functionBodies st' !! "main"
         = Some (getLocalDecls s2 ++ ins ++ Wasm.control.end_))
  /\ codeBodies code
     = readCode (Wasm.unsignedLEB (N.of_nat (length (JsObject.keys (functionBodies st'))))
                 ++ concat (map (entryOf st')
                              (definedFunctions ++ userDefinedFunctions st'))).
Proof.
  intros H. pose proof H as Hlayout.
  apply _compile_layout in Hlayout as (ty & im & fu & ex & co & Hcode).
  unfold _compile, mainFuncBody in H.
  apply bind_Ok in H as (u1 & s1 & E1 & H). inv_ok E1.
  apply bind_Ok in H as (u2 & s2 & E2 & H). inv_ok E2.
  apply bind_Ok in H as (u3 & s3 & E3 & H). inv_ok E3.
  apply bind_Ok in H as (u4 & s4 & E4 & H). inv_ok E4.
  apply bind_Ok in H as (mainFunc & s5 & E5 & H).
  apply bind_Ok in E5 as (ins & s6 & E6 & E5). inv_ok E5.
  apply bind_Ok in H as (u5 & s7 & E7 & H). inv_ok E7.
  apply bind_Ok in H as (types & s8 & E8 & H). inv_ok E8.
  apply bind_Ok in H as (userFns & s9 & E9 & H). inv_ok E9.
  apply bind_Ok in H as (definedIdx & s10 & E10 & H).
  apply reads_flatMapM in E10 as ->; [|apply reads_typeIndexBytes].
  apply bind_Ok in H as (userIdx & s11 & E11 & H).
  apply reads_flatMapM in E11 as ->; [|apply reads_typeIndexBytes].
  apply bind_Ok in H as (imports & s12 & E12 & H).
  apply reads_flatMapM in E12 as ->; [|apply reads_importEntry].
  apply bind_Ok in H as (mainIndex & s13 & E13 & H). inv_ok E13.
  apply bind_Ok in H as (bodyCount & s14 & E14 & H). inv_ok E14.
  apply bind_Ok in H as (definedCode & s15 & E15 & H).
  pose proof (flatMapM_codeEntry _ _ _ _ E15) as ->.
  apply reads_flatMapM in E15 as ->; [|apply reads_codeEntry].
  apply bind_Ok in H as (userCode & s16 & E16 & H).
  pose proof (flatMapM_codeEntry _ _ _ _ E16) as ->.
  apply reads_flatMapM in E16 as ->; [|apply reads_codeEntry].
  inv_ok H.
  split.
  - do 3 eexists. split; [exact E6|]. cbn. now rewrite object_lookup_insert.
  - unfold codeBodies, memorySection, globalSection, dataSection.
    rewrite sections_of_eight, sectionsWithId_code.
    now rewrite map_app, concat_app.
Qed.

(** So the entry of any function named [main], the user-defined ones
    included, is the body of the program. *)
Lemma entry_of_function_named_main body st code st' f :
  _compile getLocalDecls helperBodies body st = (Ok code, st') ->
  fn_name f = "main" ->
  exists s1 s2 ins,
    compileStatements getLocalDecls body s1 = (Ok ins, s2)
    /\ entryOf st' f
       = Wasm.unsignedLEB
           (N.of_nat (length (getLocalDecls s2 ++ ins ++ Wasm.control.end_)))
         ++ getLocalDecls s2 ++ ins ++ Wasm.control.end_.
Proof.
  intros H Hname.
  destruct (_compile_code_section _ _ _ _ H) as [(s1 & s2 & ins & E & Hmain) _].
  exists s1, s2, ins. split; [exact E|].
  unfold entryOf. now rewrite Hname, Hmain.
Qed.

End ModuleBodies.

(** ** The ghost tick *)

Lemma unticks_app a b : unticks (a ++ b) = unticks a ++ unticks b.
Proof. unfold unticks. now rewrite map_app, concat_app. Qed.

Lemma unticks_Forall code :
  Forall (fun i => tick_free i = true -> untick i = [i]) code ->
  forallb tick_free code = true -> unticks code = code.
Proof.
  induction 1 as [|i code Hi _ IH]; [done|]. cbn [forallb].
  intros H. apply andb_prop in H as [H1 H2].
  unfold unticks in *. cbn [map concat]. now rewrite Hi, IH.
Qed.

Lemma untick_tick_free i : tick_free i = true -> untick i = [i].
Proof.
  induction i as [bt body IH|bt body IH|bt t e IHt IHe|i Hi]
    using instr_nested_ind; cbn [tick_free untick].
  - intros H. change (concat (map untick body)) with (unticks body).
    now rewrite (unticks_Forall body IH H).
  - intros H. change (concat (map untick body)) with (unticks body).
    now rewrite (unticks_Forall body IH H).
  - intros H. apply andb_prop in H as [Ht He].
    change (concat (map untick t)) with (unticks t).
    rewrite (unticks_Forall t IHt Ht).
    destruct e as [b|]; [|reflexivity].
    change (concat (map untick b)) with (unticks b).
    now rewrite (unticks_Forall b (IHe b eq_refl) He).
  - destruct i; try contradiction; try reflexivity. discriminate.
Qed.

Lemma unticks_tick_free code : forallb tick_free code = true -> unticks code = code.
Proof.
  intros H. apply unticks_Forall; [|exact H].
  apply Forall_forall. intros i _. apply untick_tick_free.
Qed.

Ltac solve_unticks :=
  rewrite ?unticks_app;
  repeat match goal with
  | |- context [unticks [Tick]] => change (unticks [Tick]) with (@nil instr)
  | |- context [unticks ?X] => rewrite (unticks_tick_free X) by solve_forallb
  end;
  rewrite ?app_nil_l; reflexivity.

Lemma unticks_tickedWhileCode counter C B :
  forallb tick_free C = true -> forallb tick_free B = true ->
  unticks (tickedWhileCode counter C B) = whileCode counter C B.
Proof.
  intros HC HB. unfold tickedWhileCode, whileCode.
  match goal with
  | |- unticks [?a; ?b; Block ?bt [Loop ?bt' ?body]] = _ =>
      change (unticks [a; b; Block bt [Loop bt' body]])
        with [a; b; Block bt [Loop bt' (unticks body)]]
  end.
  do 4 f_equal. solve_unticks.
Qed.

Lemma unticks_tickedForCode counter isDescending loopVar I C S B :
  forallb tick_free (I ++ C ++ S) = true -> forallb tick_free B = true ->
  unticks (tickedForCode counter isDescending loopVar I C S B)
  = forCode counter isDescending loopVar I C S B.
Proof.
  intros H HB. rewrite !forallb_app in H.
  apply andb_prop in H as [HI H]. apply andb_prop in H as [HC HS].
  unfold tickedForCode, forCode.
  rewrite !unticks_app, (unticks_tick_free I HI), (unticks_tick_free S HS).
  do 3 f_equal.
  match goal with
  | |- unticks [?a; ?b; ?c; ?d; Block ?bt [Loop ?bt' ?body]] = _ =>
      change (unticks [a; b; c; d; Block bt [Loop bt' body]])
        with [a; b; c; d; Block bt [Loop bt' (unticks body)]]
  end.
  do 6 f_equal. solve_unticks.
Qed.

(** ** One entry of a compiled loop *)

Section LoopEntry.

Variable f64op : Z -> list Run.val -> option (list Run.val).
Variable numberHelper :
  string -> list Run.val -> Run.store -> option (list Run.val * Run.store).
Variable functions : nat -> option Run.fundef.
Hypothesis numberHelper_ticks : forall x args s r s',
  numberHelper x args s = Some (r, s') -> Run.ticks s' = Run.ticks s.
Hypothesis functions_tick_free : forall k f,
  functions k = Some f -> forallb tick_free (Run.f_code f) = true.

Lemma loopCode_bound counter B real ticked fuel c :
  loopCode counter B real ticked ->
  forallb tick_free B = true ->
  forallb (locals_below counter) B = true ->
  (Run.ticks (Run.sto (Run.final (Run.exec f64op numberHelper functions fuel ticked c)))
   <= Run.ticks (Run.sto c) + Z.to_nat MAX_ITERATIONS)%nat.
Proof.
  intros Hcode HfB HbB.
  destruct Hcode as [C HfC HbC|isDescending loopVar I C S HfICS HbICS Hlv ->].
  - replace (tickedWhileCode counter C B)
      with (cappedLoop counter []
              (C ++ [Call (helper "is_truthy"); Numeric 0x45; BrIf 1]) (B ++ [Br 0])).
    2: { unfold cappedLoop, guardedBody, tickedWhileCode.
         rewrite <- !app_assoc. reflexivity. }
    apply (RunFacts.exec_cappedLoop f64op numberHelper functions
             numberHelper_ticks functions_tick_free); try reflexivity; solve_forallb.
  - rewrite !forallb_app in HfICS, HbICS.
    apply andb_prop in HfICS as [HfI HfCS]. apply andb_prop in HfCS as [HfC HfS].
    apply andb_prop in HbICS as [HbI HbCS]. apply andb_prop in HbCS as [HbC HbS].
    apply (locals_below_mono _ (Datatypes.S isDescending)) in HbI, HbC, HbS; try lia.
    replace (tickedForCode (Datatypes.S isDescending) isDescending loopVar I C S B)
      with (cappedLoop (Datatypes.S isDescending)
              (I ++ S ++ [Call (helper "unbox_number"); F64Const 0; Numeric 0x63;
                          LocalSet isDescending])
              [ LocalGet isDescending;
                If (Wasm.valType Wasm.I32)
                  ([LocalGet loopVar; Call (helper "unbox_number")]
                   ++ C ++ [Call (helper "unbox_number"); Numeric 0x63])
                  (Some ([LocalGet loopVar; Call (helper "unbox_number")]
                         ++ C ++ [Call (helper "unbox_number"); Numeric 0x64]));
                BrIf 1 ]
              (B ++ [ LocalGet loopVar; Call (helper "unbox_number") ]
                 ++ S
                 ++ [ Call (helper "unbox_number"); Numeric 0xA0;
                      Call (helper "box_number"); LocalSet loopVar; Br 0 ])).
    2: { unfold cappedLoop, guardedBody, tickedForCode.
         rewrite <- !app_assoc. reflexivity. }
    apply (RunFacts.exec_cappedLoop f64op numberHelper functions
             numberHelper_ticks functions_tick_free); solve_forallb.
Qed.

End LoopEntry.

(** ** The claims about lowered code *)

Section LoweringClaims.

Variable getLocalDecls : cstate -> bytes.

(** C4. The code of a binary [+] is the two operands' code arranged as a
    dispatch among three branches ([plusCode]): [is_string] of the left
    or-ed with [is_string] of the right selects the branch that calls
    [concat]; otherwise [is_bool] of the left or-ed with [is_bool] of the
    right selects the branch that coerces both operands with [to_number],
    unboxes them, adds them with [f64.add] and boxes the sum as a number;
    otherwise both operands are unboxed, added and the sum boxed as a
    number.  Run on operands that are values (code that pushes one box and
    changes nothing, as the read of a variable), the code ends with the
    result of [concat] when either box is a string; else, when either is
    a boolean, with a fresh box of the [f64.add] of the two [to_number]
    results; else, on two numbers, with a fresh box of their
    [f64.add]. *)
Theorem plus_dispatches_three_ways l r st code st' :
  compileExpression (BinaryExpression l "+" r) st = (Ok code, st') ->
  exists L R s1,
    compileExpression l st = (Ok (encodes L), s1)
    /\ compileExpression r s1 = (Ok (encodes R), st')
    /\ code = encodes (plusCode L R)
    /\ forallb tick_free (plusCode L R) = true
    /\ forall f64op numberHelper functions locs pl pr c vl vr,
         let runs := Run.runs f64op numberHelper functions in
         (forall c0, Run.locals c0 = locs ->
            runs L c0 (Run.Normal (Run.push (Run.VI32 pl) c0))) ->
         (forall c0, Run.locals c0 = locs ->
            runs R c0 (Run.Normal (Run.push (Run.VI32 pr) c0))) ->
         (forall x, functions (helper x) = None) ->
         Run.locals c = locs ->
         Run.heap (Run.sto c) !! pl = Some vl ->
         Run.heap (Run.sto c) !! pr = Some vr ->
         (forall q s',
            Run.isString vl || Run.isString vr = true ->
            numberHelper "concat" [Run.VI32 pl; Run.VI32 pr] (Run.sto c)
              = Some ([Run.VI32 q], s') ->
            runs (plusCode L R) c
              (Run.Normal (Run.mkConfig locs (Run.VI32 q :: Run.stack c) s')))
         /\ (forall ql xl s1 qr xr s2 sum,
              Run.isString vl || Run.isString vr = false ->
              Run.isBool vl || Run.isBool vr = true ->
              numberHelper "to_number" [Run.VI32 pl] (Run.sto c)
                = Some ([Run.VI32 ql], s1) ->
              Run.heap s1 !! ql = Some (Run.BNumber xl) ->
              numberHelper "to_number" [Run.VI32 pr] s1 = Some ([Run.VI32 qr], s2) ->
              Run.heap s2 !! qr = Some (Run.BNumber xr) ->
              f64op 0xA0 [Run.VF64 xr; Run.VF64 xl] = Some [Run.VF64 sum] ->
              runs (plusCode L R) c
                (Run.Normal
                   (Run.mkConfig locs (Run.VI32 (Run.heap_ptr s2) :: Run.stack c)
                      (snd (Run.alloc (Run.BNumber sum) s2)))))
         /\ (forall xl xr sum,
              vl = Run.BNumber xl -> vr = Run.BNumber xr ->
              f64op 0xA0 [Run.VF64 xr; Run.VF64 xl] = Some [Run.VF64 sum] ->
              runs (plusCode L R) c
                (Run.Normal
                   (Run.mkConfig locs (Run.VI32 (Run.heap_ptr (Run.sto c)) :: Run.stack c)
                      (snd (Run.alloc (Run.BNumber sum) (Run.sto c)))))).
Proof.
  intros H. cbn [compileExpression] in H.
  apply bind_Ok in H as (left_ & s1 & E1 & H).
  apply bind_Ok in H as (right_ & s2 & E2 & H).
  destruct (lowered_compileExpression l _ _ _ E1) as (L & -> & HfL & _).
  destruct (lowered_compileExpression r _ _ _ E2) as (R & -> & HfR & _).
  apply readable_tick_free_all in HfL, HfR.
  unfold compileBinary in H. cbn in H. inv_ok H.
  exists L, R, s1. split; [exact E1|]. split; [exact E2|].
  split; [solve_encoding|]. split; [solve_forallb|].
  intros f64op numberHelper functions locs pl pr c vl vr runs HL HR Hfn Hlocs Hvl Hvr.
  split; [|split].
  - intros q s' Htag Hconcat.
    eapply RunFacts.runs_plus_string; eauto.
  - intros ql xl s1' qr xr s2' sum Hstr Hbool Hl Hxl Hr Hxr Hsum.
    eapply RunFacts.runs_plus_bool; eauto.
  - intros xl xr sum -> -> Hsum.
    eapply RunFacts.runs_plus_number; eauto.
Qed.

(** C5. The code of an [and] and of an [or] is the left operand's code,
    once, then a store into a scratch slot no operand names, the test
    [is_truthy] of the stored value, and an [if] with the right operand's
    code in one arm only.  From a left operand that leaves a box [v]: for
    [and], if [v] is truthy the right operand runs and the expression ends
    as it ends, and if not the stored value is the result, whatever the
    right operand is; for [or], if [v] is truthy the stored value is the
    result, whatever the right operand is, and if not the right operand
    runs and the expression ends as it ends. *)
Theorem and_or_short_circuit l operator r st code st' :
  operator = "and" \/ operator = "or" ->
  compileExpression (BinaryExpression l operator r) st = (Ok code, st') ->
  exists L R s1 s2,
    compileExpression l st = (Ok (encodes L), s1)
    /\ compileExpression r s1 = (Ok (encodes R), s2)
    /\ let scratch := localVarsIndex s2 in
       code = encodes (if String.eqb operator "and" then andCode scratch L R
                       else orCode scratch L R)
       /\ (scopes_below st -> forallb (locals_below scratch) (L ++ R) = true)
       /\ forall f64op numberHelper functions c c1 p s v,
            functions (helper "is_truthy") = None ->
            Run.runs f64op numberHelper functions L c (Run.Normal c1) ->
            Run.stack c1 = Run.VI32 p :: s ->
            Run.heap (Run.sto c1) !! p = Some v ->
            let stored := Run.with_stack [] (Run.set_local scratch p (Run.with_stack s c1)) in
            let kept := Run.Normal (Run.set_local scratch p c1) in
            let evaluated o := Run.afterBlock (Wasm.valType Wasm.I32) s o in
            (Run.truthy v = true ->
               (forall o, Run.runs f64op numberHelper functions R stored o ->
                  Run.runs f64op numberHelper functions (andCode scratch L R) c (evaluated o))
               /\ Run.runs f64op numberHelper functions (orCode scratch L R) c kept)
            /\ (Run.truthy v = false ->
               Run.runs f64op numberHelper functions (andCode scratch L R) c kept
               /\ (forall o, Run.runs f64op numberHelper functions R stored o ->
                  Run.runs f64op numberHelper functions (orCode scratch L R) c (evaluated o))).
Proof.
  intros Hop H. cbn [compileExpression] in H.
  apply bind_Ok in H as (left_ & s1 & E1 & H).
  apply bind_Ok in H as (right_ & s2 & E2 & H).
  destruct (lowered_compileExpression l _ _ _ E1) as (L & -> & HfL & HsL).
  destruct (lowered_compileExpression r _ _ _ E2) as (R & -> & HfR & HsR).
  exists L, R, s1, s2. split; [exact E1|]. split; [exact E2|].
  cbv zeta. split; [|split].
  - destruct Hop as [-> | ->]; unfold compileBinary in H; cbn in H; inv_ok H;
      cbn [String.eqb Ascii.eqb Bool.eqb]; solve_encoding.
  - intros Hst. destruct (HsL Hst) as (Hs1 & Hle1 & HbL).
    destruct (HsR Hs1) as (Hs2 & Hle2 & HbR).
    eapply locals_below_mono in HbL; [|exact Hle2].
    now rewrite forallb_app, HbL, HbR.
  - intros f64op numberHelper functions c c1 p s v Hfn HL Hs Hv. split; intros Ht; split.
    + intros o Ho. eapply RunFacts.runs_and_truthy; eauto.
    + eapply RunFacts.runs_or_truthy; eauto.
    + eapply RunFacts.runs_and_falsy; eauto.
    + intros o Ho. eapply RunFacts.runs_or_falsy; eauto.
Qed.

(** C6. The bytes of a numeric [for] read back as [forCode], and as
    nothing else: the code sets the slot [isDescending] to [step < 0]
    once, before the block of the loop; the assignment, the stop
    expression, the step and the body, each read back from the bytes its
    own compilation returned, name only slots below [isDescending], so
    nothing in the loop writes that slot; each iteration, after the
    guard, tests loop variable [<] stop when [isDescending] is set and
    loop variable [>] stop when not, and leaves the loop by [br_if 1]
    when the test yields 1; without a step expression the step is
    [defaultStep], which boxes the double [1]. *)
Theorem for_direction_and_default_step isLocal x init cond inc body st code st' :
  compileStatement getLocalDecls (ForStatement isLocal x init cond inc body) st
    = (Ok code, st') ->
  exists I C S B loopVar s1 s2 s3 s4,
    compileAssign isLocal x (compileExpression init) (entered st) = (Ok (encodes I), s1)
    /\ lookupVar (name x) (scopes s1) = Some loopVar
    /\ compileExpression cond (entered s1) = (Ok (encodes C), s2)
    /\ match inc with
       | Some e => compileExpression e s2 = (Ok (encodes S), s3)
       | None => S = defaultStep /\ s3 = s2
       end
    /\ compileStatements getLocalDecls body s3 = (Ok (encodes B), s4)
    /\ decoded I /\ decoded C /\ decoded S /\ decoded B
    /\ let isDescending := localVarsIndex s4 in
       code = encodes (forCode (1 + isDescending) isDescending loopVar I C S B)
       /\ decodes code = Some (forCode (1 + isDescending) isDescending loopVar I C S B)
       /\ (scopes_below st ->
           (loopVar < isDescending)%nat
           /\ forallb (locals_below isDescending) (I ++ C ++ S ++ B) = true)
       /\ forall f64op numberHelper functions c,
            functions (helper "box_number") = None ->
            exists c',
              Run.runs f64op numberHelper functions defaultStep c (Run.Normal c')
              /\ Run.stack c' = Run.VI32 (Run.heap_ptr (Run.sto c)) :: Run.stack c
              /\ Run.heap (Run.sto c') !! Run.heap_ptr (Run.sto c)
                 = Some (Run.BNumber f64_one)
              /\ Run.locals c' = Run.locals c.
Proof.
  intros H. cbn [compileStatement] in H.
  apply compileFor_code in H
    as (I & C & S & B & loopVar & s1 & s2 & s3 & s4 & E1 & Elv & E2 & E3 & E4
        & _ & _ & -> & HfI & HfC & HfS & HfB & Hs).
  - exists I, C, S, B, loopVar, s1, s2, s3, s4.
    split; [exact E1|]. split; [exact Elv|]. split; [exact E2|].
    split; [destruct inc; exact E3|]. split; [exact E4|].
    split; [now apply decodes_encodes|]. split; [now apply decodes_encodes|].
    split; [now apply decodes_encodes|]. split; [now apply decodes_encodes|].
    cbv zeta. split; [reflexivity|]. split; [apply decodes_encodes; solve_forallb|].
    split.
    + intros Hst. destruct (Hs Hst) as (_ & _ & Hlv & HbI & HbC & HbS & HbB).
      split; [exact Hlv|]. now rewrite !forallb_app, HbI, HbC, HbS, HbB.
    + intros f64op numberHelper functions c Hfn.
      destruct (RunFacts.runs_defaultStep f64op numberHelper functions c Hfn)
        as (c' & H1 & H2 & H3 & H4).
      exists c'. auto.
  - apply lowered_compileAssign, lowered_compileExpression.
  - apply lowered_compileExpression.
  - intros i Hi. destruct inc; [|discriminate]. injection Hi as <-.
    apply lowered_compileExpression.
  - apply lowered_compileStatements.
Qed.

(** C7. The bytes of an [if] read back as [ifCode], and as nothing
    else: the first elif branch is an [if] in the else arm of the [if]
    of the statement, every further elif branch an [if] in the else arm
    of the elif branch before it, and the else block the else arm of the
    last elif branch ([elifChain]).  The parts are what the compiler got,
    in the order it works: the condition compiled in the state of the
    statement; the then branch in a new empty scope on top of the scopes
    the condition left, which is left again; the else block in a new
    empty scope of its own; then the elif branches from the last to the
    first, each condition in the state left so far and each body in a
    new empty scope of its own; the state the first elif branch leaves
    is the state after the statement. *)
Theorem elif_branches_nest_in_else_arms cond thn elifs els st code st' :
  compileStatement getLocalDecls (IfStatement cond thn elifs els) st = (Ok code, st') ->
  exists C T pairs E s1 s2 s3,
    code = encodes (ifCode C T pairs E)
    /\ decodes code = Some (ifCode C T pairs E)
    /\ compileExpression cond st = (Ok (encodes C), s1)
    /\ compileStatements getLocalDecls thn (entered s1) = (Ok (encodes T), s2)
    /\ decoded C /\ decoded T
    /\ compiledElse (option_map (compileStatements getLocalDecls) els) (left_ s2) E s3
    /\ compiledElifs
         (map (fun elif => (compileExpression (fst elif),
                            compileStatements getLocalDecls (snd elif))) elifs)
         s3 pairs st'.
Proof.
  intros H. cbn [compileStatement] in H.
  apply compileIf_code in H
    as (C & T & pairs & E & s1 & s2 & s3 & -> & E1 & E2 & HE & Hpairs & HfC & HfT & Hf & _).
  - exists C, T, pairs, E, s1, s2, s3. split; [reflexivity|].
    split; [now apply decodes_encodes|].
    split; [exact E1|]. split; [exact E2|].
    split; [now apply decodes_encodes|]. split; [now apply decodes_encodes|].
    split; [destruct els; exact HE|exact Hpairs].
  - apply lowered_compileExpression.
  - apply lowered_compileStatements.
  - apply Forall_map, Forall_forall. intros [c b] _. cbn [fst snd].
    split; [apply lowered_compileExpression|apply lowered_compileStatements].
  - intros b Hb. destruct els as [body|]; [|discriminate].
    injection Hb as <-. apply lowered_compileStatements.
Qed.

(** C3, as amended.  The bytes of a [while] and of a numeric [for] read
    back as a capped loop, and as nothing else: the code sets a counter
    slot to 0 on entry; the slot is one that no code compiled before
    names, and that the condition, the step and the body do not name, the
    body being what the bytes read back as that the compiler got for the
    body of the statement.  The body of the loop starts with the guard,
    which adds 1 to the counter while it is below [MAX_ITERATIONS] = 10000
    and traps with [unreachable] when it has reached 10000.  So, counting
    with a ghost tick at the entry of the statement's body, one execution
    of the loop statement enters the body at most 10000 times, however it
    ends. *)
Theorem loop_entry_capped s st code st' :
  isLoop s = true ->
  scopes_below st ->
  compileStatement getLocalDecls s st = (Ok code, st') ->
  exists counter B real ticked sb sb',
    code = encodes real
    /\ decodes code = Some real
    /\ loopBodyEntry s st sb
    /\ compileStatements getLocalDecls (loopBody s) sb = (Ok (encodes B), sb')
    /\ decoded B
    /\ loopCode counter B real ticked
    /\ unticks ticked = real
    /\ (localVarsIndex st <= counter < localVarsIndex st')%nat
    /\ forallb (locals_below counter) B = true
    /\ (forall f64op numberHelper functions c,
          Run.get_local counter c = MAX_ITERATIONS ->
          exists c',
            Run.exec f64op numberHelper functions 5 (iterationGuardCode counter) c
            = Run.Trapped c')
    /\ (forall f64op numberHelper functions,
          (forall x args s0 r s', numberHelper x args s0 = Some (r, s') ->
             Run.ticks s' = Run.ticks s0) ->
          (forall k f, functions k = Some f ->
             forallb tick_free (Run.f_code f) = true) ->
          forall fuel c,
            (Run.ticks (Run.sto (Run.final
               (Run.exec f64op numberHelper functions fuel ticked c)))
             <= Run.ticks (Run.sto c) + Z.to_nat MAX_ITERATIONS)%nat).
Proof.
  intros Hloop Hst H.
  assert (Hgoal : exists counter B real ticked sb sb',
    code = encodes real
    /\ decodes code = Some real
    /\ loopBodyEntry s st sb
    /\ compileStatements getLocalDecls (loopBody s) sb = (Ok (encodes B), sb')
    /\ decoded B
    /\ loopCode counter B real ticked
    /\ unticks ticked = real
    /\ (localVarsIndex st <= counter < localVarsIndex st')%nat
    /\ forallb (locals_below counter) B = true
    /\ forallb tick_free B = true).
  { destruct s; try discriminate Hloop; cbn [compileStatement loopBody loopBodyEntry] in *.
    - apply compileWhile_code in H
        as (C & B & sb & sc & Eb & Ec & -> & -> & HfC & HfB & Hs);
        [|apply lowered_compileExpression|apply lowered_compileStatements].
      destruct (Hs Hst) as (_ & Hle & HbC & HbB).
      assert (Hreal : decoded (whileCode (localVarsIndex sc) C B))
        by (apply decodes_encodes; solve_forallb).
      pose proof (decodes_encodes B HfB) as HdB.
      apply readable_tick_free_all in HfC, HfB.
      exists (localVarsIndex sc), B, (whileCode (localVarsIndex sc) C B),
        (tickedWhileCode (localVarsIndex sc) C B). do 2 eexists.
      split; [reflexivity|]. split; [exact Hreal|]. split; [reflexivity|].
      split; [exact Eb|]. split; [exact HdB|].
      split; [now constructor|].
      split; [now apply unticks_tickedWhileCode|].
      cbn [localVarsIndex with_index]. split; [lia|]. split; assumption.
    - apply compileFor_code in H
        as (I & C & S & B & loopVar & s1 & s2 & s3 & s4 & E1 & Elv & E2 & E3 & E4
            & _ & Hidx & -> & HfI & HfC & HfS & HfB & Hs).
      + destruct (Hs Hst) as (_ & Hle & Hlv & HbI & HbC & HbS & HbB).
        assert (Hreal : decoded (forCode (1 + localVarsIndex s4) (localVarsIndex s4)
                                   loopVar I C S B))
          by (apply decodes_encodes; solve_forallb).
        pose proof (decodes_encodes B HfB) as HdB.
        apply readable_tick_free_all in HfI, HfC, HfS, HfB.
        assert (HfICS : forallb tick_free (I ++ C ++ S) = true)
          by now rewrite !forallb_app, HfI, HfC, HfS.
        exists (1 + localVarsIndex s4)%nat, B,
          (forCode (1 + localVarsIndex s4) (localVarsIndex s4) loopVar I C S B),
          (tickedForCode (1 + localVarsIndex s4) (localVarsIndex s4) loopVar I C S B).
        exists s3, s4.
        split; [reflexivity|]. split; [exact Hreal|].
        split.
        { exists (encodes I), s1, (encodes C), s2.
          split; [exact E1|]. split; [exact E2|].
          destruct increment as [e|]; cbn [compiledStep] in E3.
          - now exists (encodes S).
          - now destruct E3. }
        split; [exact E4|]. split; [exact HdB|].
        split.
        { constructor; try assumption; try reflexivity.
          now rewrite !forallb_app, HbI, HbC, HbS. }
        split; [now apply unticks_tickedForCode|].
        rewrite Hidx. split; [lia|].
        split; [|assumption]. eapply locals_below_mono; [|exact HbB]. lia.
      + apply lowered_compileAssign, lowered_compileExpression.
      + apply lowered_compileExpression.
      + intros i Hi. destruct increment; [|discriminate]. injection Hi as <-.
        apply lowered_compileExpression.
      + apply lowered_compileStatements. }
  destruct Hgoal as (counter & B & real & ticked & sb & sb'
                     & H1 & H2 & H3 & H4 & H5 & H6 & H7 & H8 & H9 & H10).
  exists counter, B, real, ticked, sb, sb'.
  repeat (split; [assumption|]). split.
  - intros f64op numberHelper functions c Hc.
    now apply RunFacts.exec_guard_traps.
  - intros f64op numberHelper functions Hn Hf fuel c.
    now apply (loopCode_bound f64op numberHelper functions Hn Hf counter B real ticked).
Qed.

End LoweringClaims.

(** ** The claims at sample programs *)

Lemma scopes_below_startState : scopes_below startState.
Proof.
  unfold scopes_below, startState, slots_below. cbn [scopes localVarsIndex].
  constructor; [|constructor]. intros x i H. rewrite lookup_empty in H. discriminate H.
Defined.

(** [1 + true] *)
Definition samplePlus : Expression :=
  BinaryExpression (NumberLiteral f64_one) "+" (BooleanLiteral true).

Lemma plus_dispatches_three_ways_witness :
  exists code st' L R,
    compileExpression samplePlus startState = (Ok code, st')
    /\ code = encodes (plusCode L R).
Proof.
  destruct (compileExpression samplePlus startState) as [[code| |] st'] eqn:E;
    try (vm_compute in E; discriminate).
  destruct (plus_dispatches_three_ways _ _ _ _ _ E) as (L & R & s1 & _ & _ & Hcode & _ & _).
  exists code, st', L, R. split; [reflexivity|exact Hcode].
Defined.

(** [false and true] *)
Definition sampleAnd : Expression :=
  BinaryExpression (BooleanLiteral false) "and" (BooleanLiteral true).

Lemma and_or_short_circuit_witness :
  exists code st' scratch L R,
    compileExpression sampleAnd startState = (Ok code, st')
    /\ code = encodes (andCode scratch L R).
Proof.
  destruct (compileExpression sampleAnd startState) as [[code| |] st'] eqn:E;
    try (vm_compute in E; discriminate).
  destruct (and_or_short_circuit _ _ _ _ _ _ (or_introl eq_refl) E)
    as (L & R & s1 & s2 & _ & _ & Hcode & _).
  exists code, st', (localVarsIndex s2), L, R. split; [reflexivity|exact Hcode].
Defined.

(** [for i := 1, 1 do print i end] *)
Definition sampleFor : Statement :=
  ForStatement true (ident "i") (NumberLiteral f64_one) (NumberLiteral f64_one) None
    [PrintStatement (Identifier (ident "i"))].

Lemma for_direction_and_default_step_witness :
  exists code st' counter isDescending loopVar I C B,
    compileStatement sampleLocalDecls sampleFor startState = (Ok code, st')
    /\ code = encodes (forCode counter isDescending loopVar I C defaultStep B)
    /\ decodes code = Some (forCode counter isDescending loopVar I C defaultStep B)
    /\ forallb (locals_below isDescending) (I ++ C ++ defaultStep ++ B) = true.
Proof.
  destruct (compileStatement sampleLocalDecls sampleFor startState)
    as [[code| |] st'] eqn:E; try (vm_compute in E; discriminate).
  destruct (for_direction_and_default_step _ _ _ _ _ _ _ _ _ _ E)
    as (I & C & S & B & loopVar & s1 & s2 & s3 & s4 & _ & _ & _ & [-> _] & _
        & _ & _ & _ & _ & Hcode & Hreads & Hslots & _).
  exists code, st', (1 + localVarsIndex s4)%nat, (localVarsIndex s4), loopVar, I, C, B.
  split; [reflexivity|]. split; [exact Hcode|]. split; [exact Hreads|].
  exact (proj2 (Hslots scopes_below_startState)).
Defined.

(** [if false then elif true then print true else print false end] *)
Definition sampleIf : Statement :=
  IfStatement (BooleanLiteral false) []
    [(BooleanLiteral true, [PrintStatement (BooleanLiteral true)])]
    (Some [PrintStatement (BooleanLiteral false)]).

Lemma elif_branches_nest_in_else_arms_witness :
  exists code st' C T C1 B1 E,
    compileStatement sampleLocalDecls sampleIf startState = (Ok code, st')
    /\ code = encodes (ifCode C T [(C1, B1)] E)
    /\ decodes code = Some (ifCode C T [(C1, B1)] E).
Proof.
  destruct (compileStatement sampleLocalDecls sampleIf startState)
    as [[code| |] st'] eqn:E; try (vm_compute in E; discriminate).
  destruct (elif_branches_nest_in_else_arms _ _ _ _ _ _ _ _ E)
    as (C & T & pairs & E' & s1 & s2 & s3 & Hcode & Hreads & _ & _ & _ & _ & _ & Hpairs).
  destruct pairs as [|[C1 B1] [|p pairs]]; cbn in Hpairs.
  - contradiction.
  - exists code, st', C, T, C1, B1, E'. split; [reflexivity|]. split; [exact Hcode|exact Hreads].
  - destruct Hpairs as (? & ? & ? & [] & _).
Defined.

(** [while true do print true end] *)
Definition sampleWhile : Statement :=
  WhileStatement (BooleanLiteral true) [PrintStatement (BooleanLiteral true)].

Lemma loop_entry_capped_witness :
  exists code st' counter B real ticked,
    compileStatement sampleLocalDecls sampleWhile startState = (Ok code, st')
    /\ code = encodes real
    /\ decodes code = Some real
    /\ loopCode counter B real ticked
    /\ forallb (locals_below counter) B = true.
Proof.
  destruct (compileStatement sampleLocalDecls sampleWhile startState)
    as [[code| |] st'] eqn:E; try (vm_compute in E; discriminate).
  destruct (loop_entry_capped sampleLocalDecls sampleWhile startState code st'
              eq_refl scopes_below_startState E)
    as (counter & B & real & ticked & sb & sb' & Hcode & Hreads & _ & _ & _ & Hloop
        & _ & _ & Hslots & _).
  exists code, st', counter, B, real, ticked.
  split; [reflexivity|]. split; [exact Hcode|]. split; [exact Hreads|].
  split; [exact Hloop|exact Hslots].
Defined.

(** An outer loop that never ends by itself around an inner loop whose
    body runs twice each time the inner loop is entered:
[[
    while true do
      a := true
      b := true
      while a do
        print a
        if b then b := false else a := false end
      end
    end
]] *)
Definition nestedLoops : list Statement :=
  [ WhileStatement (BooleanLiteral true)
      [ AssignStatement (ident "a") (BooleanLiteral true);
        AssignStatement (ident "b") (BooleanLiteral true);
        WhileStatement (Identifier (ident "a"))
          [ PrintStatement (Identifier (ident "a"));
            IfStatement (Identifier (ident "b"))
              [AssignStatement (ident "b") (BooleanLiteral false)]
              []
              (Some [AssignStatement (ident "a") (BooleanLiteral false)]) ] ] ].

(** What a run of the compiled program printed when it trapped: one
    entry for every execution of [print a], the first statement of the
    body of the inner loop. *)
Definition printedBeforeTrap (program : list Statement) (fuel : N) : option N :=
  match compileStatements sampleLocalDecls program startState with
  | (Ok code, _) =>
      match decodes code with
      | Some ins =>
          match Run.exec Run.noF64 Run.noNumberHelper Run.noFunctions
                  (N.to_nat fuel) ins (Run.initialConfig []) with
          | Run.Trapped c => Some (N.of_nat (length (Run.output (Run.sto c))))
          | _ => None
          end
      | None => None
      end
  | _ => None
  end.

(** C3, as stated, fails: in one run of the compiled [nestedLoops] the
    body of the inner loop is executed 20000 times, twice for each of the
    10000 iterations the outer loop is let through before its guard
    traps. *)
Lemma inner_loop_body_runs_20000_times :
  printedBeforeTrap nestedLoops 12000 = Some 20000%N.
Proof. vm_compute. reflexivity. Qed.

(** [func main() println "hi" end] *)
Definition functionNamedMain : list Statement :=
  [ FunctionDeclStatement (ident "main") []
      [PrintlnStatement (StringLiteral (js "hi"))] ].

(** The body the declaration of [functionNamedMain] is to have: no
    locals, the statement, [call box_nil], [return], [end]. *)
Definition declaredBody : bytes :=
  [0x00]
  ++ encodes (functionCode [ I32Const 0; I32Const 2; Call (helper "box_string");
                             Call (helper "println") ])
  ++ Wasm.control.end_.

(** The body lowering registers under a name, and the bodies in the Code
    section of the module. *)
Definition registeredBody (program : list Statement) (x : string) : option bytes :=
  match compileStatements sampleLocalDecls program startState with
  | (Ok _, st) => functionBodies st !! x
  | _ => None
  end.

Definition moduleBodies (program : list Statement) : option (N * list bytes) :=
  match _compile sampleLocalDecls sampleHelperBodies program emptyState with
  | (Ok code, _) => codeBodies code
  | _ => None
  end.

(** C8 fails for a function named [main].  Lowering the declaration
    registers the body the claim describes, under the name [main]; the
    body of the program is registered under the same name afterwards.  The
    module then declares 15 bodies and holds 16, the last one, which is
    the declared function's, is the body of the program ([00 0B]: no
    locals, [end]), and no body of the module is the declared one. *)
Theorem function_named_main_loses_its_body :
  registeredBody functionNamedMain "main" = Some declaredBody
  /\ exists bodies,
       moduleBodies functionNamedMain = Some (15%N, bodies)
       /\ length bodies = 16%nat
       /\ last bodies = Some [0x00; 0x0B]
       /\ ~ In declaredBody bodies.
Proof.
  split; [vm_compute; reflexivity|].
  eexists. split; [vm_compute; reflexivity|].
  split; [reflexivity|]. split; [reflexivity|].
  intros H. repeat (destruct H as [H|H]; [discriminate H|]). exact H.
Qed.

(** * Further properties of the lowering and of the lexer *)

(** ** How the compiler state evolves *)

Definition names (fs : list fnrec) : list string := map fn_name fs.

(** An object without an own property [__proto__]: what
    [resetFunctionBodies] leaves when no helper has that name, and what
    assignments keep. *)
Definition plain (o : JsObject.t) : Prop :=
  JsObject.own o !! "__proto__"%string = None.

Lemma plain_insert o k v : plain o -> plain (<[k := v]> o).
Proof.
  unfold plain, insert, JsObject_insert, JsObject.set. intros Ho.
  destruct (String.eqb_spec k "__proto__") as [->|Hne]; cbn [andb].
  - rewrite bool_decide_eq_false_2; [exact Ho|]. rewrite Ho. now intros [? ?].
  - cbn [JsObject.own]. now rewrite lookup_insert_ne.
Qed.

Lemma plain_own o x : x <> "__proto__"%string -> JsObject.own o !! x = o !! x.
Proof.
  intros Hne. unfold lookup at 2, JsObject_lookup, JsObject.get.
  destruct (JsObject.own o !! x); [reflexivity|].
  now destruct (String.eqb_spec x "__proto__").
Qed.

(** What a successful lowering step may change: the top scope, the slot
    counter (upwards), the list of user-defined functions (at its end,
    keeping the names distinct), and the bodies registered under the names
    of the functions it declares. *)
Record evolves (st st' : cstate) : Prop := {
  ev_length : length (scopes st') = length (scopes st);
  ev_tail : tail (scopes st') = tail (scopes st);
  ev_index : (localVarsIndex st <= localVarsIndex st')%nat;
  ev_functions : exists more,
    userDefinedFunctions st' = userDefinedFunctions st ++ more;
  ev_distinct :
    NoDup (names (userDefinedFunctions st)) -> NoDup (names (userDefinedFunctions st'));
  ev_bodies : forall x,
    x ∈ names (userDefinedFunctions st) \/ x ∉ names (userDefinedFunctions st') ->
    functionBodies st' !! x = functionBodies st !! x;
  ev_plain : plain (functionBodies st) -> plain (functionBodies st');
}.

Lemma evolves_refl st : evolves st st.
Proof. split; auto. exists []. now rewrite app_nil_r. Qed.

Lemma evolves_names st st' x :
  evolves st st' ->
  x ∈ names (userDefinedFunctions st) -> x ∈ names (userDefinedFunctions st').
Proof.
  intros [_ _ _ [more ->] _ _ _] H. unfold names. rewrite map_app.
  apply elem_of_app. now left.
Qed.

Lemma evolves_trans st1 st2 st3 :
  evolves st1 st2 -> evolves st2 st3 -> evolves st1 st3.
Proof.
  intros H12 H23. pose proof H12 as [L1 T1 I1 [m1 F1] D1 B1 P1].
  pose proof H23 as [L2 T2 I2 [m2 F2] D2 B2 P2]. split.
  - congruence.
  - congruence.
  - lia.
  - exists (m1 ++ m2). rewrite F2, F1. now rewrite app_assoc.
  - auto.
  - intros x [Hx|Hx].
    + rewrite B2, B1; auto. left. eapply evolves_names; eauto.
    + assert (Hx2 : x ∉ names (userDefinedFunctions st2)).
      { intros Hin. apply Hx. eapply evolves_names; eauto. }
      rewrite B2, B1; auto.
  - auto.
Qed.

(** A step that keeps the scopes as they are, and a step that may
    change the top scope. *)
Definition steady {A} (m : M A) : Prop :=
  forall st r st', m st = (Ok r, st') -> evolves st st'.

Definition closed {A} (m : M A) : Prop :=
  forall st r st', m st = (Ok r, st') -> evolves st st' /\ scopes st' = scopes st.

Lemma closed_steady {A} (m : M A) : closed m -> steady m.
Proof. intros H st r st' E. now apply H in E. Qed.

Lemma closed_ret {A} (a : A) : closed (ret a).
Proof. intros st r st' H. inv_ok H. split; [apply evolves_refl|reflexivity]. Qed.

Lemma closed_bind {A B} (m : M A) (k : A -> M B) :
  closed m -> (forall a, closed (k a)) -> closed (bind m k).
Proof.
  intros Hm Hk st r st' H. apply bind_Ok in H as (a & s & E & H).
  destruct (Hm _ _ _ E) as [E1 S1]. destruct (Hk _ _ _ _ H) as [E2 S2].
  split; [eapply evolves_trans; eauto|congruence].
Qed.

Lemma steady_bind {A B} (m : M A) (k : A -> M B) :
  steady m -> (forall a, steady (k a)) -> steady (bind m k).
Proof.
  intros Hm Hk st r st' H. apply bind_Ok in H as (a & s & E & H).
  eapply evolves_trans; [eapply Hm|eapply Hk]; eauto.
Qed.

Lemma closed_gets {A} (f : cstate -> A) : closed (gets f).
Proof. intros st r st' H. inv_ok H. split; [apply evolves_refl|reflexivity]. Qed.

Lemma closed_throwError {A} msg : closed (@throwError A msg).
Proof. intros st r st' H. inv_ok H. Qed.

Lemma closed_throwCompilerError {A} e : closed (@throwCompilerError A e).
Proof. intros st r st' H. inv_ok H. Qed.

Lemma closed_call x : closed (call x).
Proof. apply closed_gets. Qed.

Lemma closed_getVar x : closed (getVar x).
Proof. apply closed_gets. Qed.

Lemma evolves_same st st' :
  scopes st' = scopes st ->
  (localVarsIndex st <= localVarsIndex st')%nat ->
  userDefinedFunctions st' = userDefinedFunctions st ->
  functionBodies st' = functionBodies st ->
  evolves st st'.
Proof.
  intros Hs Hi Hf Hb. split; rewrite ?Hs, ?Hf, ?Hb; auto.
  exists []. now rewrite app_nil_r.
Qed.

Lemma closed_consumeScratchIndex : closed consumeScratchIndex.
Proof.
  intros st r st' H. unfold consumeScratchIndex in H. inv_pair H.
  split; [apply evolves_same; cbn; auto|reflexivity].
Qed.

Lemma closed_getOffset s : closed (getOffset s).
Proof.
  intros st r st' H. unfold getOffset in H.
  destruct (StringTable.getOffset s (strings st)) as [off tbl]. inv_pair H.
  split; [apply evolves_same; cbn; auto|reflexivity].
Qed.

Lemma closed_flatMapM {A} (f : A -> M bytes) xs :
  Forall (fun x => closed (f x)) xs -> closed (flatMapM f xs).
Proof.
  induction 1 as [|x xs Hx _ IH]; cbn [flatMapM].
  - apply closed_ret.
  - apply closed_bind; [done|]. intros b.
    apply closed_bind; [done|]. intros bs. apply closed_ret.
Qed.

Lemma steady_flatMapM {A} (f : A -> M bytes) xs :
  Forall (fun x => steady (f x)) xs -> steady (flatMapM f xs).
Proof.
  induction 1 as [|x xs Hx _ IH]; cbn [flatMapM].
  - apply closed_steady, closed_ret.
  - apply steady_bind; [done|]. intros b.
    apply steady_bind; [done|]. intros bs. apply closed_steady, closed_ret.
Qed.

Ltac closed_step :=
  lazymatch goal with
  | |- closed (bind _ _) => apply closed_bind; [|intros ?]
  | |- closed (ret _) => apply closed_ret
  | |- closed (gets _) => apply closed_gets
  | |- closed (call _) => apply closed_call
  | |- closed (getVar _) => apply closed_getVar
  | |- closed (getOffset _) => apply closed_getOffset
  | |- closed consumeScratchIndex => apply closed_consumeScratchIndex
  | |- closed (throwError _) => apply closed_throwError
  | |- closed (throwCompilerError _) => apply closed_throwCompilerError
  | |- closed (if ?b then _ else _) => destruct b
  | |- closed (match ?x with _ => _ end) => destruct x
  end.

Lemma closed_compileBinary operator l r : closed (compileBinary operator l r).
Proof. unfold compileBinary. repeat closed_step. Qed.

Lemma closed_compileCall callee n at_ m :
  closed m -> closed (compileCall callee n at_ m).
Proof. intros Hm. unfold compileCall. repeat (assumption || closed_step). Qed.

Lemma closed_compileExpression e : closed (compileExpression e).
Proof.
  induction e as [v|v|v|id|e IH|l op r IHl IHr|op e IH|callee args at_ IH|t]
    using Expression_nested_ind; cbn [compileExpression].
  all: try (repeat (assumption || apply closed_compileBinary || closed_step); fail).
  apply closed_compileCall. now apply closed_flatMapM.
Qed.

(** Leaving a scope entered before a step gives back the scopes the
    step started from. *)
Lemma evolves_leave st s :
  evolves (entered st) s -> evolves st (left_ s) /\ scopes (left_ s) = scopes st.
Proof.
  intros [L T I F D B].
  cbn [entered with_scopes scopes length tail localVarsIndex userDefinedFunctions
       functionBodies] in *.
  split; [|exact T].
  split; cbn [left_ with_scopes scopes localVarsIndex userDefinedFunctions functionBodies];
    auto; now rewrite T.
Qed.

Lemma evolves_scope {A} (m : M A) st r s :
  steady m -> m (entered st) = (Ok r, s) ->
  evolves st (left_ s) /\ scopes (left_ s) = scopes st.
Proof. intros Hm E. apply evolves_leave. eapply Hm; eauto. Qed.

Lemma closed_scope_run {A} (m : M A) st r s :
  steady m -> m (entered st) = (Ok r, s) ->
  forall st0, evolves st0 st -> scopes st = scopes st0 ->
  evolves st0 (left_ s) /\ scopes (left_ s) = scopes st0.
Proof.
  intros Hm E st0 H0 Hs. destruct (evolves_scope m st r s Hm E) as [H1 H2].
  split; [eapply evolves_trans; eauto|congruence].
Qed.

Lemma steady_declareVar x isLocal : steady (declareVar x isLocal).
Proof.
  intros st r st' H. unfold declareVar in H.
  assert (Hcreate : forall r st',
    match scopes st with
    | [] => (Ok None, st)
    | top :: outer =>
        (Ok (Some (localVarsIndex st)),
         with_index (S (localVarsIndex st))
           (with_scopes (<[x := localVarsIndex st]> top :: outer) st))
    end = (Ok r, st') -> evolves st st').
  { intros r0 st0 H0. destruct (scopes st) as [|top outer] eqn:Hsc; inv_pair H0.
    - apply evolves_refl.
    - split; cbn; rewrite ?Hsc; auto. exists []. now rewrite app_nil_r. }
  destruct isLocal; [eauto|].
  destruct (lookupVar x (scopes st)); [|eauto].
  inv_pair H. apply evolves_refl.
Qed.

Lemma steady_compileAssign isLocal x m :
  closed m -> steady (compileAssign isLocal x m).
Proof.
  intros Hm. unfold compileAssign.
  apply steady_bind; [now apply closed_steady|]. intros code.
  apply steady_bind; [apply steady_declareVar|]. intros [index|].
  - apply closed_steady, closed_ret.
  - apply closed_steady, closed_throwCompilerError.
Qed.

Lemma closed_elifLoop elifs : forall elseBlock,
  Forall (fun b => closed (fst b) /\ steady (snd b)) elifs ->
  closed (elifLoop elifs elseBlock).
Proof.
  induction elifs as [|[condition body] rest IH]; intros elseBlock Hl; cbn [elifLoop].
  - apply closed_ret.
  - inversion Hl as [|? ? [Hc Hb] Hrest]; subst. cbn [fst snd] in Hc, Hb.
    intros st r st' H.
    apply bind_Ok in H as (e & s0 & E0 & H).
    destruct (IH _ Hrest _ _ _ E0) as [V0 S0].
    apply bind_Ok in H as (c & s1 & E1 & H).
    destruct (Hc _ _ _ E1) as [V1 S1].
    apply bind_Ok in H as (u1 & s2 & E2 & H). inv_ok E2.
    apply bind_Ok in H as (b & s3 & E3 & H).
    apply bind_Ok in H as (u2 & s4 & E4 & H). inv_ok E4. inv_ok H.
    apply (closed_scope_run body s1 b s3 Hb E3).
    + eapply evolves_trans; eauto.
    + congruence.
Qed.

Lemma closed_compileIf condition thenBody elifs elseBody :
  closed condition -> steady thenBody ->
  Forall (fun b => closed (fst b) /\ steady (snd b)) elifs ->
  (forall body, elseBody = Some body -> steady body) ->
  closed (compileIf condition thenBody elifs elseBody).
Proof.
  intros Hc Ht Hl He st r st' H. unfold compileIf in H.
  apply bind_Ok in H as (c & s1 & E1 & H).
  destruct (Hc _ _ _ E1) as [V1 S1].
  apply bind_Ok in H as (u1 & s2 & E2 & H). inv_ok E2.
  apply bind_Ok in H as (t & s3 & E3 & H).
  apply bind_Ok in H as (u2 & s4 & E4 & H). inv_ok E4.
  apply bind_Ok in H as (is_truthy & s5 & E5 & H). inv_ok E5.
  destruct (closed_scope_run thenBody s1 t s3 Ht E3 st V1 S1) as [V3 S3].
  apply bind_Ok in H as (elseBlock & s6 & E6 & H).
  assert (evolves st s6 /\ scopes s6 = scopes st) as [V6 S6].
  { destruct elseBody as [body|].
    - apply bind_Ok in E6 as (u3 & s7 & E7 & E6). inv_ok E7.
      apply bind_Ok in E6 as (b & s8 & E8 & E6).
      apply bind_Ok in E6 as (u4 & s9 & E9 & E6). inv_ok E9. inv_ok E6.
      apply (closed_scope_run body (left_ s3) b s8 (He _ eq_refl) E8); auto.
    - inv_ok E6. auto. }
  apply bind_Ok in H as (chain & s7 & E7 & H). inv_ok H.
  destruct (closed_elifLoop _ _ Hl _ _ _ E7) as [V7 S7].
  split; [eapply evolves_trans; eauto|congruence].
Qed.

Lemma closed_compileWhile c b : closed c -> steady b -> closed (compileWhile c b).
Proof.
  intros Hc Hb st r st' H. unfold compileWhile in H.
  apply bind_Ok in H as (u1 & s1 & E1 & H). inv_ok E1.
  apply bind_Ok in H as (u2 & s2 & E2 & H). inv_ok E2.
  apply bind_Ok in H as (body & s3 & E3 & H).
  apply bind_Ok in H as (u3 & s4 & E4 & H). inv_ok E4.
  apply bind_Ok in H as (cond & s5 & E5 & H).
  apply bind_Ok in H as (u4 & s6 & E6 & H). inv_ok E6.
  apply bind_Ok in H as (counter & s7 & E7 & H).
  destruct (closed_consumeScratchIndex _ _ _ E7) as [V7 S7].
  inv_ok H.
  destruct (evolves_scope b (entered st) body s3 Hb E3) as [V3 S3].
  destruct (Hc _ _ _ E5) as [V5 S5].
  assert (V : evolves (entered st) s5) by (eapply evolves_trans; eauto).
  destruct (evolves_leave st s5 V) as [V6 S6].
  split; [eapply evolves_trans; eauto|]. unfold left_ in *. congruence.
Qed.

Lemma closed_compileFor assignment identifier conditionM incrementM bodyM :
  steady assignment -> closed conditionM ->
  (forall inc, incrementM = Some inc -> closed inc) -> steady bodyM ->
  closed (compileFor assignment identifier conditionM incrementM bodyM).
Proof.
  intros Ha Hc Hi Hb st r st' H. unfold compileFor in H.
  apply bind_Ok in H as (u1 & s0 & E0 & H). inv_ok E0.
  apply bind_Ok in H as (init & s1 & E1 & H).
  apply bind_Ok in H as (lv & s1' & Elv & H). inv_ok Elv.
  destruct (lookupVar (name identifier) (scopes s1)) as [loopVar|]; [|inv_ok H].
  apply bind_Ok in H as (u2 & s1' & E1' & H). inv_ok E1'.
  apply bind_Ok in H as (cond & s2 & E2 & H).
  apply bind_Ok in H as (step & s3 & E3 & H).
  apply bind_Ok in H as (loopBody & s4 & E4 & H).
  apply bind_Ok in H as (u3 & s5 & E5 & H). inv_ok E5.
  apply bind_Ok in H as (u4 & s6 & E6 & H). inv_ok E6.
  apply bind_Ok in H as (isDescending & s7 & E7 & H).
  apply bind_Ok in H as (counterIndex & s8 & E8 & H).
  inv_ok H.
  destruct (closed_consumeScratchIndex _ _ _ E7) as [V7 S7].
  destruct (closed_consumeScratchIndex _ _ _ E8) as [V8 S8].
  pose proof (Ha _ _ _ E1) as V1.
  destruct (Hc _ _ _ E2) as [V2 S2].
  assert (evolves s2 s3 /\ scopes s3 = scopes s2) as [V3 S3].
  { destruct incrementM as [inc|].
    - eapply Hi; eauto.
    - inv_ok E3. split; [apply evolves_refl|reflexivity]. }
  pose proof (Hb _ _ _ E4) as V4.
  assert (V : evolves (entered s1) s4).
  { eapply evolves_trans; [exact V2|]. eapply evolves_trans; eauto. }
  destruct (evolves_leave s1 s4 V) as [V5 S5].
  assert (V' : evolves (entered st) (left_ s4)) by (eapply evolves_trans; eauto).
  destruct (evolves_leave st (left_ s4) V') as [V6 S6].
  split.
  - eapply evolves_trans; [exact V6|]. eapply evolves_trans; eauto.
  - unfold left_ in *. congruence.
Qed.

Lemma declareParams_state params : forall st u st',
  declareParams params st = (Ok u, st') ->
  userDefinedFunctions st' = userDefinedFunctions st
  /\ functionBodies st' = functionBodies st.
Proof.
  induction params as [|p params IH]; intros st u st' H; cbn [declareParams] in H.
  - inv_ok H. auto.
  - apply bind_Ok in H as (r & s & E & H).
    destruct (IH _ _ _ H) as [-> ->].
    unfold declareVar in E.
    destruct (scopes st) as [|top outer]; cbn in E.
    + inv_pair E. auto.
    + inv_pair E. auto.
Qed.

Lemma existsb_names x fs :
  existsb (fun f => String.eqb (fn_name f) x) fs = false -> x ∉ names fs.
Proof.
  induction fs as [|f fs IH]; cbn [existsb names map]; intros H.
  - apply not_elem_of_nil.
  - apply orb_false_iff in H as [H1 H2]. apply not_elem_of_cons. split; [|auto].
    apply String.eqb_neq in H1. congruence.
Qed.

Section EvolvesStatements.

Variable getLocalDecls : cstate -> bytes.

Lemma closed_compileFunctionDecl fname params bodyM :
  steady bodyM -> closed (compileFunctionDecl getLocalDecls fname params bodyM).
Proof.
  intros Hb st r st' H. unfold compileFunctionDecl in H.
  apply bind_Ok in H as (defined & s0 & E0 & H). inv_ok E0.
  destruct (existsb _ _) eqn:Hnew; [inv_ok H|].
  apply existsb_names in Hnew.
  apply bind_Ok in H as (u1 & s1 & E1 & H). inv_ok E1.
  apply bind_Ok in H as (prevIndex & s1 & E1 & H). inv_ok E1.
  apply bind_Ok in H as (u2 & s1 & E1 & H). inv_ok E1.
  apply bind_Ok in H as (scopesTmp & s1 & E1 & H). inv_ok E1.
  apply bind_Ok in H as (u3 & s1 & E1 & H). inv_ok E1.
  apply bind_Ok in H as (u4 & s1 & E1 & H).
  apply declareParams_state in E1 as [F1 B1].
  apply bind_Ok in H as (body & s2 & E2 & H).
  pose proof (Hb _ _ _ E2) as [_ _ _ [more F2] D2 B2 P2].
  inv_ok H.
  cbn [with_scopes with_index with_userfns with_bodies scopes localVarsIndex
       userDefinedFunctions functionBodies] in *.
  rewrite F1 in *. rewrite B1 in *.
  split; [|reflexivity].
  split; cbn [with_scopes with_index with_userfns with_bodies scopes localVarsIndex
              userDefinedFunctions functionBodies]; auto.
  - exists ({| fn_name := name fname;
               fn_type := sig (map (fun _ => Wasm.I32) params) [Wasm.I32] |} :: more).
    rewrite F2. now rewrite <- app_assoc.
  - intros Hd. rewrite F2 in D2 |- *. apply D2.
    unfold names. rewrite map_app. cbn [map].
    apply NoDup_app. split; [exact Hd|]. split; [|apply NoDup_singleton].
    intros y Hy Hy'. apply list_elem_of_singleton in Hy'. subst y. contradiction.
  - intros x Hx.
    assert (Hne : x <> name fname).
    { destruct Hx as [Hx|Hx]; [congruence|].
      intros ->. apply Hx. rewrite F2. unfold names. rewrite !map_app.
      apply elem_of_app. left. apply elem_of_app. right. cbn. apply elem_of_cons; now left. }
    rewrite object_lookup_insert_ne by congruence.
    rewrite B2; [reflexivity|].
    destruct Hx as [Hx|Hx]; [left|right; exact Hx].
    unfold names. rewrite map_app. apply elem_of_app. now left.
  - intros Hp. now apply plain_insert, P2.
Qed.

Lemma closed_compileExpressionStatement e : closed (compileExpressionStatement e).
Proof.
  unfold compileExpressionStatement.
  destruct e; repeat (apply closed_compileExpression || closed_step).
Qed.

(** The statements that assign: only they can change the top scope. *)
Definition assigns (s : Statement) : bool :=
  match s with
  | LocalAssignStatement _ _ | AssignStatement _ _ => true
  | _ => false
  end.

Lemma evolves_compileStatement s :
  steady (compileStatement getLocalDecls s)
  /\ (assigns s = false -> closed (compileStatement getLocalDecls s)).
Proof.
  induction s as [e|e|x e|x e|c thn elifs els IHthn IHelifs IHels|c body IH
                  |isLocal x init c inc body IH|f params body IH|e|e|t]
    using Statement_nested_ind; cbn [compileStatement assigns].
  all: try (split; [|discriminate]; apply steady_compileAssign, closed_compileExpression).
  all: match goal with
       | |- steady ?m /\ _ =>
           assert (Hclosed : closed m); [|split; [now apply closed_steady|auto]]
       end.
  - repeat (apply closed_compileExpression || closed_step).
  - repeat (apply closed_compileExpression || closed_step).
  - apply closed_compileIf.
    + apply closed_compileExpression.
    + apply steady_flatMapM. eapply Forall_impl; [exact IHthn|]. now intros s [H _].
    + apply Forall_map. eapply Forall_impl; [exact IHelifs|].
      intros [c' b] Hb. cbn in *. split; [apply closed_compileExpression|].
      apply steady_flatMapM. eapply Forall_impl; [exact Hb|]. now intros s [H _].
    + intros b Hb. destruct els as [body|]; [|discriminate].
      injection Hb as <-. apply steady_flatMapM.
      eapply Forall_impl; [exact (IHels body eq_refl)|]. now intros s [H _].
  - apply closed_compileWhile; [apply closed_compileExpression|].
    apply steady_flatMapM. eapply Forall_impl; [exact IH|]. now intros s [H _].
  - apply closed_compileFor.
    + apply steady_compileAssign, closed_compileExpression.
    + apply closed_compileExpression.
    + intros i Hi. destruct inc; [|discriminate]. injection Hi as <-.
      apply closed_compileExpression.
    + apply steady_flatMapM. eapply Forall_impl; [exact IH|]. now intros s [H _].
  - apply closed_compileFunctionDecl.
    apply steady_flatMapM. eapply Forall_impl; [exact IH|]. now intros s [H _].
  - repeat (apply closed_compileExpression || closed_step).
  - apply closed_compileExpressionStatement.
  - apply closed_throwError.
Qed.

Lemma steady_compileStatements l : steady (compileStatements getLocalDecls l).
Proof.
  apply steady_flatMapM, Forall_forall. intros s _. apply evolves_compileStatement.
Qed.

End EvolvesStatements.

(** ** Sequences of statements *)

Lemma bind_CompErr {A B} (m : M A) (k : A -> M B) st e st' :
  m st = (CompErr e, st') -> bind m k st = (CompErr e, st').
Proof. unfold bind. now intros ->. Qed.

Lemma flatMapM_app_Ok {A} (f : A -> M bytes) xs ys st r st' :
  flatMapM f (xs ++ ys) st = (Ok r, st') ->
  exists rx s ry,
    flatMapM f xs st = (Ok rx, s) /\ flatMapM f ys s = (Ok ry, st') /\ r = rx ++ ry.
Proof.
  revert st r. induction xs as [|x xs IH]; intros st r H; cbn [app flatMapM] in *.
  - exists [], st, r. auto.
  - apply bind_Ok in H as (b & s1 & E1 & H).
    apply bind_Ok in H as (bs & s2 & E2 & H). inv_ok H.
    destruct (IH _ _ E2) as (rx & s & ry & Hx & Hy & ->).
    exists (b ++ rx), s, ry. split; [|split; [exact Hy|now rewrite app_assoc]].
    rewrite (bind_run _ _ _ _ _ E1). rewrite (bind_run _ _ _ _ _ Hx). reflexivity.
Qed.

Lemma flatMapM_stops {A} (f : A -> M bytes) xs x ys st r s e s' :
  flatMapM f xs st = (Ok r, s) ->
  f x s = (CompErr e, s') ->
  flatMapM f (xs ++ x :: ys) st = (CompErr e, s').
Proof.
  revert st r. induction xs as [|y xs IH]; intros st r H Hx; cbn [app flatMapM] in *.
  - inv_ok H. now apply bind_CompErr.
  - apply bind_Ok in H as (b & s1 & E1 & H).
    apply bind_Ok in H as (bs & s2 & E2 & H). inv_ok H.
    rewrite (bind_run _ _ _ _ _ E1). apply bind_CompErr. eapply IH; eauto.
Qed.

(** ** Reading the Code section back *)

(** A body behind its size, as the Code section holds it. *)
Definition sizedBody (b : bytes) : bytes :=
  Wasm.unsignedLEB (N.of_nat (length b)) ++ b.

Lemma unsignedLEB_nonempty n : Wasm.unsignedLEB n <> [].
Proof.
  unfold Wasm.unsignedLEB. cbn [Wasm.unsignedLEB_go].
  now destruct (N.shiftr n 7 =? 0)%N.
Qed.

Lemma sizedBodies_length bs : (length bs <= length (concat (map sizedBody bs)))%nat.
Proof.
  induction bs as [|b bs IH]; [done|]. cbn [map concat length].
  unfold sizedBody at 1. rewrite !length_app.
  pose proof (unsignedLEB_nonempty (N.of_nat (length b))) as Hne.
  destruct (Wasm.unsignedLEB (N.of_nat (length b))); [done|]. cbn [length]. lia.
Qed.

Lemma bodies_go_sizedBodies bs : forall fuel,
  (length bs <= fuel)%nat ->
  bodies_go fuel (concat (map sizedBody bs)) = Some bs.
Proof.
  induction bs as [|b bs IH]; intros fuel Hfuel.
  - now destruct fuel.
  - destruct fuel as [|fuel]; [cbn in Hfuel; lia|].
    cbn [map concat]. unfold sizedBody at 1. rewrite <- app_assoc.
    pose proof (unsignedLEB_nonempty (N.of_nat (length b))) as Hne.
    destruct (Wasm.unsignedLEB (N.of_nat (length b))) as [|x xs] eqn:E; [done|].
    cbn [app bodies_go]. rewrite app_comm_cons, <- E.
    rewrite unsignedLEB_decode, Nat2N.id, length_app.
    replace (length b <=? length b + length (concat (map sizedBody bs)))%nat with true
      by (symmetry; apply Nat.leb_le; lia).
    rewrite drop_app_length, take_app_length, IH; [reflexivity|].
    cbn in Hfuel. lia.
Qed.

Lemma readCode_sizedBodies n bs :
  readCode (Wasm.unsignedLEB n ++ concat (map sizedBody bs)) = Some (n, bs).
Proof.
  unfold readCode. rewrite unsignedLEB_decode.
  now rewrite bodies_go_sizedBodies by apply sizedBodies_length.
Qed.

(** The body registered under the name of a function. *)
Definition bodyOf (st : cstate) (f : fnrec) : bytes :=
  default [] (functionBodies st !! fn_name f).

Lemma entryOf_sizedBody st fs :
  Forall (fun f => is_Some (functionBodies st !! fn_name f)) fs ->
  map (entryOf st) fs = map sizedBody (map (bodyOf st) fs).
Proof.
  induction 1 as [|f fs [b Hb] _ IH]; [done|]. cbn [map]. rewrite IH. f_equal.
  unfold entryOf, bodyOf, sizedBody. now rewrite Hb.
Qed.

(** ** Counting without repetition *)

Lemma remove_dups_length {A} `{EqDecision A} (l : list A) :
  (length (remove_dups l) <= length l)%nat
  /\ (length (remove_dups l) = length l <-> NoDup l).
Proof.
  induction l as [|x l [IHle IHeq]]; cbn [remove_dups length].
  - split; [lia|]. split; [constructor|done].
  - destruct (decide_rel elem_of x l) as [Hin|Hnin]; cbn [length].
    + split; [lia|]. split; [lia|]. intros Hd. apply NoDup_cons in Hd as [Hd _]. done.
    + split; [lia|]. rewrite NoDup_cons. split.
      * intros Hlen. split; [done|]. apply IHeq. lia.
      * intros [_ Hd]. apply IHeq in Hd. lia.
Qed.

Lemma size_keys_of_list (m : gmap string bytes) (l : list string) :
  (forall x, is_Some (m !! x) <-> x ∈ l) ->
  size m = length (remove_dups l).
Proof.
  intros H. rewrite <- (size_dom (D := gset string)).
  assert (Hdom : dom m = list_to_set (remove_dups l)).
  { apply set_eq. intros x.
    rewrite elem_of_dom, elem_of_list_to_set, elem_of_remove_dups. apply H. }
  rewrite Hdom. apply size_list_to_set, NoDup_remove_dups.
Qed.

Lemma definedFunctions_distinct : NoDup (names definedFunctions).
Proof. apply (bool_decide_unpack _). vm_compute. exact I. Qed.

(** ** Whole compilations *)

Section ModuleExtras.

Variable getLocalDecls : cstate -> bytes.
Variable helperBodies : gmap string bytes.

(** The state [_compile] starts lowering in, whatever it was called in:
    one empty scope, no slot, no user-defined function, the bodies of the
    helpers; only the string table is the caller's. *)
Definition resetState (st : cstate) : cstate :=
  mkState [∅] 0 [] (JsObject.of_map helperBodies) (strings st).

Lemma _compile_reset body st :
  _compile getLocalDecls helperBodies body st
  = _compile getLocalDecls helperBodies body (resetState st).
Proof. reflexivity. Qed.

(** X1. [compile] does not depend on what earlier compilations left in the
    module-level state: every part of it that lowering reads is reset
    first, and the string table is created anew. *)
Theorem compile_forgets_previous_state ast prev1 prev2 :
  compile getLocalDecls helperBodies ast prev1
  = compile getLocalDecls helperBodies ast prev2.
Proof.
  unfold compile. destruct ast as [| |body]; [reflexivity..|].
  now rewrite (_compile_reset body (with_strings StringTable.empty prev1)),
    (_compile_reset body (with_strings StringTable.empty prev2)).
Qed.

Lemma flatMapM_codeEntry_bodies fs st r st' :
  flatMapM codeEntry fs st = (Ok r, st') ->
  Forall (fun f => is_Some (functionBodies st !! fn_name f)) fs.
Proof.
  revert r st'. induction fs as [|f fs IH]; intros r st' H; cbn [flatMapM] in H;
    [constructor|].
  apply bind_Ok in H as (b & s1 & E1 & H).
  apply bind_Ok in H as (bs & s2 & E2 & H).
  pose proof (reads_codeEntry f _ _ _ E1) as ->.
  constructor; [|eapply IH; eauto].
  unfold codeEntry in E1. apply bind_Ok in E1 as (body & s0 & E0 & E1).
  unfold gets in E0. inv_pair E0.
  destruct (functionBodies st !! fn_name f) as [body|]; [now exists body|].
  destruct (JsObject.inherited _ _); inv_ok E1.
Qed.

(** A successful [_compile], step by step: the statements are lowered
    from the reset state; the body of the program is registered under
    [main]; nothing changes the state after that; and every defined and
    every user-defined function has a body then. *)
Lemma _compile_run body st code st' :
  _compile getLocalDecls helperBodies body st = (Ok code, st') ->
  exists ins s2,
    compileStatements getLocalDecls body (resetState st) = (Ok ins, s2)
    /\ st' = with_bodies
               (<["main" := getLocalDecls s2 ++ ins ++ Wasm.control.end_]>
                  (functionBodies s2)) s2
    /\ Forall (fun f => is_Some (functionBodies st' !! fn_name f))
         (definedFunctions ++ userDefinedFunctions st').
Proof.
  intros H. rewrite _compile_reset in H.
  unfold _compile, mainFuncBody in H.
  apply bind_Ok in H as (u1 & s1 & E1 & H). inv_ok E1.
  apply bind_Ok in H as (u2 & s2 & E2 & H). inv_ok E2.
  apply bind_Ok in H as (u3 & s3 & E3 & H). inv_ok E3.
  apply bind_Ok in H as (u4 & s4 & E4 & H). inv_ok E4.
  apply bind_Ok in H as (mainFunc & s5 & E5 & H).
  apply bind_Ok in E5 as (ins & s6 & E6 & E5). inv_ok E5.
  apply bind_Ok in H as (u5 & s7 & E7 & H). inv_ok E7.
  apply bind_Ok in H as (types & s8 & E8 & H). inv_ok E8.
  apply bind_Ok in H as (userFns & s9 & E9 & H). inv_ok E9.
  apply bind_Ok in H as (definedIdx & s10 & E10 & H).
  apply reads_flatMapM in E10 as ->; [|apply reads_typeIndexBytes].
  apply bind_Ok in H as (userIdx & s11 & E11 & H).
  apply reads_flatMapM in E11 as ->; [|apply reads_typeIndexBytes].
  apply bind_Ok in H as (imports & s12 & E12 & H).
  apply reads_flatMapM in E12 as ->; [|apply reads_importEntry].
  apply bind_Ok in H as (mainIndex & s13 & E13 & H). inv_ok E13.
  apply bind_Ok in H as (bodyCount & s14 & E14 & H). inv_ok E14.
  apply bind_Ok in H as (definedCode & s15 & E15 & H).
  pose proof (flatMapM_codeEntry_bodies _ _ _ _ E15) as Hdefined.
  apply reads_flatMapM in E15 as ->; [|apply reads_codeEntry].
  apply bind_Ok in H as (userCode & s16 & E16 & H).
  pose proof (flatMapM_codeEntry_bodies _ _ _ _ E16) as Huser.
  apply reads_flatMapM in E16 as ->; [|apply reads_codeEntry].
  inv_ok H.
  exists ins, s6. split; [exact E6|]. split; [reflexivity|].
  apply Forall_app. split; assumption.
Qed.

(** X2. Every statement leaves all scopes but the top one as they were, and
    every statement but an assignment leaves the top one too: the names an
    [if], a loop or a function body declares are gone after it. *)
Theorem statement_keeps_outer_scopes s st code st' :
  compileStatement getLocalDecls s st = (Ok code, st') ->
  length (scopes st') = length (scopes st)
  /\ tail (scopes st') = tail (scopes st)
  /\ (assigns s = false -> scopes st' = scopes st).
Proof.
  intros H. destruct (evolves_compileStatement getLocalDecls s) as [Hs Hc].
  destruct (Hs _ _ _ H) as [L T _ _ _ _ _].
  split; [exact L|]. split; [exact T|].
  intros Ha. now destruct (Hc Ha _ _ _ H).
Qed.

(** X3. The user-defined functions of a compiled program have distinct
    names. *)
Theorem user_function_names_distinct body st code st' :
  _compile getLocalDecls helperBodies body st = (Ok code, st') ->
  NoDup (names (userDefinedFunctions st')).
Proof.
  intros H. destruct (_compile_run _ _ _ _ H) as (ins & s2 & E & -> & _).
  apply steady_compileStatements in E as [_ _ _ _ D _ _].
  apply D. constructor.
Qed.

(** X4. Lowering stops at the first statement that fails with a
    [CompilerError]: [compile] returns that error and no bytes, whatever
    follows the statement, and the strings interned up to the failure are
    what [meta.strings] holds. *)
Theorem compile_stops_at_first_error before s after prev code s1 e s2 :
  compileStatements getLocalDecls before
    (resetState (with_strings StringTable.empty prev)) = (Ok code, s1) ->
  compileStatement getLocalDecls s s1 = (CompErr e, s2) ->
  compile getLocalDecls helperBodies (Program (before ++ s :: after)) prev
  = {| result_bytes := []; error := Some e;
       meta_strings := StringTable.getBytes (strings s2) |}.
Proof.
  intros Hbefore Hs. unfold compile. rewrite _compile_reset.
  assert (H : _compile getLocalDecls helperBodies (before ++ s :: after)
                (resetState (with_strings StringTable.empty prev))
              = (CompErr e, s2)).
  { unfold _compile.
    do 4 (erewrite bind_run by reflexivity).
    apply bind_CompErr. unfold mainFuncBody. apply bind_CompErr.
    eapply flatMapM_stops; eauto. }
  now rewrite H.
Qed.

(** X5. The Code section of a compiled module declares as many bodies as
    [functionBodies] has keys of its own, and holds one body for every
    defined and every user-defined function, in that order: what
    [functionBodies] gives under the function's name when lowering is
    over. *)
Theorem code_section_holds_bodies_by_name body st code st' :
  _compile getLocalDecls helperBodies body st = (Ok code, st') ->
  codeBodies code
  = Some (N.of_nat (length (JsObject.keys (functionBodies st'))),
          map (bodyOf st') (definedFunctions ++ userDefinedFunctions st'))
  /\ Forall (fun f => is_Some (functionBodies st' !! fn_name f))
       (definedFunctions ++ userDefinedFunctions st').
Proof.
  intros H. destruct (_compile_code_section _ _ _ _ _ _ H) as [_ ->].
  destruct (_compile_run _ _ _ _ H) as (ins & s2 & _ & _ & Hall).
  split; [|exact Hall].
  rewrite (entryOf_sizedBody _ _ Hall). apply readCode_sizedBodies.
Qed.

Lemma registered_names body st code st' :
  (forall x, is_Some (helperBodies !! x) -> x ∈ names definedFunctions) ->
  _compile getLocalDecls helperBodies body st = (Ok code, st') ->
  forall x, is_Some (functionBodies st' !! x)
            <-> x ∈ names (definedFunctions ++ userDefinedFunctions st').
Proof.
  intros Hhelpers H x.
  destruct (_compile_run _ _ _ _ H) as (ins & s2 & E & Hst & Hall).
  split.
  - intros Hx. unfold names. rewrite map_app. apply elem_of_app.
    destruct (decide (x = "main")) as [->|Hne].
    { left. cbn. apply elem_of_cons. now left. }
    destruct (decide (x ∈ names (userDefinedFunctions st'))) as [Hin|Hnin]; [now right|].
    left. apply Hhelpers.
    apply steady_compileStatements in E as [_ _ _ _ _ B _].
    subst st'. cbn [with_bodies functionBodies userDefinedFunctions] in *.
    rewrite object_lookup_insert_ne in Hx by congruence.
    rewrite B in Hx by (now right).
    cbn [resetState functionBodies] in Hx.
    unfold lookup at 1, JsObject_lookup, JsObject.get, JsObject.of_map in Hx.
    cbn [JsObject.own JsObject.proto] in Hx.
    destruct (helperBodies !! x) as [b|]; [now exists b|].
    destruct (String.eqb x "__proto__"); now destruct Hx.
  - intros Hx. apply list_elem_of_fmap in Hx as (f & -> & Hf).
    rewrite Forall_forall in Hall. now apply Hall.
Qed.

Lemma definedFunctions_plain : "__proto__"%string ∉ names definedFunctions.
Proof. apply (bool_decide_unpack _). vm_compute. exact I. Qed.

(** The keys of [functionBodies] when lowering is over: the names of the
    defined and of the user-defined functions, but for [__proto__]. *)
Lemma registered_keys body st code st' :
  (forall x, is_Some (helperBodies !! x) -> x ∈ names definedFunctions) ->
  _compile getLocalDecls helperBodies body st = (Ok code, st') ->
  forall x, is_Some (JsObject.own (functionBodies st') !! x)
            <-> x ∈ filter (fun y => y <> "__proto__"%string)
                       (names (definedFunctions ++ userDefinedFunctions st')).
Proof.
  intros Hhelpers H x.
  pose proof (registered_names _ _ _ _ Hhelpers H x) as Hx.
  assert (Hplain : plain (functionBodies st')).
  { destruct (_compile_run _ _ _ _ H) as (ins & s2 & E & -> & _).
    apply steady_compileStatements in E as [_ _ _ _ _ _ P].
    cbn [with_bodies functionBodies]. apply plain_insert, P.
    unfold plain. cbn [resetState functionBodies JsObject.of_map JsObject.own].
    destruct (helperBodies !! "__proto__"%string) as [b|] eqn:Eb; [|reflexivity].
    exfalso. apply definedFunctions_plain, Hhelpers. now exists b. }
  rewrite list_elem_of_filter.
  destruct (decide (x = "__proto__"%string)) as [->|Hne].
  - rewrite Hplain. split; [now intros [? ?]|now intros [? _]].
  - rewrite (plain_own _ _ Hne), Hx. tauto.
Qed.

Lemma filter_length_all {A} (P : A -> Prop) `{forall x, Decision (P x)} (l : list A) :
  (length (filter P l) <= length l)%nat
  /\ (length (filter P l) = length l -> filter P l = l /\ Forall P l).
Proof.
  induction l as [|x l [IHle IHeq]]; [split; [done|split; [done|constructor]]|].
  rewrite filter_cons. destruct (decide (P x)) as [Hx|Hx]; cbn [length].
  - split; [lia|]. intros Hlen. destruct IHeq as [-> HP]; [lia|]. split; [done|].
    now constructor.
  - split; [lia|]. intros Hlen. lia.
Qed.

Lemma filter_all {A} (P : A -> Prop) `{forall x, Decision (P x)} (l : list A) :
  Forall P l -> filter P l = l.
Proof.
  induction 1 as [|x l Hx _ IH]; [done|].
  rewrite filter_cons, decide_True by done. now rewrite IH.
Qed.

Lemma keys_length (o : JsObject.t) : length (JsObject.keys o) = size (JsObject.own o).
Proof. unfold JsObject.keys. now rewrite length_fmap, length_map_to_list. Qed.

(** X6. With helper bodies for defined functions only: the count the Code
    section declares never exceeds the number of bodies it holds, and it
    is that number exactly when no user-defined function has the name of
    a defined function ([main] or a runtime helper) and none is named
    [__proto__]. *)
Theorem code_count_matches_unless_names_collide body st code st' :
  (forall x, is_Some (helperBodies !! x) -> x ∈ names definedFunctions) ->
  _compile getLocalDecls helperBodies body st = (Ok code, st') ->
  exists count bodies,
    codeBodies code = Some (count, bodies)
    /\ length bodies = (length definedFunctions + length (userDefinedFunctions st'))%nat
    /\ (count <= N.of_nat (length bodies))%N
    /\ (count = N.of_nat (length bodies)
        <-> forall x, x ∈ names (userDefinedFunctions st') ->
                      (x ∉ names definedFunctions) /\ x <> "__proto__"%string).
Proof.
  intros Hhelpers H.
  pose proof (registered_keys _ _ _ _ Hhelpers H) as Hkeys.
  destruct (_compile_code_section _ _ _ _ _ _ H) as [_ Hcode].
  destruct (_compile_run _ _ _ _ H) as (ins & s2 & E & Hst & Hall).
  rewrite (entryOf_sizedBody _ _ Hall), readCode_sizedBodies in Hcode.
  assert (Hdistinct : NoDup (names (userDefinedFunctions st'))).
  { apply steady_compileStatements in E as [_ _ _ _ D _ _]. rewrite Hst. apply D. constructor. }
  apply size_keys_of_list in Hkeys. rewrite <- keys_length in Hkeys.
  set (all := names (definedFunctions ++ userDefinedFunctions st')) in *.
  set (kept := filter (fun y => y <> "__proto__"%string) all) in *.
  destruct (remove_dups_length kept) as [Hle Heq].
  destruct (filter_length_all (fun y => y <> "__proto__"%string) all) as [Hfle Hfeq].
  fold kept in Hfle, Hfeq.
  assert (Hlen : length all
                 = (length definedFunctions + length (userDefinedFunctions st'))%nat).
  { unfold all, names. now rewrite length_map, length_app. }
  eexists _, _. split; [exact Hcode|].
  rewrite length_map, length_app. split; [reflexivity|].
  rewrite Hkeys. split; [lia|].
  rewrite <- Hlen. split.
  - intros Hcount. apply Nat2N.inj in Hcount.
    destruct Hfeq as [Hkept Hall']; [lia|].
    assert (Hnd : NoDup all) by (rewrite <- Hkept; apply Heq; lia).
    unfold all, names in Hnd, Hall'. rewrite map_app in Hnd, Hall'.
    apply NoDup_app in Hnd as (_ & Hdisj & _).
    apply Forall_app in Hall' as [_ Huser]. rewrite Forall_forall in Huser.
    intros x Hx. split; [intros Hx'; exact (Hdisj x Hx' Hx)|now apply Huser].
  - intros Hdisj. f_equal.
    assert (Hkept : kept = all).
    { unfold kept. apply filter_all. unfold all, names. rewrite map_app.
      apply Forall_app. split.
      - apply Forall_forall. intros x Hx ->. now apply definedFunctions_plain.
      - apply Forall_forall. intros x Hx. now apply Hdisj. }
    rewrite Hkept in Heq |- *. apply Heq. unfold all, names. rewrite map_app.
    apply NoDup_app. split; [|split; [|exact Hdistinct]].
    + apply definedFunctions_distinct.
    + intros x Hx Hx'. exact (proj1 (Hdisj x Hx') Hx).
Qed.

(** A declaration that compiles puts the name of the function among the
    user-defined functions. *)
Lemma compileFunctionDecl_registers fname params fbody st code st' :
  compileStatement getLocalDecls (FunctionDeclStatement fname params fbody) st
  = (Ok code, st') ->
  name fname ∈ names (userDefinedFunctions st').
Proof.
  intros Edecl'.
  cbn [compileStatement] in Edecl'. unfold compileFunctionDecl in Edecl'.
  apply bind_Ok in Edecl' as (defined & s0 & E0 & Edecl'). inv_ok E0.
  destruct (existsb _ _); [inv_ok Edecl'|].
  apply bind_Ok in Edecl' as (u1 & s0 & E0 & Edecl'). inv_ok E0.
  apply bind_Ok in Edecl' as (prevIndex & s0 & E0 & Edecl'). inv_ok E0.
  apply bind_Ok in Edecl' as (u2 & s0 & E0 & Edecl'). inv_ok E0.
  apply bind_Ok in Edecl' as (scopesTmp & s0 & E0 & Edecl'). inv_ok E0.
  apply bind_Ok in Edecl' as (u3 & s0 & E0 & Edecl'). inv_ok E0.
  apply bind_Ok in Edecl' as (u4 & s0 & E0 & Edecl').
  apply declareParams_state in E0 as [F0 _].
  apply bind_Ok in Edecl' as (bd & s3 & E3 & Edecl').
  pose proof (steady_flatMapM (compileStatement getLocalDecls) fbody
                ltac:(apply Forall_forall; intros x _; apply evolves_compileStatement)
                _ _ _ E3) as V3.
  inv_ok Edecl'.
  cbn [with_scopes with_index with_userfns with_bodies userDefinedFunctions].
  eapply evolves_names; [exact V3|]. rewrite F0.
  cbn [with_scopes with_index with_userfns with_bodies userDefinedFunctions].
  unfold names. rewrite map_app. apply elem_of_app. right. cbn.
  apply elem_of_cons. now left.
Qed.

Lemma existsb_names_true x fs :
  x ∈ names fs -> existsb (fun f => String.eqb (fn_name f) x) fs = true.
Proof.
  intros H. destruct (existsb _ fs) eqn:E; [reflexivity|].
  now apply existsb_names in E.
Qed.

(** X7. Declaring a function again is an error, wherever the first
    declaration stands among the statements compiled so far: the second
    declaration fails with [Function "f" is already defined] at its
    name, and leaves the state as it was. *)
Theorem redeclared_function_is_an_error
    before f1 params1 body1 between st code st' f2 params2 body2 :
  compileStatements getLocalDecls
    (before ++ FunctionDeclStatement f1 params1 body1 :: between) st = (Ok code, st') ->
  name f2 = name f1 ->
  compileStatement getLocalDecls (FunctionDeclStatement f2 params2 body2) st'
  = (CompErr (mkCompilerError
                ("Function " +:+ quoted (name f2) +:+ " is already defined")
                (line (loc f2)) (column (loc f2)) (String.length (name f2))),
     st').
Proof.
  intros E Hname.
  apply flatMapM_app_Ok in E as (r1 & sa & r2 & Ebefore & E & ->).
  cbn [flatMapM] in E.
  apply bind_Ok in E as (c & sb & Edecl & E).
  apply bind_Ok in E as (r3 & sc & Ebetween & E). inv_ok E.
  apply compileFunctionDecl_registers in Edecl.
  pose proof (steady_compileStatements getLocalDecls between _ _ _ Ebetween) as V.
  pose proof (evolves_names _ _ _ V Edecl) as Hin. rewrite <- Hname in Hin.
  apply existsb_names_true in Hin.
  cbn [compileStatement]. unfold compileFunctionDecl, bind, gets. now rewrite Hin.
Qed.

(** X8. A function declared at the top level of the program under a name
    other than [main] has, in the compiled module, the body its
    declaration registered: local declarations, the code of its
    statements, [call box_nil], [return], [end]. *)
Theorem declared_function_keeps_its_body before fname params fbody after st code st' :
  _compile getLocalDecls helperBodies
    (before ++ FunctionDeclStatement fname params fbody :: after) st = (Ok code, st') ->
  name fname <> "main" ->
  exists B s1 s2,
    compileStatements getLocalDecls fbody s1 = (Ok (encodes B), s2)
    /\ functionBodies st' !! name fname
       = Some (getLocalDecls s2
               ++ encodes (B ++ [Call (helper "box_nil"); Return])
               ++ Wasm.control.end_)
    /\ name fname ∈ names (userDefinedFunctions st').
Proof.
  intros H Hmain.
  destruct (_compile_run _ _ _ _ H) as (ins & s & E & -> & _).
  apply flatMapM_app_Ok in E as (r1 & sa & r2 & Ebefore & E & ->).
  cbn [flatMapM] in E.
  apply bind_Ok in E as (c & sb & Edecl & E).
  apply bind_Ok in E as (r3 & sc & Eafter & E). inv_ok E.
  pose proof (steady_compileStatements getLocalDecls after _ _ _ Eafter) as Vafter.
  pose proof (compileFunctionDecl_registers _ _ _ _ _ _ Edecl) as Hin.
  apply compileStatement_FunctionDecl in Edecl as (_ & B & s1 & s2 & Ebody & Hbody).
  exists B, s1, s2. split; [exact Ebody|].
  cbn [with_bodies functionBodies userDefinedFunctions].
  split.
  - rewrite object_lookup_insert_ne by congruence.
    destruct Vafter as [_ _ _ _ _ Bafter _]. rewrite Bafter by (now left). exact Hbody.
  - eapply evolves_names; eauto.
Qed.

End ModuleExtras.

(** *** Sample programs *)

(** [func f() println "hi" end] and [func g(x) ret x end] *)
Definition twoFunctions : list Statement :=
  [ FunctionDeclStatement (ident "f") [] [PrintlnStatement (StringLiteral (js "hi"))];
    FunctionDeclStatement (ident "g") [ident "x"]
      [ReturnStatement (Identifier (ident "x"))] ].

(** [print x], with no [x] declared. *)
Definition printUndeclared : Statement := PrintStatement (Identifier (ident "x")).

Lemma sampleHelperBodies_defined x :
  is_Some (sampleHelperBodies !! x) -> x ∈ names definedFunctions.
Proof.
  intros [b Hb]. unfold sampleHelperBodies in Hb.
  apply elem_of_list_to_map_2 in Hb.
  apply list_elem_of_fmap in Hb as (f & Hf & Hin). inversion Hf; subst.
  apply list_elem_of_fmap. now exists f.
Qed.

Lemma statement_keeps_outer_scopes_witness :
  exists code st',
    compileStatement sampleLocalDecls sampleIf startState = (Ok code, st')
    /\ scopes st' = scopes startState.
Proof.
  destruct (compileStatement sampleLocalDecls sampleIf startState)
    as [[code| |] st'] eqn:E; try (vm_compute in E; discriminate).
  exists code, st'. split; [reflexivity|].
  exact (proj2 (proj2 (statement_keeps_outer_scopes _ _ _ _ _ E)) eq_refl).
Defined.

Lemma user_function_names_distinct_witness :
  exists code st',
    _compile sampleLocalDecls sampleHelperBodies twoFunctions emptyState = (Ok code, st')
    /\ NoDup (names (userDefinedFunctions st')).
Proof.
  destruct (_compile sampleLocalDecls sampleHelperBodies twoFunctions emptyState)
    as [[code| |] st'] eqn:E; try (vm_compute in E; discriminate).
  exists code, st'. split; [reflexivity|].
  exact (user_function_names_distinct _ _ _ _ _ _ E).
Defined.

Lemma compile_stops_at_first_error_witness :
  exists e strs,
    compile sampleLocalDecls sampleHelperBodies
      (Program (helloProgram ++ printUndeclared :: helloProgram)) emptyState
    = {| result_bytes := []; error := Some e; meta_strings := strs |}.
Proof.
  destruct (compileStatements sampleLocalDecls helloProgram
              (resetState sampleHelperBodies (with_strings StringTable.empty emptyState)))
    as [[code| |] s1] eqn:E1; try (vm_compute in E1; discriminate).
  destruct (compileStatement sampleLocalDecls printUndeclared s1)
    as [[c|e|x] s2] eqn:E2.
  1, 3: exfalso; vm_compute in E1; inversion E1; subst s1; vm_compute in E2; discriminate.
  exists e, (StringTable.getBytes (strings s2)).
  exact (compile_stops_at_first_error sampleLocalDecls sampleHelperBodies
           _ _ helloProgram _ _ _ _ _ E1 E2).
Defined.

Lemma redeclared_function_is_an_error_witness :
  exists code st' e,
    compileStatements sampleLocalDecls twoFunctions startState = (Ok code, st')
    /\ compileStatement sampleLocalDecls (FunctionDeclStatement (ident "f") [] []) st'
       = (CompErr e, st').
Proof.
  destruct (compileStatements sampleLocalDecls twoFunctions startState)
    as [[code| |] st'] eqn:E; try (vm_compute in E; discriminate).
  exists code, st'. eexists. split; [reflexivity|].
  exact (redeclared_function_is_an_error sampleLocalDecls
           [] (ident "f") [] [PrintlnStatement (StringLiteral (js "hi"))]
           [FunctionDeclStatement (ident "g") [ident "x"]
              [ReturnStatement (Identifier (ident "x"))]]
           startState code st' (ident "f") [] [] E eq_refl).
Defined.

Lemma code_section_holds_bodies_by_name_witness :
  exists code st',
    _compile sampleLocalDecls sampleHelperBodies twoFunctions emptyState = (Ok code, st')
    /\ codeBodies code
       = Some (N.of_nat (length (JsObject.keys (functionBodies st'))),
               map (bodyOf st') (definedFunctions ++ userDefinedFunctions st')).
Proof.
  destruct (_compile sampleLocalDecls sampleHelperBodies twoFunctions emptyState)
    as [[code| |] st'] eqn:E; try (vm_compute in E; discriminate).
  exists code, st'. split; [reflexivity|].
  exact (proj1 (code_section_holds_bodies_by_name _ _ _ _ _ _ E)).
Defined.

Lemma code_count_matches_unless_names_collide_witness :
  exists code st' count bodies,
    _compile sampleLocalDecls sampleHelperBodies twoFunctions emptyState = (Ok code, st')
    /\ codeBodies code = Some (count, bodies)
    /\ (count <= N.of_nat (length bodies))%N.
Proof.
  destruct (_compile sampleLocalDecls sampleHelperBodies twoFunctions emptyState)
    as [[code| |] st'] eqn:E; try (vm_compute in E; discriminate).
  destruct (code_count_matches_unless_names_collide sampleLocalDecls sampleHelperBodies
              _ _ _ _ sampleHelperBodies_defined E)
    as (count & bodies & Hcode & _ & Hle & _).
  exists code, st', count, bodies. split; [reflexivity|]. split; [exact Hcode|exact Hle].
Defined.

(** [func __proto__() end]: the assignment of the body under that name
    replaces the prototype of [functionBodies] and adds no key, so the
    Code section declares 15 bodies and holds 16. *)
Definition functionNamedProto : list Statement :=
  [FunctionDeclStatement (ident "__proto__") [] []].

Lemma function_named_proto_is_not_counted :
  exists code st' bodies,
    _compile sampleLocalDecls sampleHelperBodies functionNamedProto emptyState
    = (Ok code, st')
    /\ codeBodies code = Some (15%N, bodies)
    /\ length bodies = 16%nat.
Proof.
  destruct (_compile sampleLocalDecls sampleHelperBodies functionNamedProto emptyState)
    as [[code| |] st'] eqn:E; try (vm_compute in E; discriminate).
  vm_compute in E. inversion E; subst. eexists _, _, _.
  split; [reflexivity|]. split; [vm_compute; reflexivity|reflexivity].
Qed.

Lemma declared_function_keeps_its_body_witness :
  exists code st' B s1 s2,
    _compile sampleLocalDecls sampleHelperBodies twoFunctions emptyState = (Ok code, st')
    /\ functionBodies st' !! "f"%string
       = Some (sampleLocalDecls s2
               ++ encodes (B ++ [Call (helper "box_nil"); Return])
               ++ Wasm.control.end_)
    /\ compileStatements sampleLocalDecls [PrintlnStatement (StringLiteral (js "hi"))] s1
       = (Ok (encodes B), s2).
Proof.
  destruct (_compile sampleLocalDecls sampleHelperBodies twoFunctions emptyState)
    as [[code| |] st'] eqn:E; try (vm_compute in E; discriminate).
  destruct (declared_function_keeps_its_body sampleLocalDecls sampleHelperBodies
              [] (ident "f") [] [PrintlnStatement (StringLiteral (js "hi"))]
              [FunctionDeclStatement (ident "g") [ident "x"]
                 [ReturnStatement (Identifier (ident "x"))]]
              emptyState code st' E ltac:(discriminate))
    as (B & s1 & s2 & Hbody & Hreg & _).
  exists code, st', B, s1, s2. split; [reflexivity|]. split; [exact Hreg|exact Hbody].
Defined.

(** ** The lexer: where tokens lie in the source *)

Module LexerSpans.
Import Lexer.

(** [src.slice(a, b)] *)
Definition slice (src : jsstring) (a b : nat) : jsstring := take (b - a) (drop a src).

Lemma slice_nil src a : slice src a a = [].
Proof. unfold slice. now rewrite Nat.sub_diag, take_0. Qed.

Lemma slice_one src c :
  (c < length src)%nat -> slice src c (S c) = [peek src c].
Proof.
  intros Hc. unfold slice, peek.
  destruct (lookup_lt_is_Some_2 src c Hc) as [x Hx].
  rewrite (nth_lookup_Some _ _ _ _ Hx), (drop_S _ _ _ Hx).
  replace (S c - c)%nat with 1%nat by lia. cbn. now rewrite take_0.
Qed.

Lemma slice_app src a b c :
  (a <= b)%nat -> (b <= c)%nat ->
  slice src a b ++ slice src b c = slice src a c.
Proof.
  intros Hab Hbc. unfold slice.
  replace (drop b src) with (drop (b - a) (drop a src))
    by (rewrite drop_drop; f_equal; lia).
  rewrite take_take_drop. f_equal. lia.
Qed.

Lemma slice_snoc src a c :
  (a <= c)%nat -> (c < length src)%nat ->
  slice src a c ++ [peek src c] = slice src a (S c).
Proof.
  intros Ha Hc. rewrite <- (slice_one src c Hc). apply slice_app; lia.
Qed.

(** What the three loops that copy characters return: the position
    where they stopped, at or after the one they started from and within
    the source, and the text they were given with the characters in
    between added. *)
Definition copied (src : jsstring) (pos : Pos) (value : jsstring) (r : Scan) : Prop :=
  match r with
  | ScanDone pos' value' =>
      (current pos <= current pos')%nat
      /\ (current pos' <= length src)%nat
      /\ value' = value ++ slice src (current pos) (current pos')
  | ScanError pos' => (current pos <= current pos')%nat
  | ScanThrown _ => False
  | ScanOutOfFuel => True
  end.

Lemma copied_step src pos value r :
  (current pos < length src)%nat ->
  copied src (advance src pos) (value ++ [peek src (current pos)]) r ->
  copied src pos value r.
Proof.
  intros Hlt. destruct r as [pos' value'|pos'| |]; cbn; auto;
    rewrite LexerFacts.current_advance; [|lia].
  intros (Hle & Hlen & ->).
  split; [lia|]. split; [exact Hlen|].
  rewrite <- app_assoc. f_equal.
  rewrite <- (slice_app src (current pos) (S (current pos)) (current pos')) by lia.
  now rewrite slice_one.
Qed.

Lemma copied_stop src pos value :
  (current pos <= length src)%nat -> copied src pos value (ScanDone pos value).
Proof. intros H. cbn. rewrite slice_nil, app_nil_r. auto. Qed.

Lemma scanComment_copied src fuel : forall pos value,
  (current pos <= length src)%nat ->
  copied src pos value (scanComment fuel src pos value).
Proof.
  induction fuel as [|fuel IH]; intros pos value Hle; [exact I|].
  cbn [scanComment].
  destruct (isEndOfFile (peek src (current pos))) eqn:Heof; cbn [negb andb];
    [now apply copied_stop|].
  apply LexerFacts.peek_in_range in Heof.
  destruct (match_ src (current pos) LF); cbn [negb]; [now apply copied_stop|].
  apply copied_step; [exact Heof|]. apply IH. rewrite LexerFacts.current_advance. lia.
Qed.

Lemma scanNumber_copied src fuel : forall pos value,
  (current pos <= length src)%nat ->
  copied src pos value (scanNumber fuel src pos value).
Proof.
  induction fuel as [|fuel IH]; intros pos value Hle; [exact I|].
  cbn [scanNumber].
  destruct (isEndOfFile (peek src (current pos))) eqn:Heof; cbn [negb andb];
    [now apply copied_stop|].
  apply LexerFacts.peek_in_range in Heof.
  destruct (isDigit (peek src (current pos)) || match_ src (current pos) DOT);
    [|now apply copied_stop].
  destruct (match_ src (current pos) DOT && negb (isDigit (lookahead src (current pos) 1)));
    [cbn; lia|].
  apply copied_step; [exact Heof|]. apply IH. rewrite LexerFacts.current_advance. lia.
Qed.

Lemma scanWord_copied src fuel : forall pos value,
  (current pos <= length src)%nat ->
  copied src pos value (scanWord fuel src pos value).
Proof.
  induction fuel as [|fuel IH]; intros pos value Hle; [exact I|].
  cbn [scanWord].
  destruct (isEndOfFile (peek src (current pos))) eqn:Heof; cbn [negb andb];
    [now apply copied_stop|].
  apply LexerFacts.peek_in_range in Heof.
  destruct (isAlphaNumeric (peek src (current pos))); [|now apply copied_stop].
  apply copied_step; [exact Heof|]. apply IH. rewrite LexerFacts.current_advance. lia.
Qed.

(** The loop of a string literal copies too, where there is no
    backslash. *)
Lemma scanString_plain src quote fuel : forall pos value pos' value',
  scanString fuel src quote pos value = ScanDone pos' value' ->
  (current pos <= current pos')%nat
  /\ (BACKSLASH ∉ slice src (current pos) (current pos') ->
      value' = value ++ slice src (current pos) (current pos')).
Proof.
  induction fuel as [|fuel IH]; intros pos value pos' value' H; [discriminate|].
  cbn [scanString] in H.
  destruct (isEndOfFile (peek src (current pos))) eqn:Heof; cbn [negb andb] in H.
  { inversion H; subst. split; [lia|]. now rewrite slice_nil, app_nil_r. }
  apply LexerFacts.peek_in_range in Heof.
  destruct (match_ src (current pos) quote); cbn [negb] in H.
  { inversion H; subst. split; [lia|]. now rewrite slice_nil, app_nil_r. }
  destruct (peek src (current pos) =? BACKSLASH)%N eqn:Hb.
  - destruct (decodeStringLiteralSegment src (current pos)) as [d adv|] eqn:Hd;
      [|discriminate].
    apply IH in H as [Hle _]. rewrite LexerFacts.current_iter_advance in Hle.
    pose proof (LexerFacts.decoded_advances _ _ _ _ Hd) as Hadv.
    split; [lia|]. intros Hn. exfalso. apply Hn.
    rewrite <- (slice_app src (current pos) (S (current pos)) (current pos')) by lia.
    rewrite slice_one by lia. apply N.eqb_eq in Hb. rewrite Hb.
    apply elem_of_cons. now left.
  - apply IH in H as [Hle Hv]. rewrite LexerFacts.current_advance in Hle, Hv.
    split; [lia|]. intros Hn.
    rewrite <- (slice_app src (current pos) (S (current pos)) (current pos')) in Hn |- * by lia.
    rewrite slice_one in Hn |- * by lia.
    rewrite Hv, <- app_assoc; [reflexivity|].
    intros Hin. apply Hn. apply elem_of_cons. now right.
Qed.

Lemma two_characters src c :
  (lookahead src c 1 =? EQUALS)%N = true ->
  (S (S c) <= length src)%nat
  /\ slice src c (S (S c)) = [peek src c; EQUALS].
Proof.
  unfold lookahead. intros H. apply N.eqb_eq in H.
  assert (Hlt : (c + 1 < length src)%nat).
  { destruct (Nat.lt_ge_cases (c + 1) (length src)) as [|Hge]; [done|].
    rewrite nth_overflow in H by done. discriminate. }
  split; [lia|].
  rewrite <- (slice_app src c (S c) (S (S c))) by lia.
  rewrite !slice_one by lia. unfold peek at 2.
  replace (S c) with (c + 1)%nat by lia. now rewrite H.
Qed.

(** *** Where the tokens lie *)

(** A token that starts at a quote is a string literal. *)
Definition startsWithQuote (src : jsstring) (t : Token) : bool :=
  isOneOf [SQUOTE; DQUOTE] (peek src (tstart t)).

(** The value of a token: of a string literal, which ends with the quote
    it starts with, the text between the quotes when that text has no
    backslash; of every other token the text between its start and its
    end. *)
Definition valued (src : jsstring) (t : Token) : Prop :=
  if startsWithQuote src t
  then type t = "STRING"%string
       /\ (S (tstart t) < tend t)%nat
       /\ peek src (tend t - 1) = peek src (tstart t)
       /\ (BACKSLASH ∉ slice src (S (tstart t)) (tend t - 1) ->
           value t = slice src (S (tstart t)) (tend t - 1))
  else value t = slice src (tstart t) (tend t).

(** A token other than the final one lies in the source: it is not
    empty, it ends within the source, and it has the value of its
    text. *)
Definition wellPlaced (src : jsstring) (t : Token) : Prop :=
  (tstart t < tend t)%nat
  /\ (tend t <= length src)%nat
  /\ valued src t.

Lemma valued_plain src ty v pos' start col :
  isOneOf [SQUOTE; DQUOTE] (peek src start) = false ->
  v = slice src start (current pos') ->
  valued src (token ty v pos' start col).
Proof.
  intros Hq Hv. unfold valued, startsWithQuote, token. cbn [tstart tend type value].
  now rewrite Hq.
Qed.

Lemma valued_string src v pos' start col :
  isOneOf [SQUOTE; DQUOTE] (peek src start) = true ->
  (S start < current pos')%nat ->
  peek src (current pos' - 1) = peek src start ->
  (BACKSLASH ∉ slice src (S start) (current pos' - 1) ->
   v = slice src (S start) (current pos' - 1)) ->
  valued src (token "STRING" v pos' start col).
Proof.
  intros Hq Hlt Hp Hv. unfold valued, startsWithQuote, token. cbn [tstart tend type value].
  rewrite Hq. auto.
Qed.

Lemma punctuation_not_quote ch :
  isOneOf [LPAREN; RPAREN; COMMA; PLUS; STAR; CARET; SLASH; PERCENT] ch = true ->
  isOneOf [SQUOTE; DQUOTE] ch = false.
Proof.
  unfold isOneOf. cbn [existsb]. intros H.
  repeat (apply orb_true_iff in H as [H|H]; [apply N.eqb_eq in H; subst ch; reflexivity|]).
  discriminate.
Qed.

(** The loop of a string literal stops at the end of the source or at
    the closing quote. *)
Lemma scanString_stops src quote fuel : forall pos value pos' value',
  scanString fuel src quote pos value = ScanDone pos' value' ->
  isEndOfFile (peek src (current pos')) = true \/ peek src (current pos') = quote.
Proof.
  induction fuel as [|fuel IH]; intros pos value pos' value' H; [discriminate|].
  cbn [scanString] in H.
  destruct (isEndOfFile (peek src (current pos))) eqn:Heof; cbn [negb andb] in H.
  { inversion H; subst. now left. }
  destruct (match_ src (current pos) quote) eqn:Hm; cbn [negb] in H.
  { inversion H; subst. right. unfold match_ in Hm. now apply N.eqb_eq in Hm. }
  destruct (peek src (current pos) =? BACKSLASH)%N.
  - destruct (decodeStringLiteralSegment src (current pos)); [|discriminate]. eauto.
  - eauto.
Qed.

(** The tokens follow each other without overlap from [from] on, and the
    last one ends at or before [upto]. *)
Fixpoint inOrder (from : nat) (ts : list Token) (upto : nat) : Prop :=
  match ts with
  | [] => (from <= upto)%nat
  | t :: ts' => (from <= tstart t)%nat /\ inOrder (tend t) ts' upto
  end.

(** The characters of the first case of the [switch]. *)
Definition isSpace (ch : N) : bool := isOneOf [SPACE; TAB; CR; LF] ch.

Definition blank (s : jsstring) : Prop := Forall (fun ch => isSpace ch = true) s.

(** The tokens tile the source from [from] to [upto]: what lies before,
    between and after them is white space. *)
Fixpoint tiled (src : jsstring) (from : nat) (ts : list Token) (upto : nat) : Prop :=
  match ts with
  | [] => (from <= upto)%nat /\ blank (slice src from upto)
  | t :: ts' =>
      (from <= tstart t)%nat /\ blank (slice src from (tstart t))
      /\ tiled src (tend t) ts' upto
  end.

Lemma tiled_inOrder src from ts c c' :
  tiled src from ts c -> (c <= c')%nat -> inOrder from ts c'.
Proof.
  revert from. induction ts as [|t ts IH]; cbn; intros from H Hc; [lia|].
  destruct H as (H1 & _ & H2). split; [exact H1|]. now apply IH.
Qed.

Lemma tiled_skip src from ts c :
  tiled src from ts c -> (c < length src)%nat -> isSpace (peek src c) = true ->
  tiled src from ts (S c).
Proof.
  revert from. induction ts as [|t ts IH]; cbn; intros from H Hc Hs.
  - destruct H as [H1 H2]. split; [lia|].
    rewrite <- slice_snoc by lia. apply Forall_app. split; [exact H2|].
    constructor; [exact Hs|constructor].
  - destruct H as (H1 & H2 & H3). split; [exact H1|]. split; [exact H2|]. now apply IH.
Qed.

Lemma tiled_snoc src from ts c t :
  tiled src from ts c -> tstart t = c -> (c <= tend t)%nat ->
  tiled src from (ts ++ [t]) (tend t).
Proof.
  revert from. induction ts as [|t0 ts IH]; cbn; intros from H Hs He.
  - destruct H as [H1 H2]. subst c. split; [exact H1|]. split; [exact H2|].
    split; [lia|]. rewrite slice_nil. constructor.
  - destruct H as (H1 & H2 & H3). split; [exact H1|]. split; [exact H2|]. now apply IH.
Qed.

(** *** Lines and columns *)

(** The line and the column of the character at index [c] of the source,
    both counted from 1: a line feed ends a line. *)
Definition lineOf (src : jsstring) (c : nat) : nat :=
  fold_left (fun l ch => if isNewline ch then S l else l) (take c src) 1%nat.
Definition columnOf (src : jsstring) (c : nat) : nat :=
  fold_left (fun col ch => if isNewline ch then 1%nat else S col) (take c src) 1%nat.

(** A position within the source carries the line and the column of its
    index. *)
Definition tracked (src : jsstring) (pos : Pos) : Prop :=
  (current pos <= length src)%nat ->
  line pos = lineOf src (current pos) /\ column pos = columnOf src (current pos).

(** A token reports the column of its first character and the line on
    which it ends. *)
Definition located (src : jsstring) (t : Token) : Prop :=
  tline t = lineOf src (tend t) /\ tcolumn t = columnOf src (tstart t).

Lemma tracked_advance src pos : tracked src pos -> tracked src (advance src pos).
Proof.
  unfold tracked. rewrite LexerFacts.current_advance. intros H Hle.
  destruct H as [Hl Hc]; [lia|].
  destruct (lookup_lt_is_Some_2 src (current pos) ltac:(lia)) as [x Hx].
  unfold lineOf, columnOf. rewrite (take_S_r _ _ _ Hx), !fold_left_app. cbn [fold_left].
  unfold advance, peek. rewrite (nth_lookup_Some _ _ _ _ Hx).
  fold (lineOf src (current pos)). fold (columnOf src (current pos)).
  destruct (isNewline x); cbn [line column]; rewrite ?Hl, ?Hc; auto.
Qed.

Lemma tracked_iter src k pos : tracked src pos -> tracked src (Nat.iter k (advance src) pos).
Proof.
  intros H. induction k as [|k IH]; [exact H|]. rewrite Nat.iter_succ. now apply tracked_advance.
Qed.

Definition scan_tracked (src : jsstring) (r : Scan) : Prop :=
  match r with
  | ScanDone pos' _ => tracked src pos'
  | _ => True
  end.

Lemma scanString_tracked src quote fuel : forall pos value,
  tracked src pos -> scan_tracked src (scanString fuel src quote pos value).
Proof.
  induction fuel as [|fuel IH]; intros pos value H; [exact I|].
  cbn [scanString].
  destruct (negb (isEndOfFile (peek src (current pos)))
            && negb (match_ src (current pos) quote)); [|exact H].
  destruct (peek src (current pos) =? BACKSLASH)%N.
  - destruct (decodeStringLiteralSegment src (current pos)); [|exact I].
    apply IH. now apply tracked_iter.
  - apply IH. now apply tracked_advance.
Qed.

Lemma scanComment_tracked src fuel : forall pos value,
  tracked src pos -> scan_tracked src (scanComment fuel src pos value).
Proof.
  induction fuel as [|fuel IH]; intros pos value H; [exact I|].
  cbn [scanComment].
  destruct (negb (isEndOfFile (peek src (current pos)))
            && negb (match_ src (current pos) LF)); [|exact H].
  apply IH. now apply tracked_advance.
Qed.

Lemma scanNumber_tracked src fuel : forall pos value,
  tracked src pos -> scan_tracked src (scanNumber fuel src pos value).
Proof.
  induction fuel as [|fuel IH]; intros pos value H; [exact I|].
  cbn [scanNumber].
  destruct (negb (isEndOfFile (peek src (current pos)))
            && (isDigit (peek src (current pos)) || match_ src (current pos) DOT)); [|exact H].
  destruct (match_ src (current pos) DOT && negb (isDigit (lookahead src (current pos) 1)));
    [exact I|].
  apply IH. now apply tracked_advance.
Qed.

Lemma scanWord_tracked src fuel : forall pos value,
  tracked src pos -> scan_tracked src (scanWord fuel src pos value).
Proof.
  induction fuel as [|fuel IH]; intros pos value H; [exact I|].
  cbn [scanWord].
  destruct (negb (isEndOfFile (peek src (current pos)))
            && isAlphaNumeric (peek src (current pos))); [|exact H].
  apply IH. now apply tracked_advance.
Qed.

(** *** Exceptions *)

Lemma peek_in_source src c ch : peek src c = ch -> ch <> NUL -> ch ∈ src.
Proof.
  unfold peek. intros H Hn.
  destruct (Nat.lt_ge_cases c (length src)) as [Hlt|Hge].
  - destruct (lookup_lt_is_Some_2 src c Hlt) as [x Hx].
    rewrite (nth_lookup_Some _ _ _ _ Hx) in H. subst x.
    eapply list_elem_of_lookup_2; eauto.
  - rewrite nth_overflow in H by done. congruence.
Qed.

Lemma scanString_thrown src quote fuel : forall pos value exn,
  scanString fuel src quote pos value = ScanThrown exn -> BACKSLASH ∈ src.
Proof.
  induction fuel as [|fuel IH]; intros pos value exn H; [discriminate|].
  cbn [scanString] in H.
  destruct (negb (isEndOfFile (peek src (current pos)))
            && negb (match_ src (current pos) quote)); [|discriminate].
  destruct (peek src (current pos) =? BACKSLASH)%N eqn:Hb.
  - apply N.eqb_eq in Hb. now apply (peek_in_source _ _ _ Hb).
  - eauto.
Qed.

(** *** The loop of [tokenize] *)

(** What [tokenize] gives: tokens that lie in the source, one after the
    other, with their lines and columns, and a final EOF token after
    them; without an error the tokens tile the source up to its end; and
    an exception needs a backslash in the source. *)
Definition placed (src : jsstring) (r : Result) : Prop :=
  match r with
  | Returned tokens error =>
      exists before eof,
        tokens = before ++ [eof]
        /\ type eof = "EOF"%string
        /\ value eof = []
        /\ tstart eof = tend eof
        /\ Forall (wellPlaced src) before
        /\ Forall (located src) before
        /\ inOrder 0 before (tstart eof)
        /\ (error = None ->
            tiled src 0 before (tstart eof)
            /\ isEndOfFile (peek src (tstart eof)) = true)
  | Thrown _ => BACKSLASH ∈ src
  | OutOfFuel => True
  end.

Section Placed.

Variable tokenTypes : jsstring -> string.
Variable keywords : jsstring -> option string.

Lemma placed_eof src tokens pos pos' err :
  Forall (wellPlaced src) tokens -> Forall (located src) tokens ->
  tiled src 0 tokens (current pos) ->
  (current pos <= current pos')%nat ->
  (err = None -> pos' = pos /\ isEndOfFile (peek src (current pos)) = true) ->
  placed src (Returned (tokens ++ [eofToken pos']) err).
Proof.
  intros Hw Hl Ht Hle He. exists tokens, (eofToken pos').
  split; [reflexivity|]. split; [reflexivity|]. split; [reflexivity|].
  cbn [eofToken tstart tend]. rewrite Nat.sub_0_r. split; [reflexivity|].
  split; [exact Hw|]. split; [exact Hl|].
  split; [eapply tiled_inOrder; eauto|].
  intros Hn. destruct (He Hn) as [-> Hp]. auto.
Qed.

Ltac not_a_quote :=
  first [ match goal with
          | H : isOneOf [SQUOTE; DQUOTE] _ = false |- _ => exact H
          end
        | apply punctuation_not_quote; assumption ].

Lemma tokenizeLoop_placed src fuel : forall pos tokens,
  (current pos <= length src)%nat -> tracked src pos ->
  Forall (wellPlaced src) tokens -> Forall (located src) tokens ->
  tiled src 0 tokens (current pos) ->
  placed src (tokenizeLoop tokenTypes keywords fuel src pos tokens).
Proof.
  induction fuel as [|fuel IH]; intros pos tokens Hle Htr Hw Hl Ht; [exact I|].
  cbn [tokenizeLoop].
  destruct (isEndOfFile (peek src (current pos))) eqn:Heof.
  { eapply placed_eof; eauto. }
  pose proof (LexerFacts.peek_in_range _ _ Heof) as Hlt.
  assert (Hrec : forall pos' ty v,
            (current pos < current pos')%nat -> (current pos' <= length src)%nat ->
            tracked src pos' ->
            valued src (token ty v pos' (current pos) (column pos)) ->
            placed src (tokenizeLoop tokenTypes keywords fuel src pos'
                          (tokens ++ [token ty v pos' (current pos) (column pos)]))).
  { intros pos' ty v Hlt' Hle' Htr' Hv. apply IH; [exact Hle'|exact Htr'| | |].
    - apply Forall_app. split; [exact Hw|]. constructor; [|constructor].
      split; [exact Hlt'|]. split; [exact Hle'|exact Hv].
    - apply Forall_app. split; [exact Hl|]. constructor; [|constructor].
      unfold located, token. cbn [tstart tend tline tcolumn].
      split; [now apply Htr'|now apply Htr].
    - apply (tiled_snoc src 0 tokens (current pos)
               (token ty v pos' (current pos) (column pos))); cbn [token tstart tend];
        [exact Ht|reflexivity|lia]. }
  assert (Hone : forall ty,
            startsWithQuote src (token ty [] pos (current pos) 0) = false ->
            placed src (tokenizeLoop tokenTypes keywords fuel src (advance src pos)
                          (tokens ++ [token ty [peek src (current pos)] (advance src pos)
                                        (current pos) (column pos)]))).
  { intros ty Hq. apply Hrec; rewrite ?LexerFacts.current_advance; try lia.
    - now apply tracked_advance.
    - apply valued_plain; [exact Hq|].
      now rewrite LexerFacts.current_advance, slice_one. }
  assert (Htwo : forall ty,
            startsWithQuote src (token ty [] pos (current pos) 0) = false ->
            (lookahead src (current pos) 1 =? EQUALS)%N = true ->
            placed src (tokenizeLoop tokenTypes keywords fuel src
                          (advance src (advance src pos))
                          (tokens ++ [token ty [peek src (current pos); EQUALS]
                                        (advance src (advance src pos))
                                        (current pos) (column pos)]))).
  { intros ty Hq Hla. destruct (two_characters _ _ Hla) as [Hlen Hsl].
    apply Hrec; rewrite ?LexerFacts.current_advance; try lia.
    - now apply tracked_advance, tracked_advance.
    - apply valued_plain; [exact Hq|].
      now rewrite !LexerFacts.current_advance, Hsl. }
  assert (Hscan_fuel : (1 <= S (length src))%nat) by lia.
  assert (Hstop : forall pos' e,
            (current pos <= current pos')%nat ->
            placed src (Returned (tokens ++ [eofToken pos']) (Some e))).
  { intros pos' e Hle'. eapply placed_eof; eauto. intros [=]. }
  repeat lazymatch goal with
  | |- placed _ (if ?c then _ else _) => destruct c eqn:?
  end.
  all: try (apply Hone; not_a_quote).
  all: try (apply Htwo; [not_a_quote|first [assumption|reflexivity]]).
  all: try (apply Hstop; lia).
  - (* white space *)
    apply IH; [rewrite LexerFacts.current_advance; lia|now apply tracked_advance
              |exact Hw|exact Hl|].
    rewrite LexerFacts.current_advance. now apply tiled_skip.
  - (* string literal *)
    pose proof (LexerFacts.scanString_ok src (peek src (current pos)) (S (length src))
                  (advance src pos) [] Hscan_fuel ltac:(lia)) as Hok.
    pose proof (scanString_tracked src (peek src (current pos)) (S (length src))
                  (advance src pos) [] (tracked_advance _ _ Htr)) as Htr'.
    destruct (scanString _ _ _ _ _) as [pos' value'|pos'|exn|] eqn:Hs; cbn in Hok; try done.
    + rewrite LexerFacts.current_advance in Hok. cbn in Htr'.
      destruct (isEndOfFile (peek src (current pos'))) eqn:Heof'.
      * apply Hstop. lia.
      * pose proof Heof' as Hnoteof. apply LexerFacts.peek_in_range in Heof'.
        apply Hrec; rewrite ?LexerFacts.current_advance; try lia.
        -- now apply tracked_advance.
        -- pose proof (scanString_stops _ _ _ _ _ _ _ Hs) as [Hend|Hquote];
             [congruence|].
           apply valued_string; rewrite ?LexerFacts.current_advance;
             replace (S (current pos') - 1)%nat with (current pos') by lia.
           ++ assumption.
           ++ lia.
           ++ exact Hquote.
           ++ apply scanString_plain in Hs as [_ Hv].
              rewrite LexerFacts.current_advance in Hv. exact Hv.
    + cbn. eapply scanString_thrown; eauto.
  - (* two characters after a tilde, a colon or an equals sign *)
    apply Htwo; [not_a_quote|].
    first [reflexivity
          |match goal with
           | H : negb (lookahead src (current pos) 1 =? EQUALS)%N = false |- _ =>
               now apply negb_false_iff in H
           end].
  - (* comment *)
    pose proof (scanComment_copied src (S (length src)) pos [] Hle) as Hc.
    pose proof (scanComment_tracked src (S (length src)) pos [] Htr) as Htr'.
    destruct (scanComment _ _ _ _) as [pos' value'|pos'|exn|] eqn:Hs; cbn in Hc; try done.
    destruct Hc as (_ & Hlen & ->).
    apply Hrec; [|exact Hlen|exact Htr'|apply valued_plain; [not_a_quote|reflexivity]].
    eapply LexerFacts.scanComment_moves; eauto. lia.
  - (* number *)
    pose proof (scanNumber_copied src (S (length src)) pos [] Hle) as Hc.
    pose proof (scanNumber_tracked src (S (length src)) pos [] Htr) as Htr'.
    destruct (scanNumber _ _ _ _) as [pos' value'|pos'|exn|] eqn:Hs; cbn in Hc; try done.
    + destruct Hc as (_ & Hlen & ->).
      apply Hrec; [|exact Hlen|exact Htr'|apply valued_plain; [not_a_quote|reflexivity]].
      eapply LexerFacts.scanNumber_moves; eauto. lia.
    + now apply Hstop.
  - (* identifier or keyword *)
    pose proof (scanWord_copied src (S (length src)) pos [] Hle) as Hc.
    pose proof (scanWord_tracked src (S (length src)) pos [] Htr) as Htr'.
    destruct (scanWord _ _ _ _) as [pos' value'|pos'|exn|] eqn:Hs; cbn in Hc; try done.
    destruct Hc as (_ & Hlen & ->).
    apply Hrec; [|exact Hlen|exact Htr'|apply valued_plain; [not_a_quote|reflexivity]].
    eapply LexerFacts.scanWord_moves; eauto. lia.
Qed.

Lemma tokenize_placed src : placed src (tokenize tokenTypes keywords src).
Proof.
  apply tokenizeLoop_placed; [cbn; lia| |constructor|constructor|].
  - intros _. cbn [current line column]. unfold lineOf, columnOf. now rewrite take_0.
  - cbn [tiled current]. split; [lia|]. rewrite slice_nil. constructor.
Qed.

(** X9. Every token [tokenize] returns before the final EOF token is a
    non-empty stretch of the source that ends within it, and the tokens
    come in source order without overlap.  A token that starts at a quote
    is a [STRING] token that ends with the same quote, and its value is
    the text between the quotes when that text has no backslash; the
    value of every other token is exactly the source text of its
    stretch.  The EOF token is empty. *)
Theorem tokens_are_source_spans src tokens error :
  tokenize tokenTypes keywords src = Returned tokens error ->
  exists before eof,
    tokens = before ++ [eof]
    /\ type eof = "EOF"%string
    /\ value eof = []
    /\ tstart eof = tend eof
    /\ Forall (wellPlaced src) before
    /\ inOrder 0 before (tstart eof).
Proof.
  intros H. pose proof (tokenize_placed src) as Hp. rewrite H in Hp.
  destruct Hp as (before & eof & H1 & H2 & H3 & H4 & H5 & _ & H7 & _).
  exists before, eof. auto 7.
Qed.

(** X10. When [tokenize] returns without an error, nothing but white space
    was skipped: the characters before the first token, between two
    tokens, and between the last token and the EOF token are spaces,
    tabs, carriage returns and line feeds, and the EOF token stands at
    the end of the source or at its first NUL character. *)
Theorem tokens_tile_the_source src tokens :
  tokenize tokenTypes keywords src = Returned tokens None ->
  exists before eof,
    tokens = before ++ [eof]
    /\ tiled src 0 before (tstart eof)
    /\ isEndOfFile (peek src (tstart eof)) = true.
Proof.
  intros H. pose proof (tokenize_placed src) as Hp. rewrite H in Hp.
  destruct Hp as (before & eof & H1 & _ & _ & _ & _ & _ & _ & H7).
  exists before, eof. destruct (H7 eq_refl). auto.
Qed.

(** X11. Every token before the final EOF token reports the column of its
    first character, and the line on which it ends: a string literal that
    spans lines reports its last line, not its first. *)
Theorem tokens_report_line_and_column src tokens error :
  tokenize tokenTypes keywords src = Returned tokens error ->
  exists before eof,
    tokens = before ++ [eof] /\ Forall (located src) before.
Proof.
  intros H. pose proof (tokenize_placed src) as Hp. rewrite H in Hp.
  destruct Hp as (before & eof & H1 & _ & _ & _ & _ & H5 & _).
  exists before, eof. auto.
Qed.

(** X12. A source without a backslash always gives a token list: [tokenize]
    throws only inside an escape sequence of a string literal. *)
Theorem tokenize_returns_without_backslash src :
  BACKSLASH ∉ src ->
  exists tokens error, tokenize tokenTypes keywords src = Returned tokens error.
Proof.
  intros Hn. pose proof (tokenize_placed src) as Hp.
  pose proof (LexerFacts.tokenize_returns_EOF_last tokenTypes keywords src) as He.
  destruct (tokenize tokenTypes keywords src) as [tokens error|exn|]; cbn in Hp, He.
  - eauto.
  - contradiction.
  - contradiction.
Qed.

End Placed.

(** *** A sample source *)

Definition sampleTokenTypes (s : jsstring) : string :=
  if decide (s = js ":=") then "ASSIGN" else "PLUS".

Definition sampleKeywords (s : jsstring) : option string :=
  if decide (s = js "print") then Some "PRINT"%string else None.

(** Two lines: [x := 'a' + 12] and [print x]. *)
Definition sampleSource : jsstring :=
  js "x := 'a' + 12" ++ [LF] ++ js "print x".

Lemma tokens_are_source_spans_witness :
  exists tokens error before eof,
    tokenize sampleTokenTypes sampleKeywords sampleSource = Returned tokens error
    /\ tokens = before ++ [eof]
    /\ Forall (wellPlaced sampleSource) before
    /\ inOrder 0 before (tstart eof).
Proof.
  destruct (tokenize sampleTokenTypes sampleKeywords sampleSource)
    as [tokens error|exn|] eqn:E; try (vm_compute in E; discriminate).
  destruct (tokens_are_source_spans _ _ _ _ _ E)
    as (before & eof & H1 & _ & _ & _ & Hw & Ho).
  exists tokens, error, before, eof. auto.
Defined.

Lemma tokens_tile_the_source_witness :
  exists tokens before eof,
    tokenize sampleTokenTypes sampleKeywords sampleSource = Returned tokens None
    /\ tokens = before ++ [eof]
    /\ tiled sampleSource 0 before (tstart eof).
Proof.
  destruct (tokenize sampleTokenTypes sampleKeywords sampleSource)
    as [tokens [e|]|exn|] eqn:E; try (vm_compute in E; discriminate).
  destruct (tokens_tile_the_source _ _ _ _ E) as (before & eof & H1 & Ht & _).
  exists tokens, before, eof. auto.
Defined.

Lemma tokens_report_line_and_column_witness :
  exists tokens error before eof,
    tokenize sampleTokenTypes sampleKeywords sampleSource = Returned tokens error
    /\ tokens = before ++ [eof]
    /\ Forall (located sampleSource) before.
Proof.
  destruct (tokenize sampleTokenTypes sampleKeywords sampleSource)
    as [tokens error|exn|] eqn:E; try (vm_compute in E; discriminate).
  destruct (tokens_report_line_and_column _ _ _ _ _ E) as (before & eof & H1 & Hl).
  exists tokens, error, before, eof. auto.
Defined.

Lemma tokenize_returns_without_backslash_witness :
  (BACKSLASH ∉ sampleSource)
  /\ (exists tokens error,
        tokenize sampleTokenTypes sampleKeywords sampleSource = Returned tokens error).
Proof.
  assert (H : BACKSLASH ∉ sampleSource).
  { apply (bool_decide_unpack _). vm_compute. exact I. }
  split; [exact H|].
  exact (tokenize_returns_without_backslash sampleTokenTypes sampleKeywords _ H).
Defined.

End LexerSpans.
